(** * TableUV dynamic occupancy map ([app_slam.c]): model and properties

    A shallow embedding of the mapping core of
    [Firmware/ESP32/Arduino_platform/src/APP/app_slam.c]: the toroidal
    addressing idiom [v + MAP_OFFSET[ARG_RANGE_INCLUSIVE(v, 0, W)]], the map
    reset, the translation of the map centre with band clearing, the vehicle
    footprint clearing and the sub-pixel drift accumulation of
    [app_slam_private_globalMapUpdate].

    Integers are [Z] with the C conversions to [int32_t], [uint32_t] and
    [uint8_t] written out; the cell buffer is a [list Z] whose stores are
    bounds-checked (a store outside the buffer is undefined behaviour in C
    and makes the modelled function return [None]); [float] is IEEE-754
    binary32 through the Standard Library's [SpecFloat]. *)

From Stdlib Require Import ZArith Lia Bool List QArith Qabs Qpower Qround.
From Stdlib Require Import SpecFloat.
From stdpp Require Import base option list.

Local Open Scope Z_scope.

(** ** Machine integers *)

Module CInt.

(** Conversion to [uint32_t]: reduction modulo 2^32. *)
Definition to_uint32 (z : Z) : Z := z mod 2 ^ 32.

(** Conversion to [int32_t]: two's complement wrap-around. *)
Definition to_int32 (z : Z) : Z := (z + 2 ^ 31) mod 2 ^ 32 - 2 ^ 31.

(** Conversion to [uint8_t]. *)
Definition to_uint8 (z : Z) : Z := z mod 2 ^ 8.

(** The value of a C comparison: 1 when it holds, 0 otherwise. *)
Definition of_bool (b : bool) : Z := if b then 1 else 0.

End CInt.
Import CInt.

(** ** Parameters and pre-compiled constants (lines 29-64)

    The literals carry the suffix [U]: the constants are [unsigned int] and
    their quotients are unsigned divisions. *)

Definition ROBOT_SIZE_D_MM : Z := 100.
Definition GMAP_SQUARE_EDGE_SIZE_MM : Z := 1000.
Definition GMAP_UNIT_GRID_STEP_SIZE_MM : Z := 10.

Definition GRID_CELL_NEUTRAL : Z := 0.
Definition GRID_CELL_VISITED : Z := -10.
Definition GRID_CELL_OCCUPANCY_MAX_PROB : Z := 100.
Definition GRID_CELL_EDGE_MIN_PROB : Z := 101.
Definition GRID_CELL_EDGE_MAX_PROB : Z := 120.
Definition GRID_CELL_WALKABLE_THRESHOLD_MAX : Z := 20.
Definition GRID_CELL_WALKABLE_THRESHOLD_MIN : Z := -20.

Definition ROBOT_SIZE_D_PIXEL : Z :=
  to_uint32 (ROBOT_SIZE_D_MM / GMAP_UNIT_GRID_STEP_SIZE_MM).
Definition ROBOT_SIZE_R_PIXEL : Z := to_uint32 (ROBOT_SIZE_D_PIXEL / 2).
Definition GMAP_GRID_EDGE_SIZE_PIXEL : Z :=
  to_uint32 (GMAP_SQUARE_EDGE_SIZE_MM / GMAP_UNIT_GRID_STEP_SIZE_MM).
Definition GMAP_WN_PIXEL : Z := to_uint32 (GMAP_GRID_EDGE_SIZE_PIXEL + 1).
Definition GMAP_HN_PIXEL : Z := to_uint32 (GMAP_GRID_EDGE_SIZE_PIXEL + 1).
Definition GMAP_DEFAULT_CENTRAL_X_INDEX_PIXEL : Z :=
  to_uint32 (GMAP_GRID_EDGE_SIZE_PIXEL / 2).
Definition GMAP_DEFAULT_CENTRAL_Y_INDEX_PIXEL : Z :=
  to_uint32 (GMAP_GRID_EDGE_SIZE_PIXEL / 2).

(** ** Wraparound addressing (lines 69 and 122) *)

(** [ARG_RANGE_INCLUSIVE(x_val, min, max)]: the sum of two signed
    comparisons, converted to [uint8_t]. *)
Definition ARG_RANGE_INCLUSIVE (x_val min max : Z) : Z :=
  to_uint8 (of_bool (to_int32 x_val >=? to_int32 min)
            + of_bool (to_int32 x_val >=? to_int32 max)).

(** [static const int32_t MAP_OFFSET[3] = {GMAP_WN_PIXEL, 0, -GMAP_WN_PIXEL}]:
    the third initialiser is an unsigned negation converted to [int32_t]. *)
Definition MAP_OFFSET : list Z :=
  [ to_int32 GMAP_WN_PIXEL; to_int32 0; to_int32 (to_uint32 (- GMAP_WN_PIXEL)) ].

(** [MAP_OFFSET[k]]; the table is only ever indexed by a value of
    [ARG_RANGE_INCLUSIVE], which is 0, 1 or 2. *)
Definition MAP_OFFSET_at (k : Z) : Z := nth (Z.to_nat k) MAP_OFFSET 0.

(** The offset the source adds to a coordinate [c] along an axis of [n]
    pixels: [MAP_OFFSET[ARG_RANGE_INCLUSIVE((int32_t)(c), 0, n)]]. *)
Definition map_offset_of (c n : Z) : Z :=
  MAP_OFFSET_at (ARG_RANGE_INCLUSIVE c 0 n).

(** The idiom [c + MAP_OFFSET[ARG_RANGE_INCLUSIVE((int32_t)(c), 0, n)]] the
    source inlines at every indexing site (lines 195, 216, 229, 230, 252,
    259): the spec's [wrap]. *)
Definition wrap (c n : Z) : Z := to_int32 (c + map_offset_of c n).

(** ** IEEE-754 binary32 ([float]) *)

Module F32.

Definition prec : Z := 24.
Definition emax : Z := 128.

Definition float32 : Type := spec_float.

Definition add : float32 -> float32 -> float32 := SFadd prec emax.
Definition sub : float32 -> float32 -> float32 := SFsub prec emax.
Definition mul : float32 -> float32 -> float32 := SFmul prec emax.
Definition div : float32 -> float32 -> float32 := SFdiv prec emax.

(** Conversion of an integer to [float], rounding to nearest even. *)
Definition of_Z (z : Z) : float32 := binary_normalize prec emax z 0 false.

(** The integral part of a finite [float]: the fraction is discarded. *)
Definition truncate (f : float32) : option Z :=
  match f with
  | S754_zero _ => Some 0
  | S754_finite s m e => Some (cond_Zopp s (Z.shiftl (Zpos m) e))
  | S754_infinity _ | S754_nan => None
  end.

(** The cast [(int32_t) f]: the value truncated toward zero; undefined
    ([None]) when the integral part does not fit [int32_t]. *)
Definition to_int32 (f : float32) : option Z :=
  z ← truncate f;
  if (- 2 ^ 31 <=? z) && (z <? 2 ^ 31) then Some z else None.

(** The rational value of a finite [float]. *)
Definition to_Q (f : float32) : Q :=
  match f with
  | S754_finite s m e => (inject_Z (cond_Zopp s (Zpos m)) * Qpower 2 e)%Q
  | _ => 0%Q
  end.

End F32.
Abbreviation float32 := F32.float32.

(** ** Data model (lines 27 and 89-100) *)

(** [math_cart_coord_int32_S] and [math_cart_coord_float_S]: a pair of
    coordinates. *)
Record math_cart_coord (A : Type) : Type := { x : A; y : A }.
Arguments Build_math_cart_coord {A} _ _.
Arguments x {A} _.
Arguments y {A} _.

Definition math_cart_coord_int32_S : Type := math_cart_coord Z.
Definition math_cart_coord_float_S : Type := math_cart_coord float32.

(** [dynamic_map_S]. The cells are [int8_t]; the array has
    [GMAP_WN_PIXEL * GMAP_HN_PIXEL] of them, row after row. *)
Record dynamic_map_S : Type := {
  data : list Z;
  map_center_pixel : math_cart_coord_int32_S;
  map_offset_mm : math_cart_coord_float_S
}.

(** The number of cells of [data]. *)
Definition GMAP_CELLS : Z := to_uint32 (GMAP_WN_PIXEL * GMAP_HN_PIXEL).

(** [mdata[idx] = v]. A store outside the array is undefined behaviour:
    the model stops with [None]. *)
Definition store (mdata : list Z) (idx v : Z) : option (list Z) :=
  if 0 <=? idx then
    match mdata !! Z.to_nat idx with
    | Some _ => Some (<[Z.to_nat idx := v]> mdata)
    | None => None
    end
  else None.

(** [mdata[idx]] read back. *)
Definition load (mdata : list Z) (idx : Z) : option Z :=
  if 0 <=? idx then mdata !! Z.to_nat idx else None.

(** ** Counted loops

    [for (int32_t i = lo; i < hi; i++) body]: the body never assigns the
    counter, so the loop runs [hi - lo] times (none when [hi <= lo]) and
    stops early only when the body is undefined. *)

Fixpoint for_loop {S : Type} (n : nat) (i : Z)
    (body : Z -> S -> option S) (s : S) : option S :=
  match n with
  | O => Some s
  | Datatypes.S n' => s' ← body i s; for_loop n' (i + 1) body s'
  end.

Definition for_range {S : Type} (lo hi : Z)
    (body : Z -> S -> option S) (s : S) : option S :=
  for_loop (Z.to_nat (hi - lo)) lo body s.

(** ** Reset (lines 153-158) *)

(** [memset(&slam_data.gMap, 0, sizeof(dynamic_map_S))]: every byte zero,
    so every cell is 0, the centre is (0, 0) and both offsets are +0.0f. *)
Definition memset_zero : dynamic_map_S :=
  {| data := replicate (Z.to_nat GMAP_CELLS) 0;
     map_center_pixel := {| x := 0; y := 0 |};
     map_offset_mm := {| x := S754_zero false; y := S754_zero false |} |}.

Definition app_slam_private_resetGlobalMap (gMap : dynamic_map_S) : dynamic_map_S :=
  let gMap := memset_zero in
  {| data := data gMap;
     map_center_pixel :=
       {| x := to_int32 GMAP_DEFAULT_CENTRAL_X_INDEX_PIXEL;
          y := to_int32 GMAP_DEFAULT_CENTRAL_Y_INDEX_PIXEL |};
     map_offset_mm := map_offset_mm gMap |}.

(** [app_slam_init] (lines 364-370): zero everything, then reset the map. *)
Definition app_slam_init : dynamic_map_S :=
  app_slam_private_resetGlobalMap memset_zero.

(** ** Translation (lines 165-231) *)

(** The first loop nest (lines 190-199): for each row, the columns
    [start .. end - 1] through the wrap idiom. [y_index] is carried along
    the rows. *)
Definition translate_clear_columns (start end_ : Z) (mdata : list Z)
    : option (list Z) :=
  r ← for_range 0 GMAP_HN_PIXEL
        (fun j '(m, y_index) =>
           m' ← for_range start end_
                  (fun i m =>
                     let x_index := to_int32 (i + map_offset_of i GMAP_WN_PIXEL) in
                     store m (to_int32 (y_index + x_index)) GRID_CELL_NEUTRAL)
                  m;
           Some (m', to_int32 (to_uint32 (to_uint32 y_index + GMAP_WN_PIXEL))))
        (mdata, 0);
  Some (fst r).

(** The second loop nest (lines 214-222): the rows [start .. end - 1]
    through the wrap idiom, every column of each. *)
Definition translate_clear_rows (start end_ : Z) (mdata : list Z)
    : option (list Z) :=
  for_range start end_
    (fun j m =>
       let y_index := to_int32 (j + map_offset_of j GMAP_HN_PIXEL) in
       let y_index := to_int32 (to_uint32 (to_uint32 y_index * GMAP_WN_PIXEL)) in
       for_range 0 GMAP_WN_PIXEL
         (fun i m => store m (to_int32 (y_index + i)) GRID_CELL_NEUTRAL)
         m)
    mdata.

(** [start] and [end] of a band (lines 180-189 and 204-213). *)
Definition band_start (c00 d : Z) : Z :=
  if 0 <=? d then c00 else to_int32 (c00 + d).
Definition band_end (c00 d : Z) : Z :=
  if 0 <=? d then to_int32 (c00 + d) else c00.

Definition app_slam_private_translateGlobalMap (dx_pixel dy_pixel : Z)
    (gMap : dynamic_map_S) : option dynamic_map_S :=
  let mc_pixel := map_center_pixel gMap in
  let x00 :=
    to_int32 (to_uint32 (to_uint32 (x mc_pixel) - GMAP_DEFAULT_CENTRAL_X_INDEX_PIXEL)) in
  let y00 :=
    to_int32 (to_uint32 (to_uint32 (y mc_pixel) - GMAP_DEFAULT_CENTRAL_Y_INDEX_PIXEL)) in
  mdata1 ←
    (if dx_pixel =? 0 then Some (data gMap)
     else translate_clear_columns (band_start x00 dx_pixel)
            (band_end x00 dx_pixel) (data gMap));
  mdata2 ←
    (if dy_pixel =? 0 then Some mdata1
     else translate_clear_rows (band_start y00 dy_pixel)
            (band_end y00 dy_pixel) mdata1);
  let cx := to_int32 (x mc_pixel + dx_pixel) in
  let cy := to_int32 (y mc_pixel + dy_pixel) in
  Some {| data := mdata2;
          map_center_pixel :=
            {| x := to_int32 (cx + map_offset_of cx GMAP_WN_PIXEL);
               y := to_int32 (cy + map_offset_of cy GMAP_HN_PIXEL) |};
          map_offset_mm := map_offset_mm gMap |}.

(** ** Vehicle footprint (lines 238-264) *)

Definition PADDING : list Z := [4; 2; 1; 1; 0; 0; 0; 1; 1; 2; 4].

(** The [data] index written for row [j] and column [i] of the footprint
    (lines 251-253 and 258-261). *)
Definition footprint_row (cy_offsetted j : Z) : Z :=
  let y := to_int32 (cy_offsetted + j) in
  let y := to_int32 (y + map_offset_of y GMAP_HN_PIXEL) in
  to_int32 (to_uint32 (to_uint32 y * GMAP_WN_PIXEL)).

Definition footprint_column (cx_offsetted i : Z) : Z :=
  let x := to_int32 (cx_offsetted + i) in
  to_int32 (x + map_offset_of x GMAP_WN_PIXEL).

(** The loop nest, over any per-cell action [visit]: the source's action is
    the store of [GRID_CELL_VISITED]. The bound of the inner loop is
    [ROBOT_SIZE_D_PIXEL - dx_pad], computed in [unsigned int]. *)
Definition footprint_loop {S : Type} (mc_pixel : math_cart_coord_int32_S)
    (visit : Z -> S -> option S) (s : S) : option S :=
  let cx_offsetted :=
    to_int32 (to_uint32 (to_uint32 (x mc_pixel) - ROBOT_SIZE_R_PIXEL)) in
  let cy_offsetted :=
    to_int32 (to_uint32 (to_uint32 (y mc_pixel) - ROBOT_SIZE_R_PIXEL)) in
  for_range 0 (ROBOT_SIZE_D_PIXEL + 1)
    (fun j s =>
       let y := footprint_row cy_offsetted j in
       let dx_pad := nth (Z.to_nat j) PADDING 0 in
       for_range dx_pad (to_uint32 (ROBOT_SIZE_D_PIXEL - to_uint32 dx_pad) + 1)
         (fun i s =>
            let x := footprint_column cx_offsetted i in
            visit (to_int32 (y + x)) s)
         s)
    s.

Definition app_slam_private_clearVehicleRegion (gMap : dynamic_map_S)
    : option dynamic_map_S :=
  mdata ← footprint_loop (map_center_pixel gMap)
             (fun idx m => store m idx GRID_CELL_VISITED) (data gMap);
  Some {| data := mdata;
          map_center_pixel := map_center_pixel gMap;
          map_offset_mm := map_offset_mm gMap |}.

(** The indices the footprint loop stores to, in the order of the stores. *)
Definition footprint_indices (mc_pixel : math_cart_coord_int32_S) : list Z :=
  match footprint_loop mc_pixel (fun idx acc => Some (idx :: acc)) [] with
  | Some acc => rev acc
  | None => []
  end.

(** ** Drift accumulation and the map update (lines 67-68 and 266-301) *)

(** [GMAP_MM_TO_UNIT_PIXEL(x_mm)]: a [float] division by the step converted
    to [float], then the cast to [int32_t]. *)
Definition GMAP_MM_TO_UNIT_PIXEL (x_mm : float32) : option Z :=
  F32.to_int32 (F32.div x_mm (F32.of_Z GMAP_UNIT_GRID_STEP_SIZE_MM)).

(** [GMAP_UNIT_PIXEL_TO_MM(x_pixel)]. *)
Definition GMAP_UNIT_PIXEL_TO_MM (x_pixel : Z) : float32 :=
  F32.mul (F32.of_Z x_pixel) (F32.of_Z GMAP_UNIT_GRID_STEP_SIZE_MM).

(** One axis of lines 275-287: the displacement of the tick plus the stored
    leftover, its whole pixels, and the new leftover. *)
Definition drift_axis (mock_mm offset_mm : float32) : option (Z * float32) :=
  let d_mm := F32.add mock_mm offset_mm in
  d_pixel ← GMAP_MM_TO_UNIT_PIXEL d_mm;
  Some (d_pixel, F32.sub d_mm (GMAP_UNIT_PIXEL_TO_MM d_pixel)).

(** The body of [app_slam_private_globalMapUpdate] for a displacement
    [(mock_dx_mm, mock_dy_mm)] of the tick. *)
Definition globalMapUpdate_with (mock_dx_mm mock_dy_mm : float32)
    (gMap : dynamic_map_S) : option dynamic_map_S :=
  let dx_mm := F32.add mock_dx_mm (x (map_offset_mm gMap)) in
  let dy_mm := F32.add mock_dy_mm (y (map_offset_mm gMap)) in
  dx_pixel ← GMAP_MM_TO_UNIT_PIXEL dx_mm;
  dy_pixel ← GMAP_MM_TO_UNIT_PIXEL dy_mm;
  gMap1 ← app_slam_private_translateGlobalMap dx_pixel dy_pixel gMap;
  let dx_mm := F32.sub dx_mm (GMAP_UNIT_PIXEL_TO_MM dx_pixel) in
  let dy_mm := F32.sub dy_mm (GMAP_UNIT_PIXEL_TO_MM dy_pixel) in
  app_slam_private_clearVehicleRegion
    {| data := data gMap1;
       map_center_pixel := map_center_pixel gMap1;
       map_offset_mm := {| x := dx_mm; y := dy_mm |} |}.

(** The source's displacement is the constant [-10.0f] on both axes. *)
Definition mock_mm : float32 := Eval vm_compute in F32.of_Z (- 10).

Definition app_slam_private_globalMapUpdate (gMap : dynamic_map_S)
    : option dynamic_map_S :=
  globalMapUpdate_with mock_mm mock_mm gMap.

(** ** Map print-out (lines 318-359) *)

(** A run of [PRINTF("%d,", v)] for the counter values [lo .. hi - 1]: the
    values printed, in order. A read outside the array is undefined. *)
Definition print_range {A : Type} (lo hi : Z) (value : Z -> option A)
    : option (list A) :=
  for_range lo hi (fun i printed => v ← value i; Some (printed ++ [v])) [].

(** [app_slam_private_debugPrintMap(central, count)]: the number of the
    header line and the lines printed, each the cells of one row followed
    by the closing [PRINTF("%d\n", 0)]. *)
Definition app_slam_private_debugPrintMap (central : bool) (count : Z)
    (gMap : dynamic_map_S) : option (Z * list (list Z)) :=
  let cx := to_int32 (to_uint32 (to_uint32 (x (map_center_pixel gMap))
                                 - GMAP_DEFAULT_CENTRAL_X_INDEX_PIXEL)) in
  let cy := to_int32 (to_uint32 (to_uint32 (y (map_center_pixel gMap))
                                 - GMAP_DEFAULT_CENTRAL_Y_INDEX_PIXEL)) in
  let mdata := data gMap in
  if central then
    lines ← print_range 0 GMAP_WN_PIXEL
      (fun j =>
         let y := to_int32 (cy + j) in
         let y := to_int32 (y + map_offset_of y GMAP_HN_PIXEL) in
         let y := to_int32 (to_uint32 (to_uint32 y * GMAP_WN_PIXEL)) in
         cells ← print_range 0 GMAP_HN_PIXEL
           (fun i =>
              let x := to_int32 (cx + i) in
              let x := to_int32 (x + map_offset_of x GMAP_HN_PIXEL) in
              load mdata (to_int32 (y + x)));
         Some (cells ++ [0]));
    Some (count, lines)
  else
    lines ← print_range 0 GMAP_WN_PIXEL
      (fun j =>
         let y := to_int32 j in
         let y := to_int32 (to_uint32 (to_uint32 y * GMAP_WN_PIXEL)) in
         cells ← print_range 0 GMAP_HN_PIXEL
           (fun i =>
              let x := to_int32 i in
              load mdata (to_int32 (y + x)));
         Some (cells ++ [0]));
    Some (count, lines).

(** ** The periodic task (lines 95-100, 127-151 and 372-389)

    [dev_tof_lidar_sensor_data_S] and [dev_ToF_Lidar_dampDataBuffer] belong
    to the lidar driver, and [DEBUG_FPRINT_FEATURE_MAP] and
    [DEBUG_FPRINT_FEATURE_MAP_CENTERED] to the build configuration: they are
    parameters here, the driver by what it makes of the data it is handed. *)

(** [app_slam_data_S], over the type [L] of the lidar data. *)
Record app_slam_data_S (L : Type) : Type := {
  lidar_data : L;
  gMap : dynamic_map_S
}.
Arguments Build_app_slam_data_S {L} _ _.
Arguments lidar_data {L} _.
Arguments gMap {L} _.

(** The static data of the module: [slam_data] and the [count] of
    [app_slam_run100ms]. *)
Record app_slam_state (L : Type) : Type := {
  slam_data : app_slam_data_S L;
  count : Z
}.
Arguments Build_app_slam_state {L} _ _.
Arguments slam_data {L} _.
Arguments count {L} _.

(** [app_slam_private_localMapUpdate]: the driver fills [lidar_data]; the
    rest is still to be written. *)
Definition app_slam_private_localMapUpdate {L : Type}
    (dev_ToF_Lidar_dampDataBuffer : L -> L) (d : app_slam_data_S L)
    : app_slam_data_S L :=
  {| lidar_data := dev_ToF_Lidar_dampDataBuffer (lidar_data d);
     gMap := gMap d |}.

(** [app_slam_run100ms]: the stages in order, of which localization,
    obstacle detection, path planning and motion planning are empty; then,
    in a debug build, every tenth call prints the map. The result is the
    new state and what was printed. [count ++] is written with the
    conversion to [int32_t], as the other integers of the file are; the
    statements below stay under 2^31 calls. *)
Definition app_slam_run100ms {L : Type}
    (dev_ToF_Lidar_dampDataBuffer : L -> L)
    (DEBUG_FPRINT_FEATURE_MAP DEBUG_FPRINT_FEATURE_MAP_CENTERED : bool)
    (st : app_slam_state L)
    : option (app_slam_state L * option (Z * list (list Z))) :=
  let d := app_slam_private_localMapUpdate dev_ToF_Lidar_dampDataBuffer
             (slam_data st) in
  g ← app_slam_private_globalMapUpdate (gMap d);
  let d := {| lidar_data := lidar_data d; gMap := g |} in
  if DEBUG_FPRINT_FEATURE_MAP then
    let count := to_int32 (count st + 1) in
    if Z.rem count 10 =? 0 then
      printed ← app_slam_private_debugPrintMap
                  DEBUG_FPRINT_FEATURE_MAP_CENTERED count g;
      Some ({| slam_data := d; count := count |}, Some printed)
    else Some ({| slam_data := d; count := count |}, None)
  else Some ({| slam_data := d; count := count st |}, None).

(** [n] calls of [app_slam_run100ms], with everything printed, latest
    first. *)
Fixpoint run_ticks {L : Type} (dev_ToF_Lidar_dampDataBuffer : L -> L)
    (DEBUG_FPRINT_FEATURE_MAP DEBUG_FPRINT_FEATURE_MAP_CENTERED : bool)
    (n : nat) (st : app_slam_state L)
    : option (app_slam_state L * list (Z * list (list Z))) :=
  match n with
  | O => Some (st, [])
  | Datatypes.S n' =>
      '(st1, printed) ← run_ticks dev_ToF_Lidar_dampDataBuffer
                          DEBUG_FPRINT_FEATURE_MAP
                          DEBUG_FPRINT_FEATURE_MAP_CENTERED n' st;
      '(st2, p) ← app_slam_run100ms dev_ToF_Lidar_dampDataBuffer
                    DEBUG_FPRINT_FEATURE_MAP
                    DEBUG_FPRINT_FEATURE_MAP_CENTERED st1;
      Some (st2, match p with Some o => o :: printed | None => printed end)
  end.

(** The static data after start-up and [app_slam_init]: the map reset, the
    lidar data zeroed by the [memset] ([lidar_zero]), and the call counter
    at its initial 0. *)
Definition app_slam_init_state {L : Type} (lidar_zero : L) : app_slam_state L :=
  {| slam_data := {| lidar_data := lidar_zero; gMap := app_slam_init |};
     count := 0 |}.

(** ** Collision switch ([AVR_SENSOR/lib/collision/collision.c], lines 32-35)

    [collision_private_gpio_config]: [DDRB &= ~(1 << PINB4)] on the 8-bit
    data direction register of port B. The bit number [PINB4] comes from
    the AVR headers and is a parameter. *)
Definition collision_private_gpio_config (PINB4 : Z) (DDRB : Z) : Z :=
  to_uint8 (Z.land DDRB (Z.lnot (Z.shiftl 1 PINB4))).

(** ** Vocabulary of the specifications

    The predicates and auxiliary functions the statements below are
    written with. *)

(** [stores_to W v m m']: [m'] is [m] with the value [v] stored at exactly
    the indices in [W]. *)
Definition stores_to (W : Z -> Prop) (v : Z) (m m' : list Z) : Prop :=
  length m' = length m
  /\ forall k, (W k /\ load m' k = Some v) \/ (~ W k /\ load m' k = load m k).

(** The array length the type [dynamic_map_S] fixes. *)
Definition wf_map (gMap : dynamic_map_S) : Prop :=
  Z.of_nat (length (data gMap)) = GMAP_CELLS.

(** The range the source documents for [map_center_pixel] (line 91). *)
Definition center_ok (mc_pixel : math_cart_coord_int32_S) : Prop :=
  0 <= x mc_pixel <= GMAP_GRID_EDGE_SIZE_PIXEL
  /\ 0 <= y mc_pixel <= GMAP_GRID_EDGE_SIZE_PIXEL.

(** The cell of [data] in column [col] of row [row]. *)
Definition cell (gMap : dynamic_map_S) (col row : Z) : option Z :=
  load (data gMap) (row * GMAP_WN_PIXEL + col).

(** The coordinates [start .. end - 1] of a band, wrapped. *)
Definition in_band (start end_ c : Z) : Prop :=
  exists i, start <= i < end_ /\ wrap i GMAP_WN_PIXEL = c.

(** The wrapped coordinates of the band cleared for a shift [d] when the
    window's first coordinate is [c00] (lines 180-189). *)
Definition cleared (c00 d c : Z) : Prop :=
  in_band (if 0 <=? d then c00 else c00 + d)
          (if 0 <=? d then c00 + d else c00) c.

(** The band of a shift [d] from centre coordinate [c] stays within the
    reach of a single wrap. *)
Definition band_in_reach (c d : Z) : Prop :=
  - GMAP_WN_PIXEL <= c - GMAP_DEFAULT_CENTRAL_X_INDEX_PIXEL + d
                  <= 2 * GMAP_WN_PIXEL.

(** The cell shown at column [i] and row [j] of the window centred on the
    robot, with the addressing of the centred branch of
    [app_slam_private_debugPrintMap] (lines 322-338). *)
Definition window_cell (gMap : dynamic_map_S) (i j : Z) : option Z :=
  let cx := to_int32 (to_uint32 (to_uint32 (x (map_center_pixel gMap))
                                 - GMAP_DEFAULT_CENTRAL_X_INDEX_PIXEL)) in
  let cy := to_int32 (to_uint32 (to_uint32 (y (map_center_pixel gMap))
                                 - GMAP_DEFAULT_CENTRAL_Y_INDEX_PIXEL)) in
  let y := to_int32 (cy + j) in
  let y := to_int32 (y + map_offset_of y GMAP_HN_PIXEL) in
  let y := to_int32 (to_uint32 (to_uint32 y * GMAP_WN_PIXEL)) in
  let x := to_int32 (cx + i) in
  let x := to_int32 (x + map_offset_of x GMAP_HN_PIXEL) in
  load (data gMap) (to_int32 (y + x)).

(** [lo; lo + 1; ...] of length [n]: the values a loop counter takes. *)
Fixpoint counter_values (n : nat) (lo : Z) : list Z :=
  match n with
  | O => []
  | Datatypes.S n' => lo :: counter_values n' (lo + 1)
  end.

(** The action [visit] at each index of a list, in order. *)
Fixpoint visit_all {S : Type} (visit : Z -> S -> option S) (l : list Z) (s : S)
    : option S :=
  match l with
  | [] => Some s
  | k :: l' => s' ← visit k s; visit_all visit l' s'
  end.

(** The footprint, row by row. *)
Definition footprint_list (mc_pixel : math_cart_coord_int32_S) : list Z :=
  let cx_offsetted :=
    to_int32 (to_uint32 (to_uint32 (x mc_pixel) - ROBOT_SIZE_R_PIXEL)) in
  let cy_offsetted :=
    to_int32 (to_uint32 (to_uint32 (y mc_pixel) - ROBOT_SIZE_R_PIXEL)) in
  flat_map
    (fun j =>
       let dx_pad := nth (Z.to_nat j) PADDING 0 in
       flat_map
         (fun i => [to_int32 (footprint_row cy_offsetted j
                              + footprint_column cx_offsetted i)])
         (counter_values
            (Z.to_nat (to_uint32 (ROBOT_SIZE_D_PIXEL - to_uint32 dx_pad) + 1 - dx_pad))
            dx_pad))
    (counter_values (Z.to_nat (ROBOT_SIZE_D_PIXEL + 1 - 0)) 0).

(** The padding of row [j]. *)
Definition padding (j : Z) : Z := nth (Z.to_nat j) PADDING 0.

(** The footprint around a centre stays within the reach of a single
    wrap. Every centre within the map qualifies. *)
Definition footprint_in_reach (mc_pixel : math_cart_coord_int32_S) : Prop :=
  - 96 <= x mc_pixel <= 196 /\ - 96 <= y mc_pixel <= 196.

(** The [data] index of the cell [a] columns and [b] rows away from the
    centre, on the torus. *)
Definition index_from_center (mc_pixel : math_cart_coord_int32_S) (a b : Z) : Z :=
  wrap (y mc_pixel + b) GMAP_HN_PIXEL * GMAP_WN_PIXEL
  + wrap (x mc_pixel + a) GMAP_WN_PIXEL.

(** The footprint as a mask on offsets from the centre. *)
Definition footprint_mask (a b : Z) : Prop :=
  - 5 <= b <= 5 /\ padding (b + 5) - 5 <= a <= 5 - padding (b + 5).

(** A property of the cell array that a store of [v] keeps. *)
Definition store_stable (P : list Z -> Prop) (v : Z) : Prop :=
  forall m idx m', P m -> store m idx v = Some m' -> P m'.

(** The pixel shifts a map update derives from the displacement of the
    tick (lines 275-279). *)
Definition update_shift (mock_dx_mm mock_dy_mm : float32) (gMap : dynamic_map_S)
    : option (Z * Z) :=
  dx_pixel ← GMAP_MM_TO_UNIT_PIXEL (F32.add mock_dx_mm (x (map_offset_mm gMap)));
  dy_pixel ← GMAP_MM_TO_UNIT_PIXEL (F32.add mock_dy_mm (y (map_offset_mm gMap)));
  Some (dx_pixel, dy_pixel).

(** The states the core produces from the initial one. [ok] is the
    condition the caller guarantees for the pixel shifts. *)
Inductive reachable (ok : Z -> Z -> Prop) : dynamic_map_S -> Prop :=
| reachable_init :
    reachable ok app_slam_init
| reachable_reset gMap :
    reachable ok gMap ->
    reachable ok (app_slam_private_resetGlobalMap gMap)
| reachable_translate gMap dx dy gMap' :
    reachable ok gMap -> ok dx dy ->
    app_slam_private_translateGlobalMap dx dy gMap = Some gMap' ->
    reachable ok gMap'
| reachable_clear gMap gMap' :
    reachable ok gMap ->
    app_slam_private_clearVehicleRegion gMap = Some gMap' ->
    reachable ok gMap'
| reachable_update gMap mock_dx_mm mock_dy_mm dx dy gMap' :
    reachable ok gMap ->
    update_shift mock_dx_mm mock_dy_mm gMap = Some (dx, dy) -> ok dx dy ->
    globalMapUpdate_with mock_dx_mm mock_dy_mm gMap = Some gMap' ->
    reachable ok gMap'.

(** The assumption of the source on the shifts (line 163):
    [dx, dy] in [[-EDGE, EDGE]]. *)
Definition within_edge (dx dy : Z) : Prop :=
  - GMAP_GRID_EDGE_SIZE_PIXEL <= dx <= GMAP_GRID_EDGE_SIZE_PIXEL
  /\ - GMAP_GRID_EDGE_SIZE_PIXEL <= dy <= GMAP_GRID_EDGE_SIZE_PIXEL.

(** No condition on the shifts. *)
Definition any_shift (dx dy : Z) : Prop := True.

(** The values the core stores. *)
Definition core_value (v : Z) : Prop :=
  v = GRID_CELL_NEUTRAL \/ v = GRID_CELL_VISITED.

(** The ticks of one axis: each request is combined with the leftover of
    the tick before; the result is the list of pixel shifts and the last
    leftover. *)
Fixpoint drift_run (requests : list float32) (offset_mm : float32)
    : option (list Z * float32) :=
  match requests with
  | [] => Some ([], offset_mm)
  | r :: rs =>
      '(d_pixel, offset_mm') ← drift_axis r offset_mm;
      '(ds, offset_end) ← drift_run rs offset_mm';
      Some (d_pixel :: ds, offset_end)
  end.

(** Sums of pixel shifts and of millimetres. *)
Definition sum_Z (l : list Z) : Z := fold_right Z.add 0 l.
Definition sum_Q (l : list Q) : Q := fold_right Qplus 0%Q l.

(** No millimetre lost or gained: the shifts times the step plus the last
    leftover equal the requests plus the first leftover, as rationals. *)
Definition conserved (requests : list float32) (offset_start : float32)
    (shifts : list Z) (offset_end : float32) : Prop :=
  (inject_Z (sum_Z shifts * GMAP_UNIT_GRID_STEP_SIZE_MM) + F32.to_Q offset_end
   == sum_Q (map F32.to_Q requests) + F32.to_Q offset_start)%Q.

(** Exhaustive checks over a range of integers. *)
Fixpoint all_in_range (n : nat) (lo : Z) (p : Z -> bool) : bool :=
  match n with
  | O => true
  | Datatypes.S n' => p lo && all_in_range n' (lo + 1) p
  end.

(** Equality of two [float] values, as a boolean. *)
Definition sf_eqb (a b : float32) : bool :=
  match a, b with
  | S754_zero s1, S754_zero s2 => Bool.eqb s1 s2
  | S754_infinity s1, S754_infinity s2 => Bool.eqb s1 s2
  | S754_nan, S754_nan => true
  | S754_finite s1 m1 e1, S754_finite s2 m2 e2 =>
      Bool.eqb s1 s2 && Pos.eqb m1 m2 && Z.eqb e1 e2
  | _, _ => false
  end.

(** One tick on whole millimetres: a request [r] of at most one map edge
    and a leftover [l] below one step. *)
Definition drift_axis_whole_check (r l : Z) : bool :=
  match drift_axis (F32.of_Z r) (F32.of_Z l) with
  | Some (d_pixel, offset_mm) =>
      (d_pixel =? (r + l) ÷ 10) && sf_eqb offset_mm (F32.of_Z (Z.rem (r + l) 10))
  | None => false
  end.

(** What the firmware's ticks maintain: a well-formed map, a centre within
    the map and a zero leftover. *)
Definition tick_invariant (gMap : dynamic_map_S) : Prop :=
  wf_map gMap /\ center_ok (map_center_pixel gMap)
  /\ map_offset_mm gMap = {| x := S754_zero false; y := S754_zero false |}.

(** Two shifts in the same direction along an axis. *)
Definition same_direction (d1 d2 : Z) : Prop :=
  (0 <= d1 /\ 0 <= d2) \/ (d1 <= 0 /\ d2 <= 0).

(** *** Binary32 values

    The statements on the drift are about finite binary32 numbers, their
    rational values ([F32.to_Q]) and the integral part of a quotient. *)

(** A finite binary32 number in its canonical representation, as every
    [float] of the program is. *)
Definition is_binary32 (f : float32) : bool :=
  valid_binary F32.prec F32.emax f
  && match f with
     | S754_infinity _ | S754_nan => false
     | _ => true
     end.

(** The integral part of a rational, toward zero. *)
Definition Q_truncate (q : Q) : Z := Qnum q ÷ Zpos (Qden q).


(** *** The rounding step of [SpecFloat], in integers

    Auxiliary definitions of the proofs: the value of a number as an
    integer count of the smallest step, and the result of
    [binary_round_aux] written with quotients and remainders instead of
    bit-by-bit shifts (lemma [binary_round_aux_rec] shows they agree). *)

(** The value of a binary32 number in units of 2^-149, the smallest step
    of the format: an integer. *)
Definition units (f : float32) : Z :=
  match f with
  | S754_finite s m e => cond_Zopp s (Zpos m * 2 ^ (e + 149))
  | _ => 0
  end.

(** A number of units of 2^-149 as a rational. *)
Definition of_units (z : Z) : Q := (inject_Z z * Qpower 2 (- 149))%Q.


(** The shift record that stands for the quotient [N / D]: its integral
    part, and the position of the remainder with respect to one half. *)
Definition rec_of (N D : Z) : shr_record :=
  {| shr_m := N / D;
     shr_r := D <=? 2 * (N mod D);
     shr_s := negb (N mod D =? 0) && negb (2 * (N mod D) =? D) |}.

(** Rounding of [N / D] to the nearest integer, ties to even. *)
Definition rne (N D : Z) : Z :=
  let m := N / D in
  let r := N mod D in
  if 2 * r <? D then m
  else if 2 * r =? D then (if Z.even m then m else m + 1)
  else m + 1.

(** [binary_round_aux] on the quotient [N / D] at exponent [ex]: a first
    shift to the exponent the format gives the value, the rounding to
    nearest even, and a second shift for a mantissa that the rounding made
    one digit longer. *)
Definition round_spec (sx : bool) (N D ex : Z) : spec_float :=
  let n1 := Z.max 0 (fexp F32.prec F32.emax (Zdigits2 (N / D) + ex) - ex) in
  let e1 := ex + n1 in
  let mr := rne N (D * 2 ^ n1) in
  let n2 := Z.max 0 (fexp F32.prec F32.emax (Zdigits2 mr + e1) - e1) in
  match mr / 2 ^ n2 with
  | Z0 => S754_zero sx
  | Zpos m =>
      if e1 + n2 <=? F32.emax - F32.prec then S754_finite sx m (e1 + n2)
      else S754_infinity sx
  | Zneg _ => S754_nan
  end.

(** The exponent the division by the grid step starts from, for the
    dividend of mantissa [mx] and exponent [ex]. *)
Definition div_exp (mx : positive) (ex : Z) : Z :=
  Z.max (Zdigits2 (Zpos mx) + ex - 28) (- 149).

(** ** Facts about the machine integers *)

Lemma to_int32_small z : - 2 ^ 31 <= z < 2 ^ 31 -> to_int32 z = z.
Proof.
  intros Hz. unfold to_int32.
  rewrite Z.mod_small by lia. lia.
Qed.

Lemma to_uint32_small z : 0 <= z < 2 ^ 32 -> to_uint32 z = z.
Proof. intros Hz. unfold to_uint32. now rewrite Z.mod_small. Qed.

Lemma to_int32_congr a b k : a = b + k * 2 ^ 32 -> to_int32 a = to_int32 b.
Proof.
  intros ->. unfold to_int32.
  replace (b + k * 2 ^ 32 + 2 ^ 31) with (b + 2 ^ 31 + k * 2 ^ 32) by lia.
  now rewrite Z_mod_plus_full.
Qed.

Lemma to_uint32_eq z : to_uint32 z = z + (- (z / 2 ^ 32)) * 2 ^ 32.
Proof. unfold to_uint32. rewrite Z.mod_eq by lia. lia. Qed.

Lemma to_int32_to_uint32 z : to_int32 (to_uint32 z) = to_int32 z.
Proof. eapply to_int32_congr, to_uint32_eq. Qed.

(** Arithmetic carried out in [uint32_t] on operands converted from
    [int32_t] and converted back agrees with the signed result. *)
Lemma to_int32_uint32_add a b :
  to_int32 (to_uint32 (to_uint32 a + to_uint32 b)) = to_int32 (a + b).
Proof.
  rewrite to_int32_to_uint32, (to_uint32_eq a), (to_uint32_eq b).
  apply to_int32_congr with (k := - (a / 2 ^ 32) - b / 2 ^ 32). lia.
Qed.

Lemma to_int32_uint32_sub a b :
  to_int32 (to_uint32 (to_uint32 a - to_uint32 b)) = to_int32 (a - b).
Proof.
  rewrite to_int32_to_uint32, (to_uint32_eq a), (to_uint32_eq b).
  apply to_int32_congr with (k := - (a / 2 ^ 32) + b / 2 ^ 32). lia.
Qed.

Lemma to_int32_uint32_mul a b :
  to_int32 (to_uint32 (to_uint32 a * to_uint32 b)) = to_int32 (a * b).
Proof.
  rewrite to_int32_to_uint32, (to_uint32_eq a), (to_uint32_eq b).
  apply to_int32_congr
    with (k := - (a / 2 ^ 32) * b - a * (b / 2 ^ 32)
               + (a / 2 ^ 32) * (b / 2 ^ 32) * 2 ^ 32).
  ring.
Qed.

(** ** Reasoning about loops and stores *)

Section Loops.
Context {S : Type}.
Implicit Types (body : Z -> S -> option S) (s : S).

(** Total correctness: an invariant every iteration re-establishes is
    carried to the end, and the loop completes. *)
Lemma for_loop_inv (I : Z -> S -> Prop) n lo body s :
  I lo s ->
  (forall i s1, lo <= i < lo + Z.of_nat n -> I i s1 ->
     exists s2, body i s1 = Some s2 /\ I (i + 1) s2) ->
  exists s', for_loop n lo body s = Some s' /\ I (lo + Z.of_nat n) s'.
Proof.
  revert lo s. induction n as [| n IH]; intros lo s Hs Hbody.
  - exists s. split; [reflexivity |]. now replace (lo + Z.of_nat 0) with lo by lia.
  - destruct (Hbody lo s) as (s1 & Hb & Hs1); [lia | assumption |].
    destruct (IH (lo + 1) s1) as (s' & Hl & Hs'); [assumption | |].
    + intros i s2 Hi. apply Hbody. lia.
    + exists s'. split.
      * cbn [for_loop]. rewrite Hb. exact Hl.
      * now replace (lo + Z.of_nat (Datatypes.S n)) with (lo + 1 + Z.of_nat n) by lia.
Qed.

Lemma for_range_inv (I : Z -> S -> Prop) lo hi body s :
  lo <= hi ->
  I lo s ->
  (forall i s1, lo <= i < hi -> I i s1 ->
     exists s2, body i s1 = Some s2 /\ I (i + 1) s2) ->
  exists s', for_range lo hi body s = Some s' /\ I hi s'.
Proof.
  intros Hle Hs Hbody. unfold for_range.
  destruct (for_loop_inv I (Z.to_nat (hi - lo)) lo body s) as (s' & Hl & Hs').
  - assumption.
  - intros i s1 Hi. apply Hbody. lia.
  - exists s'. split; [assumption |].
    replace (lo + Z.of_nat (Z.to_nat (hi - lo))) with hi in Hs' by lia.
    exact Hs'.
Qed.

(** Partial correctness: a property every iteration preserves holds of
    whatever state the loop ends in. *)
Lemma for_loop_preserves (P : S -> Prop) n lo body s s' :
  (forall i s1 s2, P s1 -> body i s1 = Some s2 -> P s2) ->
  P s -> for_loop n lo body s = Some s' -> P s'.
Proof.
  intros Hbody. revert lo s. induction n as [| n IH]; intros lo s Hs Hl.
  - cbn in Hl. congruence.
  - cbn [for_loop] in Hl.
    destruct (body lo s) as [s1 |] eqn:Hb; [| discriminate].
    cbn in Hl. eapply IH; [| exact Hl]. eauto.
Qed.

Lemma for_range_preserves (P : S -> Prop) lo hi body s s' :
  (forall i s1 s2, P s1 -> body i s1 = Some s2 -> P s2) ->
  P s -> for_range lo hi body s = Some s' -> P s'.
Proof. apply for_loop_preserves. Qed.

(** A loop whose first iteration is undefined is undefined. *)
Lemma for_range_first_undefined lo hi body s :
  lo < hi -> body lo s = None -> for_range lo hi body s = None.
Proof.
  intros Hlt Hb. unfold for_range.
  destruct (Z.to_nat (hi - lo)) as [| n] eqn:Hn; [lia |].
  cbn [for_loop]. now rewrite Hb.
Qed.

End Loops.

Lemma store_Some m idx v :
  0 <= idx < Z.of_nat (length m) ->
  store m idx v = Some (<[Z.to_nat idx := v]> m).
Proof.
  intros Hidx. unfold store.
  destruct (Z.leb_spec 0 idx); [| lia].
  destruct (lookup_lt_is_Some_2 m (Z.to_nat idx)) as [w ->]; [lia | reflexivity].
Qed.

Lemma store_inv m idx v m' :
  store m idx v = Some m' ->
  0 <= idx < Z.of_nat (length m) /\ m' = <[Z.to_nat idx := v]> m.
Proof.
  unfold store. destruct (Z.leb_spec 0 idx); [| discriminate].
  destruct (m !! Z.to_nat idx) as [w |] eqn:Hw; [| discriminate].
  intros [= <-]. apply lookup_lt_Some in Hw. split; [lia | reflexivity].
Qed.

Lemma store_None m idx v :
  idx < 0 \/ Z.of_nat (length m) <= idx -> store m idx v = None.
Proof.
  intros Hidx. unfold store.
  destruct (Z.leb_spec 0 idx); [| reflexivity].
  rewrite lookup_ge_None_2 by lia. reflexivity.
Qed.

Lemma load_store_eq m idx v :
  0 <= idx < Z.of_nat (length m) ->
  load (<[Z.to_nat idx := v]> m) idx = Some v.
Proof.
  intros Hidx. unfold load.
  destruct (Z.leb_spec 0 idx); [| lia].
  apply list_lookup_insert_eq. lia.
Qed.

Lemma load_store_ne m idx v k :
  0 <= idx -> k <> idx ->
  load (<[Z.to_nat idx := v]> m) k = load m k.
Proof.
  intros Hidx Hne. unfold load.
  destruct (Z.leb_spec 0 k); [| reflexivity].
  apply list_lookup_insert_ne. lia.
Qed.

Lemma stores_to_refl v m : stores_to (fun _ => False) v m m.
Proof. split; [reflexivity |]. intros k. right. tauto. Qed.

Lemma stores_to_ext (W W' : Z -> Prop) v m m' :
  (forall k, W k <-> W' k) -> stores_to W v m m' -> stores_to W' v m m'.
Proof.
  intros Hext [Hlen Hk]. split; [assumption |].
  intros k. destruct (Hk k) as [[HW Hl] | [HW Hl]]; [left | right];
    (split; [| assumption]); rewrite <- Hext; assumption.
Qed.

Lemma stores_to_store (W : Z -> Prop) v m m1 idx :
  stores_to W v m m1 ->
  0 <= idx < Z.of_nat (length m) ->
  exists m2, store m1 idx v = Some m2
             /\ stores_to (fun k => W k \/ k = idx) v m m2.
Proof.
  intros [Hlen Hk] Hidx.
  exists (<[Z.to_nat idx := v]> m1). split.
  - apply store_Some. lia.
  - split; [now rewrite length_insert |].
    intros k. destruct (Z.eq_dec k idx) as [-> | Hne].
    + left. split; [now right |]. apply load_store_eq. lia.
    + rewrite load_store_ne by lia.
      destruct (Hk k) as [[HW Hl] | [HW Hl]]; [left | right];
        (split; [tauto | assumption]).
Qed.

Lemma stores_to_trans (W1 W2 : Z -> Prop) v m m1 m2 :
  stores_to W1 v m m1 -> stores_to W2 v m1 m2 ->
  stores_to (fun k => W1 k \/ W2 k) v m m2.
Proof.
  intros [Hlen1 Hk1] [Hlen2 Hk2]. split; [congruence |].
  intros k. destruct (Hk2 k) as [[HW2 Hl2] | [HW2 Hl2]].
  - left. tauto.
  - rewrite Hl2. destruct (Hk1 k) as [[HW1 Hl1] | [HW1 Hl1]];
      [left | right]; (split; [tauto | assumption]).
Qed.

Lemma stores_to_written (W : Z -> Prop) v m m' k :
  stores_to W v m m' -> W k -> load m' k = Some v.
Proof. intros [_ Hk] HW. destruct (Hk k) as [[_ H] | [H _]]; tauto. Qed.

Lemma stores_to_kept (W : Z -> Prop) v m m' k :
  stores_to W v m m' -> ~ W k -> load m' k = load m k.
Proof. intros [_ Hk] HW. destruct (Hk k) as [[H _] | [_ H]]; tauto. Qed.

(** A loop of store-only bodies stores to the union of what its
    iterations store to. *)
Lemma for_range_stores (W : Z -> Z -> Prop) v lo hi body m :
  lo <= hi ->
  (forall i m1, lo <= i < hi -> length m1 = length m ->
     exists m2, body i m1 = Some m2 /\ stores_to (W i) v m1 m2) ->
  exists m', for_range lo hi body m = Some m'
             /\ stores_to (fun k => exists i, lo <= i < hi /\ W i k) v m m'.
Proof.
  intros Hle Hbody.
  apply (for_range_inv
           (fun i m1 => stores_to (fun k => exists i', lo <= i' < i /\ W i' k) v m m1)).
  - assumption.
  - eapply stores_to_ext; [| apply stores_to_refl].
    intros k. split; [tauto |]. intros (i' & Hi' & _). lia.
  - intros i m1 Hi Hinv.
    destruct (Hbody i m1) as (m2 & Hb & Hst); [assumption | apply Hinv |].
    exists m2. split; [assumption |].
    eapply stores_to_ext; [| eapply stores_to_trans; eassumption].
    intros k. cbn. split.
    + intros [(i' & Hi' & HW) | HW]; [exists i' | exists i]; split; (lia || assumption).
    + intros (i' & Hi' & HW). destruct (Z.eq_dec i' i) as [-> | Hne].
      * now right.
      * left. exists i'. split; [lia | assumption].
Qed.

(** The single store as a loop body. *)
Lemma store_stores v m idx :
  0 <= idx < Z.of_nat (length m) ->
  exists m2, store m idx v = Some m2 /\ stores_to (fun k => k = idx) v m m2.
Proof.
  intros Hidx.
  destruct (stores_to_store (fun _ => False) v m m idx) as (m2 & Hs & Hst);
    [apply stores_to_refl | assumption |].
  exists m2. split; [assumption |].
  eapply stores_to_ext; [| exact Hst]. intros k. cbn. tauto.
Qed.

(** ** Properties of the wraparound *)

Lemma map_offset_of_cases c :
  - 2 ^ 31 <= c < 2 ^ 31 ->
  map_offset_of c 101 =
    if c <? 0 then 101 else if 100 <? c then - 101 else 0.
Proof.
  intros Hc. unfold map_offset_of, ARG_RANGE_INCLUSIVE.
  rewrite (to_int32_small c), !Z.geb_leb by lia.
  change (to_int32 0) with 0. change (to_int32 101) with 101.
  destruct (Z.ltb_spec c 0), (Z.ltb_spec 100 c),
    (Z.leb_spec 0 c), (Z.leb_spec 101 c); try lia; reflexivity.
Qed.

Lemma wrap_cases c :
  - 2 ^ 30 <= c < 2 ^ 30 ->
  wrap c 101 = if c <? 0 then c + 101 else if 100 <? c then c - 101 else c.
Proof.
  intros Hc. unfold wrap. rewrite map_offset_of_cases by lia.
  destruct (Z.ltb_spec c 0), (Z.ltb_spec 100 c);
    rewrite to_int32_small; lia.
Qed.

(** C1. For every coordinate [c] in [[-E, 2E]] ([E = 100]) the wrap idiom
    returns a coordinate in [[0, E]] congruent to [c] modulo [E + 1]; the
    value added is [+(E+1)] when [c < 0], [-(E+1)] when [c > E] and [0]
    otherwise, hence one of the three table entries. *)
Theorem wrap_correct (c : Z) :
  - GMAP_GRID_EDGE_SIZE_PIXEL <= c <= 2 * GMAP_GRID_EDGE_SIZE_PIXEL ->
  let off := map_offset_of c GMAP_WN_PIXEL in
  wrap c GMAP_WN_PIXEL = c + off
  /\ 0 <= wrap c GMAP_WN_PIXEL <= GMAP_GRID_EDGE_SIZE_PIXEL
  /\ wrap c GMAP_WN_PIXEL mod (GMAP_GRID_EDGE_SIZE_PIXEL + 1)
     = c mod (GMAP_GRID_EDGE_SIZE_PIXEL + 1)
  /\ (c < 0 -> off = GMAP_GRID_EDGE_SIZE_PIXEL + 1)
  /\ (GMAP_GRID_EDGE_SIZE_PIXEL < c -> off = - (GMAP_GRID_EDGE_SIZE_PIXEL + 1))
  /\ (0 <= c <= GMAP_GRID_EDGE_SIZE_PIXEL -> off = 0)
  /\ (off = GMAP_GRID_EDGE_SIZE_PIXEL + 1 \/ off = 0
      \/ off = - (GMAP_GRID_EDGE_SIZE_PIXEL + 1)).
Proof.
  change GMAP_GRID_EDGE_SIZE_PIXEL with 100.
  change GMAP_WN_PIXEL with 101.
  intros Hc off.
  assert (Hoff : off = if c <? 0 then 101 else if 100 <? c then - 101 else 0)
    by (apply map_offset_of_cases; lia).
  assert (Hw : wrap c 101 = c + off).
  { rewrite wrap_cases, Hoff by lia.
    destruct (c <? 0), (100 <? c); lia. }
  rewrite Hw, Hoff.
  destruct (Z.ltb_spec c 0) as [Hneg | Hnn].
  - repeat split; try lia.
    replace (c + 101) with (c + 1 * 101) by lia.
    apply Z_mod_plus_full.
  - destruct (Z.ltb_spec 100 c) as [Hhi | Hlo].
    + repeat split; try lia.
      replace (c + - 101) with (c + (- 1) * 101) by lia.
      apply Z_mod_plus_full.
    + repeat split; try lia. f_equal. lia.
Qed.

Lemma wrap_correct_witness :
  wrap (- 100) GMAP_WN_PIXEL = 1 /\ wrap 200 GMAP_WN_PIXEL = 99.
Proof.
  split.
  - destruct (wrap_correct (- 100)) as [H _]; [vm_compute; split; discriminate |].
    rewrite H. reflexivity.
  - destruct (wrap_correct 200) as [H _]; [vm_compute; split; discriminate |].
    rewrite H. reflexivity.
Defined.

Lemma wrap_range c : - 101 <= c <= 201 -> 0 <= wrap c 101 <= 100.
Proof.
  intros Hc. rewrite wrap_cases by lia.
  destruct (Z.ltb_spec c 0), (Z.ltb_spec 100 c); lia.
Qed.

(** ** The two passes of the translation *)

Lemma translate_clear_columns_spec start end_ m :
  Z.of_nat (length m) = 10201 ->
  start <= end_ -> - 101 <= start -> end_ <= 202 ->
  exists m', translate_clear_columns start end_ m = Some m'
    /\ stores_to (fun k => exists r c, 0 <= r < 101 /\ in_band start end_ c
                                       /\ k = 101 * r + c)
         GRID_CELL_NEUTRAL m m'.
Proof.
  intros Hlen Hle Hlo Hhi. unfold translate_clear_columns.
  match goal with
  | |- context [for_range ?a ?b ?body ?s] =>
      destruct (for_range_inv
        (fun j (st : list Z * Z) =>
           snd st = 101 * j
           /\ stores_to (fun k => exists r, 0 <= r < j
                           /\ exists i, start <= i < end_ /\ k = 101 * r + wrap i 101)
                GRID_CELL_NEUTRAL m (fst st))
        a b body s) as (st & Hrun & Hy & Hst)
  end.
  - change GMAP_HN_PIXEL with 101. lia.
  - split; [reflexivity |]. cbn [fst].
    eapply stores_to_ext; [| apply stores_to_refl].
    intros k. split; [tauto |]. intros (r & Hr & _). lia.
  - intros j [m0 y_index] Hj [Hy Hst]. cbn [fst snd] in Hy, Hst. subst y_index.
    change GMAP_HN_PIXEL with 101 in Hj.
    cbv beta iota zeta.
    match goal with
    | |- context [for_range ?a ?b ?body ?s] =>
        destruct (for_range_stores (fun i k => k = 101 * j + wrap i 101)
                    GRID_CELL_NEUTRAL a b body s) as (m1 & Hinner & Hst1)
    end.
    + assumption.
    + intros i m1 Hi Hlen1.
      change (to_int32 (i + map_offset_of i GMAP_WN_PIXEL)) with (wrap i 101).
      pose proof (wrap_range i ltac:(lia)) as Hw.
      rewrite to_int32_small by lia.
      apply store_stores. destruct Hst as [Hlen0 _]. lia.
    + rewrite Hinner. eexists. split; [reflexivity |].
      cbn [fst snd]. split.
      * change GMAP_WN_PIXEL with (to_uint32 101).
        rewrite to_int32_uint32_add, to_int32_small; lia.
      * eapply stores_to_ext; [| eapply stores_to_trans; eassumption].
        intros k. cbn. split.
        -- intros [(r & Hr & i & Hi & Hk) | (i & Hi & Hk)];
             [exists r | exists j]; (split; [lia |]); exists i; tauto.
        -- intros (r & Hr & i & Hi & Hk).
           destruct (Z.eq_dec r j) as [-> | Hne].
           ++ right. exists i. tauto.
           ++ left. exists r. split; [lia |]. exists i. tauto.
  - rewrite Hrun. exists (fst st). split; [reflexivity |].
    eapply stores_to_ext; [| exact Hst].
    intros k. unfold in_band. change GMAP_WN_PIXEL with 101.
    change GMAP_HN_PIXEL with 101. split.
    + intros (r & Hr & i & Hi & Hk). exists r, (wrap i 101).
      split; [lia |]. split; [| assumption]. exists i. tauto.
    + intros (r & c & Hr & (i & Hi & Hc) & Hk). exists r. split; [lia |].
      exists i. subst c. tauto.
Qed.

Lemma translate_clear_rows_spec start end_ m :
  Z.of_nat (length m) = 10201 ->
  start <= end_ -> - 101 <= start -> end_ <= 202 ->
  exists m', translate_clear_rows start end_ m = Some m'
    /\ stores_to (fun k => exists r c, in_band start end_ r /\ 0 <= c < 101
                                       /\ k = 101 * r + c)
         GRID_CELL_NEUTRAL m m'.
Proof.
  intros Hlen Hle Hlo Hhi. unfold translate_clear_rows.
  match goal with
  | |- context [for_range ?a ?b ?body ?s] =>
      destruct (for_range_stores
        (fun j k => exists c, 0 <= c < 101 /\ k = 101 * wrap j 101 + c)
        GRID_CELL_NEUTRAL a b body s) as (m' & Hrun & Hst)
  end.
  - assumption.
  - intros j m0 Hj Hlen0. cbv zeta.
    change (to_int32 (j + map_offset_of j GMAP_HN_PIXEL)) with (wrap j 101).
    pose proof (wrap_range j ltac:(lia)) as Hw.
    change (to_uint32 (wrap j 101) * GMAP_WN_PIXEL)
      with (to_uint32 (wrap j 101) * to_uint32 101).
    rewrite to_int32_uint32_mul, (to_int32_small (wrap j 101 * 101)) by lia.
    match goal with
    | |- context [for_range ?a ?b ?body ?s] =>
        destruct (for_range_stores (fun i k => k = wrap j 101 * 101 + i)
                    GRID_CELL_NEUTRAL a b body s) as (m1 & Hinner & Hst1)
    end.
    + change GMAP_WN_PIXEL with 101. lia.
    + intros i m1 Hi Hlen1. change GMAP_WN_PIXEL with 101 in Hi.
      rewrite to_int32_small by lia.
      apply store_stores. lia.
    + exists m1. split; [assumption |].
      eapply stores_to_ext; [| exact Hst1].
      intros k. cbn. change GMAP_WN_PIXEL with 101. split.
      * intros (i & Hi & Hk). exists i. split; lia.
      * intros (c & Hc & Hk). exists c. split; lia.
  - exists m'. split; [assumption |].
    eapply stores_to_ext; [| exact Hst].
    intros k. unfold in_band. change GMAP_WN_PIXEL with 101. split.
    + intros (j & Hj & c & Hc & Hk). exists (wrap j 101), c.
      split; [exists j; tauto | tauto].
    + intros (r & c & (j & Hj & Hr) & Hc & Hk). exists j. split; [assumption |].
      exists c. subst r. tauto.
Qed.

(** ** The translation as a whole *)

Lemma cleared_range c00 d c :
  - 50 <= c00 <= 50 -> - 101 <= c00 + d <= 202 ->
  cleared c00 d c -> 0 <= c <= 100.
Proof.
  intros Hc Hd (i & Hi & <-). change GMAP_WN_PIXEL with 101.
  apply wrap_range. destruct (Z.leb_spec 0 d); lia.
Qed.

Lemma cleared_zero c00 c : ~ cleared c00 0 c.
Proof. intros (i & Hi & _). cbn in Hi. lia. Qed.

Lemma clear_columns_pass c00 d m :
  Z.of_nat (length m) = 10201 ->
  - 50 <= c00 <= 50 -> - 101 <= c00 + d <= 202 ->
  exists m1,
    (if d =? 0 then Some m
     else translate_clear_columns (band_start c00 d) (band_end c00 d) m) = Some m1
    /\ stores_to (fun k => exists r c, 0 <= r < 101 /\ cleared c00 d c
                                       /\ k = 101 * r + c)
         GRID_CELL_NEUTRAL m m1.
Proof.
  intros Hlen Hc Hd. destruct (Z.eqb_spec d 0) as [-> | Hne].
  - exists m. split; [reflexivity |].
    eapply stores_to_ext; [| apply stores_to_refl].
    intros k. split; [tauto |]. intros (r & c & _ & Hcl & _).
    now apply cleared_zero in Hcl.
  - unfold band_start, band_end, cleared.
    rewrite (to_int32_small (c00 + d)) by lia.
    apply translate_clear_columns_spec; try assumption;
      destruct (Z.leb_spec 0 d); lia.
Qed.

Lemma clear_rows_pass c00 d m :
  Z.of_nat (length m) = 10201 ->
  - 50 <= c00 <= 50 -> - 101 <= c00 + d <= 202 ->
  exists m1,
    (if d =? 0 then Some m
     else translate_clear_rows (band_start c00 d) (band_end c00 d) m) = Some m1
    /\ stores_to (fun k => exists r c, cleared c00 d r /\ 0 <= c < 101
                                       /\ k = 101 * r + c)
         GRID_CELL_NEUTRAL m m1.
Proof.
  intros Hlen Hc Hd. destruct (Z.eqb_spec d 0) as [-> | Hne].
  - exists m. split; [reflexivity |].
    eapply stores_to_ext; [| apply stores_to_refl].
    intros k. split; [tauto |]. intros (r & c & Hcl & _).
    now apply cleared_zero in Hcl.
  - unfold band_start, band_end, cleared.
    rewrite (to_int32_small (c00 + d)) by lia.
    apply translate_clear_rows_spec; try assumption;
      destruct (Z.leb_spec 0 d); lia.
Qed.

(** Functional specification of the translation: when both bands are
    within reach the function completes, the centre moves by the shift and
    is wrapped once, the leftover is untouched, the cells of the cleared
    columns and rows are neutral and every other cell is as before. *)
Lemma translate_spec gMap dx dy :
  wf_map gMap -> center_ok (map_center_pixel gMap) ->
  band_in_reach (x (map_center_pixel gMap)) dx ->
  band_in_reach (y (map_center_pixel gMap)) dy ->
  exists gMap',
    app_slam_private_translateGlobalMap dx dy gMap = Some gMap'
    /\ wf_map gMap'
    /\ map_center_pixel gMap' =
         {| x := wrap (x (map_center_pixel gMap) + dx) GMAP_WN_PIXEL;
            y := wrap (y (map_center_pixel gMap) + dy) GMAP_HN_PIXEL |}
    /\ map_offset_mm gMap' = map_offset_mm gMap
    /\ forall col row, 0 <= col <= 100 -> 0 <= row <= 100 ->
         let cl_x := cleared (x (map_center_pixel gMap) - 50) dx col in
         let cl_y := cleared (y (map_center_pixel gMap) - 50) dy row in
         (cl_x \/ cl_y -> cell gMap' col row = Some GRID_CELL_NEUTRAL)
         /\ (~ cl_x -> ~ cl_y -> cell gMap' col row = cell gMap col row).
Proof.
  destruct gMap as [m [cx cy] off].
  unfold wf_map, center_ok, band_in_reach, cell. cbn [data map_center_pixel map_offset_mm x y].
  change GMAP_CELLS with 10201. change GMAP_GRID_EDGE_SIZE_PIXEL with 100.
  change GMAP_DEFAULT_CENTRAL_X_INDEX_PIXEL with 50.
  change GMAP_WN_PIXEL with 101. change GMAP_HN_PIXEL with 101.
  intros Hlen [Hcx Hcy] Hrx Hry.
  unfold app_slam_private_translateGlobalMap.
  cbn [data map_center_pixel map_offset_mm x y].
  change GMAP_DEFAULT_CENTRAL_X_INDEX_PIXEL with (to_uint32 50).
  change GMAP_DEFAULT_CENTRAL_Y_INDEX_PIXEL with (to_uint32 50).
  rewrite !to_int32_uint32_sub, (to_int32_small (cx - 50)), (to_int32_small (cy - 50)) by lia.
  cbv zeta.
  destruct (clear_columns_pass (cx - 50) dx m) as (m1 & -> & Hst1);
    [assumption | lia | lia |].
  assert (Hlen1 : Z.of_nat (length m1) = 10201) by (destruct Hst1; lia).
  cbn [mbind option_bind].
  destruct (clear_rows_pass (cy - 50) dy m1) as (m2 & -> & Hst2);
    [assumption | lia | lia |].
  assert (Hlen2 : Z.of_nat (length m2) = 10201) by (destruct Hst2; lia).
  cbn [mbind option_bind].
  eexists. split; [reflexivity |].
  cbn [data map_center_pixel map_offset_mm x y].
  split; [assumption |]. split.
  { rewrite (to_int32_small (cx + dx)), (to_int32_small (cy + dy)) by lia.
    reflexivity. }
  split; [reflexivity |].
  intros col row Hcol Hrow.
  pose proof (stores_to_trans _ _ _ _ _ _ Hst1 Hst2) as Hst. cbn beta in Hst.
  replace (row * 101 + col) with (101 * row + col) by lia.
  split.
  - intros Hcl. eapply stores_to_written; [exact Hst |]. cbn beta.
    destruct Hcl as [Hcl | Hcl]; [left | right]; exists row, col;
      (split; [first [lia | exact Hcl] |]); (split; [first [lia | exact Hcl] | lia]).
  - intros Hnx Hny. eapply stores_to_kept; [exact Hst |]. cbn beta.
    intros [(r & c & Hr & Hcl & Hk) | (r & c & Hcl & Hc & Hk)].
    + pose proof (cleared_range (cx - 50) dx c ltac:(lia) ltac:(lia) Hcl) as Hcr.
      assert (c = col) by lia. subst c. exact (Hnx Hcl).
    + pose proof (cleared_range (cy - 50) dy r ltac:(lia) ltac:(lia) Hcl) as Hcr.
      assert (r = row) by lia. subst r. exact (Hny Hcl).
Qed.

(** C3. With the zero shift both band passes are skipped and the wrap of
    an in-range centre adds 0: the map, cell for cell, and both components
    of the centre are unchanged. *)
Theorem translate_zero_shift (gMap : dynamic_map_S) :
  center_ok (map_center_pixel gMap) ->
  app_slam_private_translateGlobalMap 0 0 gMap = Some gMap.
Proof.
  destruct gMap as [m [cx cy] off]. unfold center_ok.
  cbn [map_center_pixel x y]. change GMAP_GRID_EDGE_SIZE_PIXEL with 100.
  intros [Hcx Hcy].
  unfold app_slam_private_translateGlobalMap.
  cbn [data map_center_pixel map_offset_mm x y Z.eqb mbind option_bind].
  cbv zeta. rewrite !Z.add_0_r.
  rewrite (to_int32_small cx), (to_int32_small cy) by lia.
  change (to_int32 (cx + map_offset_of cx GMAP_WN_PIXEL)) with (wrap cx 101).
  change (to_int32 (cy + map_offset_of cy GMAP_HN_PIXEL)) with (wrap cy 101).
  rewrite !wrap_cases by lia.
  destruct (Z.ltb_spec cx 0), (Z.ltb_spec 100 cx),
    (Z.ltb_spec cy 0), (Z.ltb_spec 100 cy); try lia.
  reflexivity.
Qed.

Lemma translate_zero_shift_witness :
  app_slam_private_translateGlobalMap 0 0 app_slam_init = Some app_slam_init.
Proof.
  apply (translate_zero_shift app_slam_init).
  vm_compute. repeat split; discriminate.
Defined.

(** ** The map window *)

Lemma window_cell_cell gMap i j :
  center_ok (map_center_pixel gMap) ->
  0 <= i <= 100 -> 0 <= j <= 100 ->
  window_cell gMap i j =
    cell gMap (wrap (x (map_center_pixel gMap) - 50 + i) 101)
              (wrap (y (map_center_pixel gMap) - 50 + j) 101).
Proof.
  destruct gMap as [m [cx cy] off]. unfold center_ok, window_cell, cell.
  cbn [data map_center_pixel x y]. change GMAP_GRID_EDGE_SIZE_PIXEL with 100.
  intros [Hcx Hcy] Hi Hj. cbv zeta.
  change GMAP_DEFAULT_CENTRAL_X_INDEX_PIXEL with (to_uint32 50).
  change GMAP_DEFAULT_CENTRAL_Y_INDEX_PIXEL with (to_uint32 50).
  rewrite !to_int32_uint32_sub, (to_int32_small (cx - 50)), (to_int32_small (cy - 50)) by lia.
  rewrite (to_int32_small (cx - 50 + i)), (to_int32_small (cy - 50 + j)) by lia.
  change GMAP_HN_PIXEL with 101.
  change (to_int32 (cx - 50 + i + map_offset_of (cx - 50 + i) 101))
    with (wrap (cx - 50 + i) 101).
  change (to_int32 (cy - 50 + j + map_offset_of (cy - 50 + j) 101))
    with (wrap (cy - 50 + j) 101).
  pose proof (wrap_range (cx - 50 + i) ltac:(lia)).
  pose proof (wrap_range (cy - 50 + j) ltac:(lia)).
  change GMAP_WN_PIXEL with (to_uint32 101) at 1.
  rewrite to_int32_uint32_mul.
  rewrite (to_int32_small (wrap (cy - 50 + j) 101 * 101)) by lia.
  rewrite to_int32_small by lia.
  reflexivity.
Qed.

Ltac wrap_goal :=
  repeat first
    [ match goal with
      | |- context [wrap ?c 101] => rewrite (wrap_cases c) by lia
      end
    | match goal with
      | |- context [?a <? ?b] => destruct (Z.ltb_spec a b)
      end ];
  try lia.

(** Along one axis: the storage coordinate of window coordinate [u] after
    the shift is in the cleared band exactly when [u + d] falls outside the
    window before the shift ... *)
Lemma cleared_iff_exposed c d u :
  0 <= c <= 100 -> - 100 <= d <= 100 -> - 101 <= c - 50 + d ->
  0 <= u <= 100 ->
  cleared (c - 50) d (wrap (wrap (c + d) 101 - 50 + u) 101)
  <-> ~ (0 <= u + d <= 100).
Proof.
  intros Hc Hd Hr Hu. unfold cleared, in_band. change GMAP_WN_PIXEL with 101.
  split.
  - intros (i & Hi & Hw) Hin. revert Hi Hw.
    destruct (Z.leb_spec 0 d); intros Hi; wrap_goal.
  - intros Hout. destruct (Z.leb_spec 0 d).
    + exists (c - 50 + d + u - 101). split; [lia |]. wrap_goal.
    + exists (c - 50 + d + u). split; [lia |]. wrap_goal.
Qed.

(** ... and otherwise it is the storage coordinate window coordinate
    [u + d] had before the shift. *)
Lemma kept_coordinate c d u :
  0 <= c <= 100 -> - 100 <= d <= 100 -> 0 <= u <= 100 ->
  0 <= u + d <= 100 ->
  wrap (wrap (c + d) 101 - 50 + u) 101 = wrap (c - 50 + (u + d)) 101.
Proof. intros Hc Hd Hu Hin. wrap_goal. Qed.

(** X1. Translation coverage, for shifts in [[-EDGE, EDGE]] whose bands are
    within the reach of one wrap: the function completes; a window cell
    whose position before the shift lay outside the window is neutral;
    every other window cell shows what the window showed at that position
    before the shift. *)
Lemma translate_coverage gMap dx dy :
  wf_map gMap -> center_ok (map_center_pixel gMap) ->
  - 100 <= dx <= 100 -> - 100 <= dy <= 100 ->
  band_in_reach (x (map_center_pixel gMap)) dx ->
  band_in_reach (y (map_center_pixel gMap)) dy ->
  exists gMap',
    app_slam_private_translateGlobalMap dx dy gMap = Some gMap'
    /\ wf_map gMap' /\ center_ok (map_center_pixel gMap')
    /\ forall u v, 0 <= u <= 100 -> 0 <= v <= 100 ->
         (~ (0 <= u + dx <= 100) \/ ~ (0 <= v + dy <= 100) ->
            window_cell gMap' u v = Some GRID_CELL_NEUTRAL)
         /\ (0 <= u + dx <= 100 -> 0 <= v + dy <= 100 ->
            window_cell gMap' u v = window_cell gMap (u + dx) (v + dy)).
Proof.
  intros Hwf Hc Hdx Hdy Hrx Hry.
  destruct (translate_spec gMap dx dy) as (gMap' & Hrun & Hwf' & Hc' & _ & Hcells);
    try assumption.
  pose proof Hc as [Hcx Hcy]. change GMAP_GRID_EDGE_SIZE_PIXEL with 100 in Hcx, Hcy.
  unfold band_in_reach in Hrx, Hry.
  change GMAP_WN_PIXEL with 101 in *. change GMAP_HN_PIXEL with 101 in *.
  change GMAP_DEFAULT_CENTRAL_X_INDEX_PIXEL with 50 in *.
  pose proof (wrap_range (x (map_center_pixel gMap) + dx) ltac:(lia)) as Hwx.
  pose proof (wrap_range (y (map_center_pixel gMap) + dy) ltac:(lia)) as Hwy.
  assert (Hok' : center_ok (map_center_pixel gMap')).
  { rewrite Hc'. split; cbn [x y]; change GMAP_GRID_EDGE_SIZE_PIXEL with 100; lia. }
  exists gMap'. repeat (split; [assumption |]).
  intros u v Hu Hv.
  rewrite (window_cell_cell gMap' u v) by assumption.
  rewrite Hc'. cbn [x y].
  set (col := wrap (wrap (x (map_center_pixel gMap) + dx) 101 - 50 + u) 101).
  set (row := wrap (wrap (y (map_center_pixel gMap) + dy) 101 - 50 + v) 101).
  assert (Hcol : 0 <= col <= 100) by (apply wrap_range; lia).
  assert (Hrow : 0 <= row <= 100) by (apply wrap_range; lia).
  destruct (Hcells col row Hcol Hrow) as [Hclr Hkeep].
  pose proof (cleared_iff_exposed (x (map_center_pixel gMap)) dx u
                ltac:(lia) ltac:(lia) ltac:(lia) ltac:(lia)) as Hix.
  pose proof (cleared_iff_exposed (y (map_center_pixel gMap)) dy v
                ltac:(lia) ltac:(lia) ltac:(lia) ltac:(lia)) as Hiy.
  fold col in Hix. fold row in Hiy. split.
  - intros Hexp. apply Hclr. tauto.
  - intros Hinx Hiny.
    rewrite (window_cell_cell gMap (u + dx) (v + dy)) by (assumption || lia).
    rewrite Hkeep by tauto.
    unfold col, row. rewrite !kept_coordinate by lia. reflexivity.
Qed.

Lemma translate_coverage_witness :
  exists gMap',
    app_slam_private_translateGlobalMap (- 1) 2 app_slam_init = Some gMap'
    /\ window_cell gMap' 0 0 = Some GRID_CELL_NEUTRAL
    /\ window_cell gMap' 1 0 = window_cell app_slam_init 0 2.
Proof.
  destruct (translate_coverage app_slam_init (- 1) 2)
    as (gMap' & Hrun & _ & _ & Hcov).
  - vm_compute. reflexivity.
  - vm_compute. repeat split; discriminate.
  - lia.
  - lia.
  - vm_compute. split; discriminate.
  - vm_compute. split; discriminate.
  - exists gMap'. split; [exact Hrun |]. split.
    + destruct (Hcov 0 0) as [Hexposed _]; [lia | lia |].
      apply Hexposed. lia.
    + destruct (Hcov 1 0) as [_ Hkept]; [lia | lia |].
      apply Hkept; lia.
Defined.

(** X2. The concrete case of the coverage property: from centre (50, 50)
    the shift (+1, 0) makes the 101 cells of storage column 0 neutral and
    leaves every other cell as it was; the centre becomes (51, 50). *)
Lemma translate_one_column gMap :
  wf_map gMap -> map_center_pixel gMap = {| x := 50; y := 50 |} ->
  exists gMap',
    app_slam_private_translateGlobalMap 1 0 gMap = Some gMap'
    /\ map_center_pixel gMap' = {| x := 51; y := 50 |}
    /\ forall col row, 0 <= col <= 100 -> 0 <= row <= 100 ->
         (col = 0 -> cell gMap' col row = Some GRID_CELL_NEUTRAL)
         /\ (col <> 0 -> cell gMap' col row = cell gMap col row).
Proof.
  intros Hwf Hc.
  destruct (translate_spec gMap 1 0) as (gMap' & Hrun & _ & Hc' & _ & Hcells);
    [ assumption
    | rewrite Hc; vm_compute; repeat split; discriminate
    | rewrite Hc; vm_compute; split; discriminate
    | rewrite Hc; vm_compute; split; discriminate
    | ].
  exists gMap'. split; [assumption |]. split; [rewrite Hc', Hc; reflexivity |].
  intros col row Hcol Hrow. destruct (Hcells col row Hcol Hrow) as [Hclr Hkeep].
  rewrite Hc in Hclr, Hkeep. cbn [x y] in Hclr, Hkeep. split.
  - intros ->. apply Hclr. left. exists 0. split; [cbn; lia | reflexivity].
  - intros Hne. apply Hkeep.
    + intros (i & Hi & Hw). cbn in Hi. assert (i = 0) by lia. subst i.
      apply Hne. rewrite <- Hw. reflexivity.
    + apply cleared_zero.
Qed.

Lemma translate_one_column_witness :
  exists gMap',
    app_slam_private_translateGlobalMap 1 0 app_slam_init = Some gMap'
    /\ map_center_pixel gMap' = {| x := 51; y := 50 |}
    /\ cell gMap' 0 100 = Some GRID_CELL_NEUTRAL
    /\ cell gMap' 1 100 = cell app_slam_init 1 100.
Proof.
  destruct (translate_one_column app_slam_init) as (gMap' & Hrun & Hc & Hcells).
  - vm_compute. reflexivity.
  - reflexivity.
  - exists gMap'. split; [exact Hrun |]. split; [exact Hc |].
    destruct (Hcells 0 100) as [Hcleared _]; [lia | lia |].
    destruct (Hcells 1 100) as [_ Hkept]; [lia | lia |].
    split; [apply Hcleared; reflexivity | apply Hkept; lia].
Defined.

(** C2 (defect). A shift the source's header comment admits
    ([dx, dy] in [[-EDGE, EDGE]]) can take the band more than one width
    below 0: when [x + dx < -(EDGE/2 + 1)] the first store of the column
    pass has a negative index, so the translation is undefined instead of
    clearing the exposed band. *)
Theorem translate_undefined_beyond_reach (gMap : dynamic_map_S) (dx dy : Z) :
  center_ok (map_center_pixel gMap) ->
  - GMAP_GRID_EDGE_SIZE_PIXEL <= dx <= GMAP_GRID_EDGE_SIZE_PIXEL ->
  x (map_center_pixel gMap) + dx < - (GMAP_DEFAULT_CENTRAL_X_INDEX_PIXEL + 1) ->
  app_slam_private_translateGlobalMap dx dy gMap = None.
Proof.
  destruct gMap as [m [cx cy] off]. unfold center_ok.
  cbn [map_center_pixel x y]. change GMAP_GRID_EDGE_SIZE_PIXEL with 100.
  change GMAP_DEFAULT_CENTRAL_X_INDEX_PIXEL with 50.
  intros [Hcx Hcy] Hdx Hlow.
  unfold app_slam_private_translateGlobalMap.
  cbn [data map_center_pixel map_offset_mm x y].
  change GMAP_DEFAULT_CENTRAL_X_INDEX_PIXEL with (to_uint32 50).
  rewrite to_int32_uint32_sub, (to_int32_small (cx - 50)) by lia.
  cbv zeta.
  destruct (Z.eqb_spec dx 0) as [-> | _]; [lia |].
  unfold band_start, band_end. destruct (Z.leb_spec 0 dx) as [| _]; [lia |].
  rewrite (to_int32_small (cx - 50 + dx)) by lia.
  assert (Hcols : translate_clear_columns (cx - 50 + dx) (cx - 50) m = None).
  { unfold translate_clear_columns.
    rewrite for_range_first_undefined; [reflexivity | reflexivity |].
    cbv beta iota.
    rewrite for_range_first_undefined; [reflexivity | lia |].
    cbv zeta.
    change (to_int32 (cx - 50 + dx + map_offset_of (cx - 50 + dx) GMAP_WN_PIXEL))
      with (wrap (cx - 50 + dx) 101).
    rewrite wrap_cases by lia.
    destruct (Z.ltb_spec (cx - 50 + dx) 0); [| lia].
    rewrite to_int32_small by lia.
    apply store_None. lia. }
  rewrite Hcols. reflexivity.
Qed.

Lemma translate_undefined_beyond_reach_witness :
  app_slam_private_translateGlobalMap (- 100) 0
    {| data := data app_slam_init;
       map_center_pixel := {| x := 0; y := 50 |};
       map_offset_mm := map_offset_mm app_slam_init |} = None.
Proof.
  apply translate_undefined_beyond_reach.
  - vm_compute. repeat split; discriminate.
  - vm_compute. split; discriminate.
  - vm_compute. reflexivity.
Defined.

(** The centre of that witness is one the map reaches: a shift of [-50]
    columns from the initial state. *)
Lemma translate_reaches_left_edge :
  exists gMap,
    app_slam_private_translateGlobalMap (- 50) 0 app_slam_init = Some gMap
    /\ wf_map gMap
    /\ map_center_pixel gMap = {| x := 0; y := 50 |}.
Proof.
  destruct (translate_spec app_slam_init (- 50) 0) as (gMap & Hrun & Hwf & Hc & _);
    [ vm_compute; reflexivity
    | vm_compute; repeat split; discriminate
    | vm_compute; split; discriminate
    | vm_compute; split; discriminate
    | ].
  exists gMap. split; [assumption |]. split; [assumption |].
  rewrite Hc. reflexivity.
Qed.

(** ** Shifts beyond the documented bound *)

Lemma cleared_all c00 d col :
  - 50 <= c00 <= 50 -> - 101 <= c00 + d <= 202 -> 100 < Z.abs d ->
  0 <= col <= 100 -> cleared c00 d col.
Proof.
  intros Hc Hr Hd Hcol. unfold cleared, in_band. change GMAP_WN_PIXEL with 101.
  destruct (Z.leb_spec 0 d).
  - destruct (Z.ltb_spec col c00).
    + exists (col + 101). split; [lia |]. wrap_goal.
    + destruct (Z.leb_spec (c00 + 101) col).
      * exists (col - 101). split; [lia |]. wrap_goal.
      * exists col. split; [lia |]. wrap_goal.
  - destruct (Z.ltb_spec col c00).
    + exists col. split; [lia |]. wrap_goal.
    + exists (col - 101). split; [lia |]. wrap_goal.
Qed.

(** C6 (as the code has it). Nothing in the translation detects a shift
    beyond [EDGE]: whenever the bands are within the reach of one wrap,
    which admits shifts of more than [EDGE] pixels, the function completes;
    each centre component receives the shift and exactly one table offset;
    and a band wider than the map leaves every cell neutral. *)
Theorem translate_over_bound_completes (gMap : dynamic_map_S) (dx dy : Z) :
  wf_map gMap -> center_ok (map_center_pixel gMap) ->
  band_in_reach (x (map_center_pixel gMap)) dx ->
  band_in_reach (y (map_center_pixel gMap)) dy ->
  GMAP_GRID_EDGE_SIZE_PIXEL < Z.abs dx \/ GMAP_GRID_EDGE_SIZE_PIXEL < Z.abs dy ->
  exists gMap',
    app_slam_private_translateGlobalMap dx dy gMap = Some gMap'
    /\ x (map_center_pixel gMap') =
         x (map_center_pixel gMap) + dx
         + map_offset_of (x (map_center_pixel gMap) + dx) GMAP_WN_PIXEL
    /\ y (map_center_pixel gMap') =
         y (map_center_pixel gMap) + dy
         + map_offset_of (y (map_center_pixel gMap) + dy) GMAP_HN_PIXEL
    /\ forall col row, 0 <= col <= 100 -> 0 <= row <= 100 ->
         cell gMap' col row = Some GRID_CELL_NEUTRAL.
Proof.
  intros Hwf Hc Hrx Hry Hover.
  destruct (translate_spec gMap dx dy) as (gMap' & Hrun & _ & Hc' & _ & Hcells);
    try assumption.
  destruct Hc as [Hcx Hcy]. unfold band_in_reach in Hrx, Hry.
  change GMAP_GRID_EDGE_SIZE_PIXEL with 100 in *.
  change GMAP_WN_PIXEL with 101 in *. change GMAP_HN_PIXEL with 101 in *.
  change GMAP_DEFAULT_CENTRAL_X_INDEX_PIXEL with 50 in *.
  exists gMap'. split; [assumption |]. rewrite Hc'. cbn [x y].
  split; [| split].
  - unfold wrap. rewrite map_offset_of_cases by lia.
    destruct (Z.ltb_spec (x (map_center_pixel gMap) + dx) 0),
      (Z.ltb_spec 100 (x (map_center_pixel gMap) + dx));
      rewrite to_int32_small; lia.
  - unfold wrap. rewrite map_offset_of_cases by lia.
    destruct (Z.ltb_spec (y (map_center_pixel gMap) + dy) 0),
      (Z.ltb_spec 100 (y (map_center_pixel gMap) + dy));
      rewrite to_int32_small; lia.
  - intros col row Hcol Hrow. apply (Hcells col row Hcol Hrow).
    destruct Hover as [Hover | Hover]; [left | right];
      apply cleared_all; lia.
Qed.

Lemma translate_over_bound_completes_witness :
  exists gMap',
    app_slam_private_translateGlobalMap 152 0 app_slam_init = Some gMap'
    /\ x (map_center_pixel gMap') = 101.
Proof.
  destruct (translate_over_bound_completes app_slam_init 152 0)
    as (gMap' & Hrun & Hx & _).
  - vm_compute. reflexivity.
  - vm_compute. repeat split; discriminate.
  - vm_compute. split; discriminate.
  - vm_compute. split; discriminate.
  - left. vm_compute. reflexivity.
  - exists gMap'. split; [assumption |]. rewrite Hx. reflexivity.
Defined.

(** ** The footprint as a list of stores *)

Lemma In_counter_values n lo i :
  In i (counter_values n lo) <-> lo <= i < lo + Z.of_nat n.
Proof.
  revert lo. induction n as [| n IH]; intros lo; cbn [counter_values In].
  - lia.
  - rewrite IH. lia.
Qed.

Lemma visit_all_app {S : Type} (visit : Z -> S -> option S) l1 l2 s :
  visit_all visit (l1 ++ l2) s = s' ← visit_all visit l1 s; visit_all visit l2 s'.
Proof.
  revert s. induction l1 as [| k l1 IH]; intros s; [reflexivity |].
  cbn [visit_all app]. destruct (visit k s) as [s1 |]; [| reflexivity].
  cbn. apply IH.
Qed.

Lemma for_loop_visit_all {S : Type} (visit : Z -> S -> option S)
    (L : Z -> list Z) n lo body s :
  (forall i s1, body i s1 = visit_all visit (L i) s1) ->
  for_loop n lo body s = visit_all visit (flat_map L (counter_values n lo)) s.
Proof.
  intros Hbody. revert lo s. induction n as [| n IH]; intros lo s; [reflexivity |].
  cbn [for_loop counter_values flat_map].
  rewrite visit_all_app, Hbody.
  destruct (visit_all visit (L lo) s) as [s1 |]; [| reflexivity].
  cbn. apply IH.
Qed.

Lemma footprint_loop_visit_all {S : Type} mc_pixel
    (visit : Z -> S -> option S) (s : S) :
  footprint_loop mc_pixel visit s = visit_all visit (footprint_list mc_pixel) s.
Proof.
  unfold footprint_loop, footprint_list, for_range. cbv zeta.
  apply for_loop_visit_all. intros j s1.
  apply for_loop_visit_all. intros i s2.
  cbn [visit_all]. destruct (visit _ s2); reflexivity.
Qed.

Lemma footprint_indices_list mc_pixel :
  footprint_indices mc_pixel = footprint_list mc_pixel.
Proof.
  unfold footprint_indices. rewrite footprint_loop_visit_all.
  assert (Hacc : forall l acc,
             visit_all (fun idx acc => Some (idx :: acc)) l acc
             = Some (rev l ++ acc)).
  { induction l as [| k l IH]; intros acc; [reflexivity |].
    cbn [visit_all mbind option_bind rev]. rewrite IH, <- app_assoc. reflexivity. }
  rewrite Hacc, app_nil_r. apply rev_involutive.
Qed.

Lemma visit_all_store l v m :
  (forall k, In k l -> 0 <= k < Z.of_nat (length m)) ->
  exists m', visit_all (fun idx m => store m idx v) l m = Some m'
             /\ stores_to (fun k => In k l) v m m'.
Proof.
  intros Hl.
  assert (Hgen : forall l' (W : Z -> Prop) m1,
             (forall k, In k l' -> 0 <= k < Z.of_nat (length m)) ->
             stores_to W v m m1 ->
             exists m', visit_all (fun idx m => store m idx v) l' m1 = Some m'
                        /\ stores_to (fun k => W k \/ In k l') v m m').
  { induction l' as [| k l' IH]; intros W m1 Hin Hst.
    - exists m1. split; [reflexivity |].
      eapply stores_to_ext; [| exact Hst]. cbn. tauto.
    - destruct (stores_to_store W v m m1 k Hst) as (m2 & Hs & Hst2).
      { apply Hin. now left. }
      destruct (IH _ m2 (fun k' H => Hin k' (or_intror H)) Hst2) as (m' & Hrun & Hst').
      exists m'. cbn [visit_all]. rewrite Hs. split; [exact Hrun |].
      eapply stores_to_ext; [| exact Hst']. intros k'. cbn. split.
      + intros [[HW | ->] | Hin']; tauto.
      + intros [HW | [-> | Hin']]; tauto. }
  destruct (Hgen l (fun _ => False) m Hl (stores_to_refl v m)) as (m' & Hrun & Hst).
  exists m'. split; [assumption |].
  eapply stores_to_ext; [| exact Hst]. cbn. tauto.
Qed.

Ltac cases_0_10 j :=
  let H := fresh "Hcases" in
  assert (H : j = 0 \/ j = 1 \/ j = 2 \/ j = 3 \/ j = 4 \/ j = 5 \/ j = 6
              \/ j = 7 \/ j = 8 \/ j = 9 \/ j = 10) by lia;
  repeat destruct H as [-> | H]; [.. | subst j].

Lemma padding_range j : 0 <= j <= 10 -> 0 <= padding j <= 4.
Proof. intros Hj. cases_0_10 j; vm_compute; split; discriminate. Qed.

Lemma padding_symmetric j : 0 <= j <= 10 -> padding (10 - j) = padding j.
Proof. intros Hj. cases_0_10 j; reflexivity. Qed.

Lemma center_ok_footprint_in_reach mc_pixel :
  center_ok mc_pixel -> footprint_in_reach mc_pixel.
Proof.
  unfold center_ok, footprint_in_reach.
  change GMAP_GRID_EDGE_SIZE_PIXEL with 100. lia.
Qed.

(** Membership in the footprint. *)
Lemma In_footprint_list mc_pixel k :
  footprint_in_reach mc_pixel ->
  In k (footprint_list mc_pixel) <->
  exists j i, 0 <= j <= 10 /\ padding j <= i <= 10 - padding j
              /\ k = wrap (y mc_pixel - 5 + j) 101 * 101
                     + wrap (x mc_pixel - 5 + i) 101.
Proof.
  destruct mc_pixel as [cx cy]. unfold footprint_in_reach. cbn [x y].
  intros [Hcx Hcy].
  unfold footprint_list. cbn [x y]. cbv zeta.
  change ROBOT_SIZE_R_PIXEL with (to_uint32 5).
  rewrite !to_int32_uint32_sub, (to_int32_small (cx - 5)), (to_int32_small (cy - 5)) by lia.
  change ROBOT_SIZE_D_PIXEL with 10.
  assert (Hcell : forall j i, 0 <= j <= 10 -> 0 <= i <= 10 ->
             to_int32 (footprint_row (cy - 5) j + footprint_column (cx - 5) i)
             = wrap (cy - 5 + j) 101 * 101 + wrap (cx - 5 + i) 101).
  { intros j i Hj Hi. unfold footprint_row, footprint_column. cbv zeta.
    rewrite (to_int32_small (cy - 5 + j)), (to_int32_small (cx - 5 + i)) by lia.
    change (to_int32 (cy - 5 + j + map_offset_of (cy - 5 + j) GMAP_HN_PIXEL))
      with (wrap (cy - 5 + j) 101).
    change (to_int32 (cx - 5 + i + map_offset_of (cx - 5 + i) GMAP_WN_PIXEL))
      with (wrap (cx - 5 + i) 101).
    pose proof (wrap_range (cy - 5 + j) ltac:(lia)).
    pose proof (wrap_range (cx - 5 + i) ltac:(lia)).
    change GMAP_WN_PIXEL with (to_uint32 101).
    rewrite to_int32_uint32_mul.
    rewrite (to_int32_small (wrap (cy - 5 + j) 101 * 101)) by lia.
    rewrite to_int32_small by lia. reflexivity. }
  rewrite in_flat_map. split.
  - intros (j & Hj & Hin). apply In_counter_values in Hj.
    apply in_flat_map in Hin. destruct Hin as (i & Hi & Hk).
    apply In_counter_values in Hi. fold (padding j) in Hi.
    pose proof (padding_range j ltac:(lia)) as Hp.
    rewrite (to_uint32_small (padding j)) in Hi by lia.
    rewrite (to_uint32_small (10 - padding j)) in Hi by lia.
    destruct Hk as [Hk | []].
    exists j, i. split; [lia |]. split; [lia |].
    rewrite <- Hk. apply Hcell; lia.
  - intros (j & i & Hj & Hi & ->). exists j. split.
    + apply In_counter_values. lia.
    + pose proof (padding_range j ltac:(lia)) as Hp.
      apply in_flat_map. exists i. fold (padding j). split.
      * apply In_counter_values.
        rewrite (to_uint32_small (padding j)) by lia.
        rewrite (to_uint32_small (10 - padding j)) by lia. lia.
      * left. apply Hcell; lia.
Qed.

(** Functional specification of the footprint clearing: when the footprint
    is within reach it completes, stores [GRID_CELL_VISITED] at exactly the
    indices of the footprint, and leaves the centre and the leftover
    alone. *)
Lemma clearVehicleRegion_spec_reach gMap :
  wf_map gMap -> footprint_in_reach (map_center_pixel gMap) ->
  exists gMap',
    app_slam_private_clearVehicleRegion gMap = Some gMap'
    /\ wf_map gMap'
    /\ map_center_pixel gMap' = map_center_pixel gMap
    /\ map_offset_mm gMap' = map_offset_mm gMap
    /\ stores_to (fun k => In k (footprint_indices (map_center_pixel gMap)))
         GRID_CELL_VISITED (data gMap) (data gMap').
Proof.
  intros Hwf Hc.
  destruct (visit_all_store (footprint_list (map_center_pixel gMap))
              GRID_CELL_VISITED (data gMap)) as (m' & Hrun & Hst).
  - intros k Hk. apply In_footprint_list in Hk; [| assumption].
    destruct Hk as (j & i & Hj & Hi & ->).
    pose proof (padding_range j Hj) as Hp.
    destruct Hc as [Hcx Hcy].
    pose proof (wrap_range (y (map_center_pixel gMap) - 5 + j) ltac:(lia)).
    pose proof (wrap_range (x (map_center_pixel gMap) - 5 + i) ltac:(lia)).
    unfold wf_map in Hwf. change GMAP_CELLS with 10201 in Hwf. lia.
  - exists {| data := m';
              map_center_pixel := map_center_pixel gMap;
              map_offset_mm := map_offset_mm gMap |}.
    cbn [data map_center_pixel map_offset_mm]. split; [| split; [| split; [| split]]].
    + unfold app_slam_private_clearVehicleRegion.
      rewrite footprint_loop_visit_all, Hrun. reflexivity.
    + unfold wf_map. cbn [data]. destruct Hst as [-> _]. exact Hwf.
    + reflexivity.
    + reflexivity.
    + rewrite footprint_indices_list. exact Hst.
Qed.

Lemma clearVehicleRegion_spec gMap :
  wf_map gMap -> center_ok (map_center_pixel gMap) ->
  exists gMap',
    app_slam_private_clearVehicleRegion gMap = Some gMap'
    /\ wf_map gMap'
    /\ map_center_pixel gMap' = map_center_pixel gMap
    /\ map_offset_mm gMap' = map_offset_mm gMap
    /\ stores_to (fun k => In k (footprint_indices (map_center_pixel gMap)))
         GRID_CELL_VISITED (data gMap) (data gMap').
Proof.
  intros Hwf Hc. apply clearVehicleRegion_spec_reach; [assumption |].
  now apply center_ok_footprint_in_reach.
Qed.

Lemma footprint_mask_iff mc_pixel a b :
  center_ok mc_pixel -> - 50 <= a <= 50 -> - 50 <= b <= 50 ->
  In (index_from_center mc_pixel a b) (footprint_indices mc_pixel)
  <-> footprint_mask a b.
Proof.
  intros Hc Ha Hb.
  rewrite footprint_indices_list,
    In_footprint_list by now apply center_ok_footprint_in_reach.
  destruct mc_pixel as [cx cy]. destruct Hc as [Hcx Hcy]. cbn [x y] in *.
  change GMAP_GRID_EDGE_SIZE_PIXEL with 100 in Hcx, Hcy.
  unfold index_from_center, footprint_mask. cbn [x y].
  change GMAP_WN_PIXEL with 101. change GMAP_HN_PIXEL with 101.
  split.
  - intros (j & i & Hj & Hi & Hk).
    pose proof (padding_range j Hj) as Hp.
    pose proof (wrap_range (cy - 5 + j) ltac:(lia)) as H1.
    pose proof (wrap_range (cx - 5 + i) ltac:(lia)) as H2.
    pose proof (wrap_range (cy + b) ltac:(lia)) as H3.
    pose proof (wrap_range (cx + a) ltac:(lia)) as H4.
    assert (Hrow : wrap (cy + b) 101 = wrap (cy - 5 + j) 101) by lia.
    assert (Hcol : wrap (cx + a) 101 = wrap (cx - 5 + i) 101) by lia.
    clear Hk H1 H2 H3 H4.
    assert (Hbj : b = j - 5) by (revert Hrow; wrap_goal).
    assert (Hai : a = i - 5) by (revert Hcol; wrap_goal).
    subst a b. replace (j - 5 + 5) with j by lia. lia.
  - intros [Hb5 Ha5]. exists (b + 5), (a + 5).
    pose proof (padding_range (b + 5) ltac:(lia)) as Hp.
    split; [lia |]. split; [lia |].
    replace (cy - 5 + (b + 5)) with (cy + b) by lia.
    replace (cx - 5 + (a + 5)) with (cx + a) by lia. reflexivity.
Qed.

Lemma footprint_mask_symmetric a b :
  (footprint_mask a b <-> footprint_mask (- a) b)
  /\ (footprint_mask a b <-> footprint_mask a (- b)).
Proof.
  unfold footprint_mask. split.
  - lia.
  - split; intros [Hb Ha].
    + replace (- b + 5) with (10 - (b + 5)) by lia.
      rewrite padding_symmetric by lia. lia.
    + replace (- b + 5) with (10 - (b + 5)) in Ha by lia.
      rewrite padding_symmetric in Ha by lia. lia.
Qed.

(** C7. For every well-formed map whose centre is within the map, the
    footprint clearing completes and overwrites exactly the cells of
    [footprint_indices] with the visited value; that set of cells is
    symmetric about the vertical and about the horizontal axis through
    the centre: the cell at offset [(a, b)] from the centre is overwritten
    exactly when the cells at [(-a, b)] and at [(a, -b)] are. *)
Theorem footprint_symmetric (gMap : dynamic_map_S) :
  wf_map gMap -> center_ok (map_center_pixel gMap) ->
  let mc_pixel := map_center_pixel gMap in
  let overwritten k := In k (footprint_indices mc_pixel) in
  (exists gMap',
     app_slam_private_clearVehicleRegion gMap = Some gMap'
     /\ forall k, (overwritten k -> load (data gMap') k = Some GRID_CELL_VISITED)
                  /\ (~ overwritten k -> load (data gMap') k = load (data gMap) k))
  /\ forall a b, - 50 <= a <= 50 -> - 50 <= b <= 50 ->
       (overwritten (index_from_center mc_pixel a b)
        <-> overwritten (index_from_center mc_pixel (- a) b))
       /\ (overwritten (index_from_center mc_pixel a b)
           <-> overwritten (index_from_center mc_pixel a (- b))).
Proof.
  intros Hwf Hc mc_pixel overwritten. split.
  - destruct (clearVehicleRegion_spec gMap Hwf Hc) as (gMap' & Hrun & _ & _ & _ & Hst).
    exists gMap'. split; [assumption |]. intros k. split.
    + intros Hk. eapply stores_to_written; [exact Hst | exact Hk].
    + intros Hk. eapply stores_to_kept; [exact Hst | exact Hk].
  - intros a b Ha Hb. unfold overwritten, mc_pixel.
    rewrite !footprint_mask_iff by (assumption || lia).
    apply footprint_mask_symmetric.
Qed.

Lemma footprint_symmetric_witness :
  In (index_from_center (map_center_pixel app_slam_init) 3 (- 4))
     (footprint_indices (map_center_pixel app_slam_init))
  <-> In (index_from_center (map_center_pixel app_slam_init) (- 3) (- 4))
         (footprint_indices (map_center_pixel app_slam_init)).
Proof.
  assert (Hwf : wf_map app_slam_init) by (vm_compute; reflexivity).
  assert (Hc : center_ok (map_center_pixel app_slam_init))
    by (vm_compute; repeat split; discriminate).
  pose proof (footprint_symmetric app_slam_init Hwf Hc) as Hsym.
  cbv zeta in Hsym. destruct Hsym as [_ Hsym].
  destruct (Hsym 3 (- 4)) as [Hv _]; [lia | lia |].
  exact Hv.
Defined.

(** ** What every store of the core preserves *)

Lemma translate_clear_columns_preserves (P : list Z -> Prop) start end_ m m' :
  store_stable P GRID_CELL_NEUTRAL ->
  P m -> translate_clear_columns start end_ m = Some m' -> P m'.
Proof.
  intros HP Hm. unfold translate_clear_columns.
  destruct (for_range _ _ _ _) as [[m1 y1] |] eqn:Hrun; [| discriminate].
  cbn. intros [= <-].
  apply (for_range_preserves (fun st : list Z * Z => P (fst st))) in Hrun;
    [exact Hrun | | exact Hm].
  intros j [m0 y0] [m2 y2]. cbn [fst]. intros Hm0.
  destruct (for_range start end_ _ m0) as [m3 |] eqn:Hinner; [| discriminate].
  cbn. intros [= <- _].
  refine (for_range_preserves P _ _ _ m0 _ _ Hm0 Hinner).
  intros i ma mb Hma Hst. eapply HP; eassumption.
Qed.

Lemma translate_clear_rows_preserves (P : list Z -> Prop) start end_ m m' :
  store_stable P GRID_CELL_NEUTRAL ->
  P m -> translate_clear_rows start end_ m = Some m' -> P m'.
Proof.
  intros HP Hm. unfold translate_clear_rows.
  apply for_range_preserves; [| exact Hm].
  intros j m0 m1 Hm0. cbv zeta.
  apply for_range_preserves; [| exact Hm0].
  intros i ma mb Hma Hst. eapply HP; eassumption.
Qed.

(** What a completed translation did to the state. *)
Lemma translate_Some gMap dx dy gMap' :
  app_slam_private_translateGlobalMap dx dy gMap = Some gMap' ->
  map_offset_mm gMap' = map_offset_mm gMap
  /\ x (map_center_pixel gMap')
     = wrap (to_int32 (x (map_center_pixel gMap) + dx)) GMAP_WN_PIXEL
  /\ y (map_center_pixel gMap')
     = wrap (to_int32 (y (map_center_pixel gMap) + dy)) GMAP_HN_PIXEL
  /\ forall P : list Z -> Prop,
       store_stable P GRID_CELL_NEUTRAL -> P (data gMap) -> P (data gMap').
Proof.
  unfold app_slam_private_translateGlobalMap. cbv zeta.
  destruct (if dx =? 0 then _ else _) as [m1 |] eqn:H1; [| discriminate].
  cbn [mbind option_bind].
  destruct (if dy =? 0 then _ else _) as [m2 |] eqn:H2; [| discriminate].
  cbn [mbind option_bind]. intros [= <-].
  cbn [data map_center_pixel map_offset_mm x y].
  repeat split.
  intros P HP Hm.
  assert (Hm1 : P m1).
  { destruct (dx =? 0); [congruence |].
    eapply translate_clear_columns_preserves; eassumption. }
  destruct (dy =? 0); [congruence |].
  eapply translate_clear_rows_preserves; eassumption.
Qed.

Lemma footprint_loop_preserves (P : list Z -> Prop) mc_pixel v m m' :
  store_stable P v ->
  P m -> footprint_loop mc_pixel (fun idx m => store m idx v) m = Some m' -> P m'.
Proof.
  intros HP Hm. unfold footprint_loop. cbv zeta.
  apply for_range_preserves; [| exact Hm].
  intros j m0 m1 Hm0.
  apply for_range_preserves; [| exact Hm0].
  intros i ma mb Hma Hst. eapply HP; eassumption.
Qed.

Lemma clearVehicleRegion_Some gMap gMap' :
  app_slam_private_clearVehicleRegion gMap = Some gMap' ->
  map_offset_mm gMap' = map_offset_mm gMap
  /\ map_center_pixel gMap' = map_center_pixel gMap
  /\ forall P : list Z -> Prop,
       store_stable P GRID_CELL_VISITED -> P (data gMap) -> P (data gMap').
Proof.
  unfold app_slam_private_clearVehicleRegion.
  destruct (footprint_loop _ _ _) as [m1 |] eqn:Hrun; [| discriminate].
  cbn [mbind option_bind]. intros [= <-].
  cbn [data map_center_pixel map_offset_mm]. repeat split.
  intros P HP Hm. eapply footprint_loop_preserves; eassumption.
Qed.

(** A completed map update is a translation by those shifts, the storing
    of the two leftovers of [drift_axis], and the footprint clearing. *)
Lemma globalMapUpdate_with_Some rx ry gMap gMap' :
  globalMapUpdate_with rx ry gMap = Some gMap' ->
  exists dx dy lx ly gMap1,
    update_shift rx ry gMap = Some (dx, dy)
    /\ drift_axis rx (x (map_offset_mm gMap)) = Some (dx, lx)
    /\ drift_axis ry (y (map_offset_mm gMap)) = Some (dy, ly)
    /\ app_slam_private_translateGlobalMap dx dy gMap = Some gMap1
    /\ app_slam_private_clearVehicleRegion
         {| data := data gMap1;
            map_center_pixel := map_center_pixel gMap1;
            map_offset_mm := {| x := lx; y := ly |} |} = Some gMap'.
Proof.
  unfold globalMapUpdate_with, update_shift, drift_axis. cbv zeta.
  destruct (GMAP_MM_TO_UNIT_PIXEL (F32.add rx _)) as [dx |] eqn:Hdx;
    [| discriminate].
  destruct (GMAP_MM_TO_UNIT_PIXEL (F32.add ry _)) as [dy |] eqn:Hdy;
    [| discriminate].
  cbn [mbind option_bind].
  destruct (app_slam_private_translateGlobalMap dx dy gMap) as [gMap1 |] eqn:Htr;
    [| discriminate].
  cbn [mbind option_bind]. intros Hclear.
  exists dx, dy,
    (F32.sub (F32.add rx (x (map_offset_mm gMap))) (GMAP_UNIT_PIXEL_TO_MM dx)),
    (F32.sub (F32.add ry (y (map_offset_mm gMap))) (GMAP_UNIT_PIXEL_TO_MM dy)),
    gMap1.
  repeat split; assumption.
Qed.

(** ** Reset *)

(** C8. After a reset, from whatever state, every cell of the array is
    neutral, both centre components are [EDGE / 2 = 50] and both leftovers
    are zero; [app_slam_init] produces the same state. *)
Theorem reset_correct (gMap : dynamic_map_S) :
  let gMap' := app_slam_private_resetGlobalMap gMap in
  Z.of_nat (length (data gMap')) = GMAP_WN_PIXEL * GMAP_HN_PIXEL
  /\ Forall (fun v => v = GRID_CELL_NEUTRAL) (data gMap')
  /\ (forall k, 0 <= k < GMAP_WN_PIXEL * GMAP_HN_PIXEL ->
        load (data gMap') k = Some GRID_CELL_NEUTRAL)
  /\ x (map_center_pixel gMap') = GMAP_GRID_EDGE_SIZE_PIXEL / 2
  /\ y (map_center_pixel gMap') = GMAP_GRID_EDGE_SIZE_PIXEL / 2
  /\ x (map_center_pixel gMap') = 50 /\ y (map_center_pixel gMap') = 50
  /\ map_offset_mm gMap' = {| x := S754_zero false; y := S754_zero false |}
  /\ F32.to_Q (x (map_offset_mm gMap')) = 0%Q
  /\ F32.to_Q (y (map_offset_mm gMap')) = 0%Q
  /\ app_slam_init = gMap'.
Proof.
  cbv zeta. unfold app_slam_private_resetGlobalMap, memset_zero.
  cbn [data map_center_pixel map_offset_mm x y].
  split; [rewrite length_replicate; reflexivity |].
  split; [apply Forall_replicate; reflexivity |].
  split.
  { intros k Hk. unfold load. destruct (Z.leb_spec 0 k); [| lia].
    apply lookup_replicate_2.
    change GMAP_CELLS with 10201. change (GMAP_WN_PIXEL * GMAP_HN_PIXEL) with 10201 in Hk.
    lia. }
  repeat split.
Qed.

(** ** Reachable states *)

Lemma translate_center_ok gMap dx dy gMap' :
  center_ok (map_center_pixel gMap) -> within_edge dx dy ->
  app_slam_private_translateGlobalMap dx dy gMap = Some gMap' ->
  center_ok (map_center_pixel gMap').
Proof.
  intros [Hcx Hcy] [Hdx Hdy] Hrun.
  apply translate_Some in Hrun. destruct Hrun as (_ & Hx & Hy & _).
  change GMAP_GRID_EDGE_SIZE_PIXEL with 100 in *.
  change GMAP_WN_PIXEL with 101 in *. change GMAP_HN_PIXEL with 101 in *.
  rewrite to_int32_small in Hx, Hy by lia.
  split; [rewrite Hx | rewrite Hy]; change GMAP_GRID_EDGE_SIZE_PIXEL with 100;
    apply wrap_range; lia.
Qed.

(** C9. Both components of the centre lie in [[0, EDGE]] in the initial
    state and after every operation of the core (reset, translation and
    map update with shifts in [[-EDGE, EDGE]], footprint clearing): it
    is an invariant of the reachable states. *)
Theorem center_index_invariant (gMap : dynamic_map_S) :
  reachable within_edge gMap ->
  0 <= x (map_center_pixel gMap) <= GMAP_GRID_EDGE_SIZE_PIXEL
  /\ 0 <= y (map_center_pixel gMap) <= GMAP_GRID_EDGE_SIZE_PIXEL.
Proof.
  change (reachable within_edge gMap -> center_ok (map_center_pixel gMap)).
  induction 1 as [| gMap _ _ | gMap dx dy gMap' _ IH Hok Hrun
                 | gMap gMap' _ IH Hrun
                 | gMap rx ry dx dy gMap' _ IH Hsh Hok Hrun].
  - vm_compute. repeat split; discriminate.
  - vm_compute. repeat split; discriminate.
  - eapply translate_center_ok; eassumption.
  - apply clearVehicleRegion_Some in Hrun. destruct Hrun as (_ & -> & _). exact IH.
  - apply globalMapUpdate_with_Some in Hrun.
    destruct Hrun as (dx' & dy' & lx & ly & gMap1 & Hsh' & _ & _ & Htr & Hcl).
    assert (dx' = dx /\ dy' = dy) as [-> ->] by (split; congruence).
    apply clearVehicleRegion_Some in Hcl. destruct Hcl as (_ & -> & _).
    cbn [map_center_pixel]. eapply translate_center_ok; eassumption.
Qed.

Lemma core_value_stable v :
  core_value v -> store_stable (Forall core_value) v.
Proof.
  intros Hv m idx m' Hm Hst. apply store_inv in Hst. destruct Hst as [_ ->].
  now apply Forall_insert.
Qed.

Lemma reachable_core_values gMap :
  reachable any_shift gMap -> Forall core_value (data gMap).
Proof.
  induction 1 as [| gMap _ _ | gMap dx dy gMap' _ IH Hok Hrun
                 | gMap gMap' _ IH Hrun
                 | gMap rx ry dx dy gMap' _ IH Hsh Hok Hrun].
  - apply Forall_replicate. now left.
  - apply Forall_replicate. now left.
  - apply translate_Some in Hrun. destruct Hrun as (_ & _ & _ & HP).
    apply HP; [apply core_value_stable; now left | exact IH].
  - apply clearVehicleRegion_Some in Hrun. destruct Hrun as (_ & _ & HP).
    apply HP; [apply core_value_stable; now right | exact IH].
  - apply globalMapUpdate_with_Some in Hrun.
    destruct Hrun as (dx' & dy' & lx & ly & gMap1 & _ & _ & _ & Htr & Hcl).
    apply translate_Some in Htr. destruct Htr as (_ & _ & _ & HP1).
    apply clearVehicleRegion_Some in Hcl. destruct Hcl as (_ & _ & HP2).
    apply HP2; [apply core_value_stable; now right |]. cbn [data].
    apply HP1; [apply core_value_stable; now left | exact IH].
Qed.

(** C10. From the initial state, whatever the shifts, every cell of every
    state the core produces is [GRID_CELL_NEUTRAL] (0) or
    [GRID_CELL_VISITED] (-10); hence it lies in the walkable band
    [[-20, 20]] and in neither the occupancy range [[1, 100]] nor the edge
    range [[101, 120]]. *)
Theorem cell_value_invariant (gMap : dynamic_map_S) :
  reachable any_shift gMap ->
  Forall (fun v =>
            (v = 0 \/ v = - 10)
            /\ GRID_CELL_WALKABLE_THRESHOLD_MIN <= v <= GRID_CELL_WALKABLE_THRESHOLD_MAX
            /\ ~ (1 <= v <= GRID_CELL_OCCUPANCY_MAX_PROB)
            /\ ~ (GRID_CELL_EDGE_MIN_PROB <= v <= GRID_CELL_EDGE_MAX_PROB))
         (data gMap).
Proof.
  intros Hr. eapply Forall_impl; [apply reachable_core_values, Hr |].
  intros v [-> | ->]; vm_compute; intuition discriminate.
Qed.

Lemma cell_value_invariant_witness :
  exists gMap,
    app_slam_private_clearVehicleRegion app_slam_init = Some gMap
    /\ Forall (fun v =>
            (v = 0 \/ v = - 10)
            /\ GRID_CELL_WALKABLE_THRESHOLD_MIN <= v <= GRID_CELL_WALKABLE_THRESHOLD_MAX
            /\ ~ (1 <= v <= GRID_CELL_OCCUPANCY_MAX_PROB)
            /\ ~ (GRID_CELL_EDGE_MIN_PROB <= v <= GRID_CELL_EDGE_MAX_PROB))
         (data gMap).
Proof.
  destruct (clearVehicleRegion_spec app_slam_init) as (gMap & Hrun & _).
  - vm_compute. reflexivity.
  - vm_compute. repeat split; discriminate.
  - exists gMap. split; [exact Hrun |].
    apply (cell_value_invariant gMap).
    eapply reachable_clear; [apply reachable_init | exact Hrun].
Defined.

(** ** Drift accumulation *)

Lemma all_in_range_spec n lo p :
  all_in_range n lo p = true ->
  forall i, lo <= i < lo + Z.of_nat n -> p i = true.
Proof.
  revert lo. induction n as [| n IH]; intros lo Hall i Hi; [lia |].
  cbn [all_in_range] in Hall. apply andb_prop in Hall. destruct Hall as [Hlo Hrest].
  destruct (Z.eq_dec i lo) as [-> | Hne]; [assumption |].
  apply (IH (lo + 1)); [assumption | lia].
Qed.

Lemma sf_eqb_eq a b : sf_eqb a b = true -> a = b.
Proof.
  destruct a as [s1 | s1 | | s1 m1 e1], b as [s2 | s2 | | s2 m2 e2];
    cbn; try discriminate; try reflexivity.
  - intros H. apply Bool.eqb_prop in H. congruence.
  - intros H. apply Bool.eqb_prop in H. congruence.
  - intros H. apply andb_prop in H. destruct H as [H He].
    apply andb_prop in H. destruct H as [Hs Hm].
    apply Bool.eqb_prop in Hs. apply Pos.eqb_eq in Hm. apply Z.eqb_eq in He.
    congruence.
Qed.

Lemma drift_axis_whole_checked :
  all_in_range 2001 (- 1000)
    (fun r => all_in_range 19 (- 9) (fun l => drift_axis_whole_check r l)) = true.
Proof. vm_compute. reflexivity. Qed.

Lemma drift_axis_whole r l :
  - 1000 <= r <= 1000 -> - 10 < l < 10 ->
  drift_axis (F32.of_Z r) (F32.of_Z l)
  = Some ((r + l) ÷ 10, F32.of_Z (Z.rem (r + l) 10)).
Proof.
  intros Hr Hl.
  pose proof (all_in_range_spec _ _ _ drift_axis_whole_checked r ltac:(lia)) as H1.
  cbv beta in H1.
  pose proof (all_in_range_spec _ _ _ H1 l ltac:(lia)) as H2.
  cbv beta in H2. unfold drift_axis_whole_check in H2.
  destruct (drift_axis (F32.of_Z r) (F32.of_Z l)) as [[d off] |]; [| discriminate].
  apply andb_prop in H2. destruct H2 as [Hd Hoff].
  apply Z.eqb_eq in Hd. apply sf_eqb_eq in Hoff. congruence.
Qed.

Lemma to_Q_of_Z_checked :
  all_in_range 2019 (- 1009)
    (fun z => Qeq_bool (F32.to_Q (F32.of_Z z)) (inject_Z z)) = true.
Proof. vm_compute. reflexivity. Qed.

Lemma to_Q_of_Z z :
  - 1009 <= z <= 1009 -> (F32.to_Q (F32.of_Z z) == inject_Z z)%Q.
Proof.
  intros Hz. apply Qeq_bool_eq.
  exact (all_in_range_spec _ _ _ to_Q_of_Z_checked z ltac:(lia)).
Qed.

Lemma sum_Q_of_Z requests :
  Forall (fun r => - 1000 <= r <= 1000) requests ->
  (sum_Q (map F32.to_Q (map F32.of_Z requests)) == inject_Z (sum_Z requests))%Q.
Proof.
  induction 1 as [| r rs Hr _ IH]; [reflexivity |].
  cbn [map sum_Q sum_Z fold_right]. fold (sum_Q (map F32.to_Q (map F32.of_Z rs))).
  fold (sum_Z rs).
  rewrite IH, to_Q_of_Z, inject_Z_plus by lia. reflexivity.
Qed.

(** Whole-millimetre ticks: every shift is the quotient truncated toward
    zero and every leftover the remainder, in integers. *)
Lemma drift_run_whole requests l0 :
  Forall (fun r => - 1000 <= r <= 1000) requests -> - 10 < l0 < 10 ->
  exists shifts lN,
    drift_run (map F32.of_Z requests) (F32.of_Z l0) = Some (shifts, F32.of_Z lN)
    /\ - 10 < lN < 10
    /\ sum_Z shifts * 10 + lN = sum_Z requests + l0.
Proof.
  intros Hreq. revert l0. induction Hreq as [| r rs Hr _ IH]; intros l0 Hl0.
  - exists [], l0. repeat split; lia.
  - pose proof (Z.quot_rem' (r + l0) 10) as Hqr.
    assert (Hrem : - 10 < Z.rem (r + l0) 10 < 10).
    { pose proof (Z.rem_bound_abs (r + l0) 10 ltac:(lia)). lia. }
    destruct (IH (Z.rem (r + l0) 10) Hrem) as (shifts & lN & Hrun & HlN & Hsum).
    exists ((r + l0) ÷ 10 :: shifts), lN.
    cbn [map drift_run]. rewrite drift_axis_whole by lia.
    cbn [mbind option_bind]. rewrite Hrun. cbn [mbind option_bind].
    split; [reflexivity |]. split; [assumption |].
    cbn [sum_Z fold_right]. fold (sum_Z shifts). fold (sum_Z rs). lia.
Qed.

(** ** Binary32 arithmetic without rounding

    What [SpecFloat]'s rounding step computes, when a division by the grid
    step keeps its integral part, and when an addition, a subtraction and
    the product of a pixel count and the step are exact. *)

(** *** Binary digits *)

Lemma digits2_pos_bounds p :
  2 ^ (Zpos (digits2_pos p) - 1) <= Zpos p < 2 ^ Zpos (digits2_pos p).
Proof.
  induction p as [p IH | p IH |]; cbn [digits2_pos].
  - rewrite Pos2Z.inj_succ, Z.pow_succ_r by lia.
    replace (Z.succ (Zpos (digits2_pos p)) - 1)
      with (Z.succ (Zpos (digits2_pos p) - 1)) by lia.
    rewrite Z.pow_succ_r by lia. lia.
  - rewrite Pos2Z.inj_succ, Z.pow_succ_r by lia.
    replace (Z.succ (Zpos (digits2_pos p)) - 1)
      with (Z.succ (Zpos (digits2_pos p) - 1)) by lia.
    rewrite Z.pow_succ_r by lia. lia.
  - cbn. lia.
Qed.

Lemma Zdigits2_bounds m :
  0 < m -> 2 ^ (Zdigits2 m - 1) <= m < 2 ^ Zdigits2 m.
Proof.
  destruct m as [| p | p]; try lia. intros _. apply digits2_pos_bounds.
Qed.

Lemma Zdigits2_pos m : 0 < m -> 0 < Zdigits2 m.
Proof. destruct m; cbn; lia. Qed.

Lemma Zdigits2_le m k : 0 < m -> 0 <= k -> m < 2 ^ k -> Zdigits2 m <= k.
Proof.
  intros Hm Hk Hlt. pose proof (Zdigits2_bounds m Hm) as [Hlo _].
  pose proof (Zdigits2_pos m Hm).
  destruct (Z.le_gt_cases (Zdigits2 m) k) as [| Hgt]; [assumption |].
  assert (2 ^ k <= 2 ^ (Zdigits2 m - 1)) by (apply Z.pow_le_mono_r; lia). lia.
Qed.


(** *** The shift records of the rounding *)

Lemma div_mod_double N D :
  0 <= N -> 0 < D ->
  N / (2 * D) = (N / D) / 2
  /\ N mod (2 * D) = ((N / D) mod 2) * D + N mod D.
Proof.
  intros HN HD.
  pose proof (Z.div_mod N D ltac:(lia)) as H1.
  pose proof (Z.mod_pos_bound N D HD) as H2.
  pose proof (Z.div_mod (N / D) 2 ltac:(lia)) as H3.
  pose proof (Z.mod_pos_bound (N / D) 2 ltac:(lia)) as H4.
  set (q := N / D) in *. set (r := N mod D) in *.
  set (q2 := q / 2) in *. set (b := q mod 2) in *.
  assert (Heq : N = (2 * D) * q2 + (b * D + r)) by nia.
  assert (Hr : 0 <= b * D + r < 2 * D) by nia.
  split.
  - symmetry. apply (Z.div_unique_pos N (2 * D) q2 (b * D + r)); assumption.
  - symmetry. apply (Z.mod_unique_pos N (2 * D) q2 (b * D + r)); assumption.
Qed.

Lemma shr_1_rec N D :
  0 <= N -> 0 < D -> shr_1 (rec_of N D) = rec_of N (2 * D).
Proof.
  intros HN HD.
  destruct (div_mod_double N D HN HD) as [Hq Hr].
  pose proof (Z.mod_pos_bound N D HD) as Hrho.
  pose proof (Z.div_pos N D HN HD) as Hqpos.
  unfold rec_of. rewrite Hq, Hr.
  set (q := N / D) in *. set (r := N mod D) in *.
  assert (Hflag : (D <=? 2 * r) || (negb (r =? 0) && negb (2 * r =? D))
                  = negb (r =? 0)).
  { destruct (Z.leb_spec D (2 * r)), (Z.eqb_spec r 0), (Z.eqb_spec (2 * r) D);
      cbn; try reflexivity; lia. }
  cbn [shr_1]. rewrite Hflag.
  destruct q as [| p | p]; [| | lia].
  - cbn [Z.div Z.modulo]. change (0 / 2) with 0. change (0 mod 2) with 0.
    f_equal.
    + destruct (Z.leb_spec (2 * D) (2 * (0 * D + r))); [lia | reflexivity].
    + replace (0 * D + r) with r by lia.
      destruct (Z.eqb_spec r 0), (Z.eqb_spec (2 * r) (2 * D)); cbn;
        try reflexivity; lia.
  - destruct p as [p | p |].
    + assert (Hd : Z.pos p~1 / 2 = Z.pos p)
        by (symmetry; apply (Z.div_unique_pos _ 2 _ 1); lia).
      assert (Hm : Z.pos p~1 mod 2 = 1)
        by (symmetry; apply (Z.mod_unique_pos _ 2 (Z.pos p) 1); lia).
      rewrite Hd, Hm. f_equal.
      * destruct (Z.leb_spec (2 * D) (2 * (1 * D + r))); [reflexivity | lia].
      * destruct (Z.eqb_spec r 0), (Z.eqb_spec (1 * D + r) 0),
          (Z.eqb_spec (2 * (1 * D + r)) (2 * D)); cbn; try reflexivity; lia.
    + assert (Hd : Z.pos p~0 / 2 = Z.pos p)
        by (symmetry; apply (Z.div_unique_pos _ 2 _ 0); lia).
      assert (Hm : Z.pos p~0 mod 2 = 0)
        by (symmetry; apply (Z.mod_unique_pos _ 2 (Z.pos p) 0); lia).
      rewrite Hd, Hm. f_equal.
      * destruct (Z.leb_spec (2 * D) (2 * (0 * D + r))); [lia | reflexivity].
      * replace (0 * D + r) with r by lia.
        destruct (Z.eqb_spec r 0), (Z.eqb_spec (2 * r) (2 * D)); cbn;
          try reflexivity; lia.
    + change (1 / 2) with 0. change (1 mod 2) with 1. f_equal.
      * destruct (Z.leb_spec (2 * D) (2 * (1 * D + r))); [reflexivity | lia].
      * destruct (Z.eqb_spec r 0), (Z.eqb_spec (1 * D + r) 0),
          (Z.eqb_spec (2 * (1 * D + r)) (2 * D)); cbn; try reflexivity; lia.
Qed.

Lemma pow2_xO p : 2 ^ Zpos p~0 = 2 ^ Zpos p * 2 ^ Zpos p.
Proof.
  replace (Zpos p~0) with (Zpos p + Zpos p) by lia. apply Z.pow_add_r; lia.
Qed.

Lemma pow2_xI p : 2 ^ Zpos p~1 = 2 * (2 ^ Zpos p * 2 ^ Zpos p).
Proof.
  replace (Zpos p~1) with (1 + (Zpos p + Zpos p)) by lia.
  rewrite !Z.pow_add_r by lia. reflexivity.
Qed.

Lemma iter_pos_shr_1_rec p N D :
  0 <= N -> 0 < D ->
  SpecFloat.iter_pos shr_1 p (rec_of N D) = rec_of N (D * 2 ^ Zpos p).
Proof.
  intros HN. revert D.
  induction p as [p IH | p IH |]; intros D HD; cbn [SpecFloat.iter_pos].
  - pose proof (Z.pow_pos_nonneg 2 (Zpos p) ltac:(lia) ltac:(lia)).
    rewrite shr_1_rec by assumption.
    rewrite IH by lia. rewrite IH by nia.
    rewrite pow2_xI. f_equal. ring.
  - pose proof (Z.pow_pos_nonneg 2 (Zpos p) ltac:(lia) ltac:(lia)).
    rewrite IH by lia. rewrite IH by nia.
    rewrite pow2_xO. f_equal. ring.
  - rewrite shr_1_rec by assumption. f_equal. change (2 ^ 1) with 2. ring.
Qed.

(** Shifting by [n] bits, or not at all when [n] is not positive. *)
Lemma shr_rec N D e n :
  0 <= N -> 0 < D ->
  shr (rec_of N D) e n = (rec_of N (D * 2 ^ Z.max 0 n), e + Z.max 0 n).
Proof.
  intros HN HD. destruct n as [| p | p]; cbn [shr].
  - change (Z.max 0 0) with 0. rewrite Z.mul_1_r, Z.add_0_r. reflexivity.
  - rewrite iter_pos_shr_1_rec by assumption.
    replace (Z.max 0 (Zpos p)) with (Zpos p) by lia. reflexivity.
  - replace (Z.max 0 (Zneg p)) with 0 by lia.
    rewrite Z.mul_1_r, Z.add_0_r. reflexivity.
Qed.

Lemma round_rec N D :
  0 < D ->
  round_nearest_even (shr_m (rec_of N D)) (loc_of_shr_record (rec_of N D))
  = rne N D.
Proof.
  intros HD. pose proof (Z.mod_pos_bound N D HD) as Hr.
  unfold rec_of, rne. cbn [shr_m loc_of_shr_record]. cbv zeta.
  set (r := N mod D) in *.
  destruct (Z.leb_spec D (2 * r)), (Z.eqb_spec r 0), (Z.eqb_spec (2 * r) D),
    (Z.ltb_spec (2 * r) D); cbn; try reflexivity; lia.
Qed.

Lemma rec_of_exact m : shr_record_of_loc m loc_Exact = rec_of m 1.
Proof.
  unfold rec_of. rewrite Z.div_1_r, Z.mod_1_r. reflexivity.
Qed.

Lemma rne_cases N D :
  0 <= N -> 0 < D ->
  (rne N D = N / D /\ 2 * (N mod D) <= D)
  \/ (rne N D = N / D + 1 /\ D <= 2 * (N mod D)).
Proof.
  intros HN HD. unfold rne. cbv zeta.
  destruct (Z.ltb_spec (2 * (N mod D)) D); [left; lia |].
  destruct (Z.eqb_spec (2 * (N mod D)) D).
  - destruct (Z.even (N / D)); [left | right]; lia.
  - right. lia.
Qed.


(** *** What the rounding step computes *)

Lemma rne_nonneg N D : 0 <= N -> 0 < D -> 0 <= rne N D.
Proof.
  intros HN HD. pose proof (Z.div_pos N D HN HD).
  destruct (rne_cases N D HN HD) as [[-> _] | [-> _]]; lia.
Qed.

Lemma binary_round_aux_rec sx N D ex lx :
  0 <= N -> 0 < D ->
  shr_record_of_loc (N / D) lx = rec_of N D ->
  binary_round_aux F32.prec F32.emax sx (N / D) ex lx = round_spec sx N D ex.
Proof.
  intros HN HD Hrec.
  unfold binary_round_aux, round_spec, shr_fexp. rewrite Hrec.
  rewrite shr_rec by assumption.
  set (n1 := Z.max 0 (fexp F32.prec F32.emax (Zdigits2 (N / D) + ex) - ex)).
  assert (HD1 : 0 < D * 2 ^ n1)
    by (pose proof (Z.pow_pos_nonneg 2 n1 ltac:(lia) ltac:(lia)); nia).
  rewrite round_rec by assumption.
  set (mr := rne N (D * 2 ^ n1)).
  assert (Hmr : 0 <= mr) by (apply rne_nonneg; assumption).
  rewrite rec_of_exact, shr_rec by lia.
  cbv zeta. cbn [shr_m rec_of]. rewrite Z.mul_1_l. reflexivity.
Qed.

(** The quotient is the same when both terms are scaled. *)
Lemma rne_scale N D c : 0 < D -> 0 < c -> rne (N * c) (D * c) = rne N D.
Proof.
  intros HD Hc. unfold rne. cbv zeta.
  rewrite Z.div_mul_cancel_r by lia.
  rewrite Zmult_mod_distr_r.
  assert (H1 : (2 * (N mod D * c) <? D * c) = (2 * (N mod D) <? D)).
  { destruct (Z.ltb_spec (2 * (N mod D * c)) (D * c)),
      (Z.ltb_spec (2 * (N mod D)) D); try reflexivity; nia. }
  assert (H2 : (2 * (N mod D * c) =? D * c) = (2 * (N mod D) =? D)).
  { destruct (Z.eqb_spec (2 * (N mod D * c)) (D * c)),
      (Z.eqb_spec (2 * (N mod D)) D); try reflexivity; nia. }
  now rewrite H1, H2.
Qed.

Lemma round_spec_scale sx N D c ex :
  0 < D -> 0 < c -> round_spec sx (N * c) (D * c) ex = round_spec sx N D ex.
Proof.
  intros HD Hc. unfold round_spec.
  rewrite Z.div_mul_cancel_r by lia.
  set (n1 := Z.max 0 _).
  replace (D * c * 2 ^ n1) with (D * 2 ^ n1 * c) by ring.
  rewrite rne_scale; [reflexivity | | assumption].
  pose proof (Z.pow_pos_nonneg 2 n1 ltac:(lia) ltac:(lia)). nia.
Qed.

(** *** Valid binary32 numbers *)

Lemma fexp_eq e : fexp F32.prec F32.emax e = Z.max (e - 24) (- 149).
Proof. reflexivity. Qed.

Lemma bounded_facts mx ex :
  bounded F32.prec F32.emax mx ex = true ->
  1 <= Zdigits2 (Zpos mx) <= 24
  /\ - 149 <= ex <= 104
  /\ (Zdigits2 (Zpos mx) = 24 \/ ex = - 149).
Proof.
  unfold bounded, canonical_mantissa. rewrite fexp_eq.
  intros H. apply andb_prop in H. destruct H as [Hc He].
  apply Z.eqb_eq in Hc. apply Z.leb_le in He.
  change (F32.emax - F32.prec) with 104 in He.
  change (Zdigits2 (Zpos mx)) with (Zpos (digits2_pos mx)). lia.
Qed.

(** *** Division by the grid step *)

Lemma ten_eq :
  F32.of_Z GMAP_UNIT_GRID_STEP_SIZE_MM = S754_finite false 10485760 (- 20).
Proof. reflexivity. Qed.

Lemma div_eucl_div_mod a b : Z.div_eucl a b = (a / b, a mod b).
Proof.
  unfold Z.div, Z.modulo. destruct (Z.div_eucl a b). reflexivity.
Qed.

Lemma new_location_rec N D :
  0 < D -> Z.even D = true ->
  shr_record_of_loc (N / D) (new_location D (N mod D)) = rec_of N D.
Proof.
  intros HD Hev. pose proof (Z.mod_pos_bound N D HD) as Hr.
  unfold new_location, new_location_even, rec_of. rewrite Hev.
  set (r := N mod D) in *.
  destruct (Z.eqb_spec r 0) as [Hz | Hne].
  - cbn [shr_record_of_loc]. f_equal;
      destruct (Z.leb_spec D (2 * r)), (Z.eqb_spec (2 * r) D), (Z.eqb_spec r 0);
      cbn; try reflexivity; lia.
  - change (2 * r ?= D) with (Z.compare (2 * r) D).
    destruct (Z.compare_spec (2 * r) D) as [Heq | Hlt | Hgt];
      cbn [shr_record_of_loc]; f_equal;
      destruct (Z.leb_spec D (2 * r)), (Z.eqb_spec (2 * r) D), (Z.eqb_spec r 0);
      cbn; try reflexivity; lia.
Qed.

Lemma div_ten_round sx mx ex :
  bounded F32.prec F32.emax mx ex = true ->
  F32.div (S754_finite sx mx ex) (F32.of_Z GMAP_UNIT_GRID_STEP_SIZE_MM)
  = round_spec sx (Zpos mx * 2 ^ (ex - div_exp mx ex)) 10 (div_exp mx ex).
Proof.
  intros Hb. destruct (bounded_facts mx ex Hb) as (Hd & He & Hcan).
  rewrite ten_eq. unfold F32.div, SFdiv, SFdiv_core_binary.
  change (Zdigits2 (Zpos 10485760)) with 24.
  rewrite fexp_eq.
  set (d1 := Zdigits2 (Zpos mx)) in *.
  replace (Z.min (Z.max (d1 + ex - (24 + - 20) - 24) (- 149)) (ex - - 20))
    with (div_exp mx ex) by (unfold div_exp; fold d1; lia).
  set (e' := div_exp mx ex).
  assert (He' : - 149 <= e' <= ex) by (unfold e', div_exp; fold d1; lia).
  cbv zeta.
  assert (Hs : match ex - - 20 - e' with
               | 0 => Zpos mx
               | Zpos _ => Z.shiftl (Zpos mx) (ex - - 20 - e')
               | Zneg _ => 0
               end = Zpos mx * 2 ^ (ex - e') * 2 ^ 20).
  { destruct (ex - - 20 - e') as [| p | p] eqn:Heq; try lia.
    rewrite Z.shiftl_mul_pow2 by lia. rewrite <- Heq.
    replace (ex - - 20 - e') with (ex - e' + 20) by lia.
    rewrite Z.pow_add_r by lia. ring. }
  rewrite Hs. rewrite div_eucl_div_mod.
  set (N := Zpos mx * 2 ^ (ex - e') * 2 ^ 20).
  assert (HN : 0 <= N).
  { unfold N. pose proof (Z.pow_pos_nonneg 2 (ex - e') ltac:(lia) ltac:(lia)).
    change (2 ^ 20) with 1048576. nia. }
  rewrite (binary_round_aux_rec _ N 10485760 e') by
    (first [assumption | lia | apply new_location_rec; [lia | reflexivity]]).
  replace (xorb sx false) with sx by (destruct sx; reflexivity).
  unfold N. change 10485760 with (10 * 2 ^ 20).
  apply round_spec_scale; [lia | reflexivity].
Qed.

(** *** The integral part of a rounded quotient *)

Lemma Zdigits2_nonneg m : 0 <= Zdigits2 m.
Proof. destruct m; cbn; lia. Qed.

Lemma Zdigits2_le0 m k : 0 <= m -> 0 <= k -> m < 2 ^ k -> Zdigits2 m <= k.
Proof.
  intros Hm Hk Hlt. destruct (Z.eq_dec m 0) as [-> | Hne]; [cbn; lia |].
  apply Zdigits2_le; lia.
Qed.

(** The integral part of the result of the rounding step, when the result
    is below 2^24 and its exponent is not positive. *)
Lemma truncate_round_spec sx N D ex :
  0 <= N -> 0 < D ->
  let n1 := Z.max 0 (fexp F32.prec F32.emax (Zdigits2 (N / D) + ex) - ex) in
  let e1 := ex + n1 in
  let mr := rne N (D * 2 ^ n1) in
  - 149 <= e1 <= 0 -> mr < 2 ^ (24 - e1) ->
  F32.truncate (round_spec sx N D ex) = Some (cond_Zopp sx (mr / 2 ^ (- e1))).
Proof.
  intros HN HD n1 e1 mr He1 Hmr.
  assert (Hn1 : 0 <= n1) by (unfold n1; lia).
  assert (HD1 : 0 < D * 2 ^ n1)
    by (pose proof (Z.pow_pos_nonneg 2 n1 ltac:(lia) ltac:(lia)); nia).
  assert (Hmr0 : 0 <= mr) by (apply rne_nonneg; assumption).
  unfold round_spec. fold n1. fold e1. fold mr. cbv zeta.
  rewrite fexp_eq.
  assert (Hdig : Zdigits2 mr <= 24 - e1) by (apply Zdigits2_le0; lia).
  pose proof (Zdigits2_nonneg mr) as Hdig0.
  set (n2 := Z.max 0 (Z.max (Zdigits2 mr + e1 - 24) (- 149) - e1)).
  assert (Hn2 : 0 <= n2 <= - e1) by (unfold n2; lia).
  assert (Hsplit : mr / 2 ^ (- e1) = mr / 2 ^ n2 / 2 ^ (- e1 - n2)).
  { rewrite Z.div_div by (try apply Z.pow_pos_nonneg; lia).
    rewrite <- Z.pow_add_r by lia. f_equal. f_equal. lia. }
  rewrite Hsplit.
  assert (Hm2 : 0 <= mr / 2 ^ n2)
    by (apply Z.div_pos; [lia | apply Z.pow_pos_nonneg; lia]).
  destruct (mr / 2 ^ n2) as [| m2 | m2] eqn:Hm2eq;
    [| | lia].
  - cbn [F32.truncate]. rewrite Z.div_0_l by
      (pose proof (Z.pow_pos_nonneg 2 (- e1 - n2) ltac:(lia) ltac:(lia)); lia).
    destruct sx; reflexivity.
  - destruct (Z.leb_spec (e1 + n2) (F32.emax - F32.prec)) as [_ | Hov];
      [| change (F32.emax - F32.prec) with 104 in Hov; lia].
    cbn [F32.truncate]. rewrite Z.shiftl_div_pow2 by lia.
    replace (- (e1 + n2)) with (- e1 - n2) by lia. reflexivity.
Qed.

Lemma succ_div_same a b :
  0 <= a -> 0 < b -> (a + 1) / b <> a / b -> (a + 1) mod b = 0.
Proof.
  intros Ha Hb Hne.
  pose proof (Z.div_mod a b ltac:(lia)) as H1.
  pose proof (Z.mod_pos_bound a b Hb) as H2.
  pose proof (Z.div_mod (a + 1) b ltac:(lia)) as H3.
  pose proof (Z.mod_pos_bound (a + 1) b Hb) as H4.
  destruct (Z.eq_dec ((a + 1) mod b) 0) as [| Hnz]; [assumption | exfalso].
  apply Hne. symmetry.
  apply (Z.div_unique_pos (a + 1) b (a / b) (a mod b + 1)); [| lia].
  assert ((a + 1) / b = a / b \/ (a + 1) / b = a / b + 1) as [He | He] by nia;
    nia.
Qed.

(** Rounding to nearest does not carry into the next multiple of [2 ^ k]
    when the quotient by ten times a power of two of a number with enough
    trailing zeros is rounded. *)
Lemma rne_no_carry N0 n1 k :
  0 <= N0 -> 0 <= n1 -> 2 <= k ->
  N0 mod 2 ^ (n1 + 3) = 0 ->
  rne N0 (10 * 2 ^ n1) / 2 ^ k = N0 / (10 * 2 ^ n1 * 2 ^ k).
Proof.
  intros HN Hn1 Hk Hdiv.
  pose proof (Z.pow_pos_nonneg 2 n1 ltac:(lia) ltac:(lia)) as HT.
  pose proof (Z.pow_pos_nonneg 2 k ltac:(lia) ltac:(lia)) as HK.
  set (T := 2 ^ n1) in *. set (K := 2 ^ k) in *.
  rewrite <- Z.div_div by lia.
  destruct (rne_cases N0 (10 * T) HN ltac:(lia)) as [[-> _] | [-> Hhalf]];
    [reflexivity |].
  set (m1 := N0 / (10 * T)) in *. set (rho := N0 mod (10 * T)) in *.
  assert (Hm1 : 0 <= m1) by (apply Z.div_pos; lia).
  destruct (Z.eq_dec ((m1 + 1) / K) (m1 / K)) as [| Hne]; [assumption |].
  exfalso.
  pose proof (succ_div_same m1 K Hm1 HK Hne) as Hcarry.
  pose proof (Z.div_mod N0 (10 * T) ltac:(lia)) as HdivN. fold m1 rho in HdivN.
  pose proof (Z.mod_pos_bound N0 (10 * T) ltac:(lia)) as Hrho. fold rho in Hrho.
  (* m1 + 1 is a multiple of 4 *)
  assert (H4 : exists j, m1 + 1 = 4 * j).
  { apply Z.mod_divide in Hcarry; [| lia]. destruct Hcarry as [j Hj].
    exists (j * 2 ^ (k - 2)). rewrite Hj. unfold K.
    replace k with (2 + (k - 2)) at 1 by lia.
    rewrite Z.pow_add_r by lia. change (2 ^ 2) with 4. ring. }
  destruct H4 as [j Hj].
  (* N0 is a multiple of 8 T *)
  assert (H8 : exists c, N0 = 8 * T * c).
  { apply Z.mod_divide in Hdiv;
      [| pose proof (Z.pow_pos_nonneg 2 (n1 + 3) ltac:(lia) ltac:(lia)); lia].
    destruct Hdiv as [c Hc]. exists c. rewrite Hc.
    rewrite Z.pow_add_r by lia. change (2 ^ 3) with 8. unfold T. ring. }
  destruct H8 as [c Hc].
  assert (Hrho_eq : rho = T * (10 + 8 * (c - 5 * j))) by nia.
  set (u := 10 + 8 * (c - 5 * j)) in *.
  assert (5 <= u < 10) by nia.
  unfold u in *. lia.
Qed.

(** The integral part of the binary32 quotient by ten is the integral part
    of the exact quotient, for a dividend below 10 * 2^22. The dividend
    enters in units of 2^-149, the smallest step of the format. *)
Lemma div_ten_truncate sx mx ex :
  bounded F32.prec F32.emax mx ex = true ->
  Zpos mx * 2 ^ (ex + 149) < 41943040 * 2 ^ 149 ->
  F32.truncate (F32.div (S754_finite sx mx ex)
                  (F32.of_Z GMAP_UNIT_GRID_STEP_SIZE_MM))
  = Some (cond_Zopp sx (Zpos mx * 2 ^ (ex + 149) / (10 * 2 ^ 149))).
Proof.
  intros Hb Hlt. destruct (bounded_facts mx ex Hb) as (Hd & He & Hcan).
  rewrite div_ten_round by assumption.
  pose proof (Zdigits2_bounds (Zpos mx) ltac:(lia)) as [Hmlo Hmhi].
  unfold div_exp. set (d1 := Zdigits2 (Zpos mx)) in *.
  set (P := 2 ^ 149) in *.
  assert (HP : 0 < P) by (apply Z.pow_pos_nonneg; lia).
  (* the magnitude bounds the exponent *)
  assert (Hsum : d1 + ex <= 26).
  { destruct (Z.le_gt_cases (d1 + ex) 26) as [| Hgt]; [assumption | exfalso].
    assert (H1 : 2 ^ 175 <= 2 ^ (d1 - 1) * 2 ^ (ex + 149)).
    { rewrite <- Z.pow_add_r by lia. apply Z.pow_le_mono_r; lia. }
    assert (H2 : 2 ^ (d1 - 1) * 2 ^ (ex + 149) <= Zpos mx * 2 ^ (ex + 149)).
    { apply Z.mul_le_mono_nonneg_r; [apply Z.pow_nonneg; lia | assumption]. }
    assert (H3 : 2 ^ 175 = 67108864 * P) by reflexivity.
    lia. }
  set (e' := Z.max (d1 + ex - 28) (- 149)).
  set (w := ex - e').
  assert (He' : - 149 <= e' <= - 2) by (unfold e'; lia).
  assert (Hw : 0 <= w) by (unfold w, e'; lia).
  set (N0 := Zpos mx * 2 ^ w).
  assert (HN0 : 0 <= N0)
    by (unfold N0; pose proof (Z.pow_pos_nonneg 2 w ltac:(lia) ltac:(lia)); nia).
  set (S := 2 ^ (e' + 149)).
  assert (HS : 0 < S) by (apply Z.pow_pos_nonneg; lia).
  assert (HX : Zpos mx * 2 ^ (ex + 149) = N0 * S).
  { unfold N0, S. replace (ex + 149) with (w + (e' + 149)) by (unfold w; lia).
    rewrite Z.pow_add_r by lia. ring. }
  assert (HPS : P = 2 ^ (- e') * S).
  { unfold P, S. rewrite <- Z.pow_add_r by lia. f_equal. lia. }
  rewrite HX. rewrite HX in Hlt.
  replace (10 * P) with (10 * 2 ^ (- e') * S) by (rewrite HPS; ring).
  rewrite Z.div_mul_cancel_r by
    (pose proof (Z.pow_pos_nonneg 2 (- e') ltac:(lia) ltac:(lia)); lia).
  assert (HN0lt : N0 < 10 * 2 ^ (22 - e')).
  { replace (22 - e') with (22 + - e') by lia. rewrite Z.pow_add_r by lia.
    change (2 ^ 22) with 4194304. rewrite HPS in Hlt.
    pose proof (Z.pow_pos_nonneg 2 (- e') ltac:(lia) ltac:(lia)). nia. }
  clear HX Hlt HPS.
  (* the first shift *)
  set (q := N0 / 10).
  assert (Hq0 : 0 <= q) by (apply Z.div_pos; lia).
  assert (Hqlt : q < 2 ^ (22 - e')).
  { apply Z.div_lt_upper_bound; lia. }
  assert (Hdq : Zdigits2 q <= 22 - e') by (apply Zdigits2_le0; lia).
  pose proof (Zdigits2_nonneg q) as Hdq0.
  assert (Hn1eq : Z.max 0 (fexp F32.prec F32.emax (Zdigits2 q + e') - e')
                  = Z.max 0 (Zdigits2 q - 24)) by (rewrite fexp_eq; lia).
  pose proof (truncate_round_spec sx N0 10 e' HN0 ltac:(lia)) as Htr.
  cbv zeta in Htr. fold q in Htr. rewrite Hn1eq in Htr.
  set (n1 := Z.max 0 (Zdigits2 q - 24)) in *.
  assert (Hn1 : 0 <= n1) by (unfold n1; lia).
  set (e1 := e' + n1) in *.
  assert (He1 : - 149 <= e1 <= - 2) by (unfold e1, n1; lia).
  set (mr := rne N0 (10 * 2 ^ n1)) in *.
  pose proof (Z.pow_pos_nonneg 2 n1 ltac:(lia) ltac:(lia)) as HT.
  assert (Hm1lt : N0 / (10 * 2 ^ n1) < 2 ^ (22 - e1)).
  { apply Z.div_lt_upper_bound; [lia |].
    replace (22 - e') with (n1 + (22 - e1)) in HN0lt by (unfold e1; lia).
    rewrite Z.pow_add_r in HN0lt by lia. lia. }
  assert (Hmrle : mr <= N0 / (10 * 2 ^ n1) + 1).
  { unfold mr. destruct (rne_cases N0 (10 * 2 ^ n1) HN0 ltac:(lia))
      as [[-> _] | [-> _]]; lia. }
  assert (Hmrlt : mr < 2 ^ (24 - e1)).
  { replace (24 - e1) with (2 + (22 - e1)) by lia. rewrite Z.pow_add_r by lia.
    change (2 ^ 2) with 4.
    pose proof (Z.pow_pos_nonneg 2 (22 - e1) ltac:(lia) ltac:(lia)). lia. }
  rewrite Htr by (first [lia | assumption]).
  f_equal. f_equal.
  (* no carry into the next integer *)
  destruct (Z.le_gt_cases (n1 + 3) w) as [Hwide | Hnarrow].
  - unfold mr. rewrite rne_no_carry; try lia.
    + rewrite <- Z.mul_assoc, <- Z.pow_add_r by lia.
      do 3 f_equal. unfold e1. lia.
    + unfold N0. replace w with ((w - (n1 + 3)) + (n1 + 3)) by lia.
      rewrite Z.pow_add_r by lia. rewrite Z.mul_assoc. apply Z.mod_mul.
      pose proof (Z.pow_pos_nonneg 2 (n1 + 3) ltac:(lia) ltac:(lia)). lia.
  - assert (Hn1z : n1 = 0).
    { destruct (Z.eq_dec n1 0) as [| Hne]; [assumption | exfalso].
      assert (Hqd : 25 <= Zdigits2 q) by (unfold n1 in *; lia).
      assert (Hqpos : 0 < q) by (destruct q; cbn in Hqd; lia).
      assert (H3 : 3 <= d1 + w).
      { destruct (Z.le_gt_cases 3 (d1 + w)) as [| Hlt3]; [assumption | exfalso].
        assert (N0 < 8).
        { unfold N0.
          assert (Zpos mx * 2 ^ w < 2 ^ d1 * 2 ^ w)
            by (apply Z.mul_lt_mono_pos_r;
                [apply Z.pow_pos_nonneg; lia | assumption]).
          rewrite <- Z.pow_add_r in H by lia.
          assert (2 ^ (d1 + w) <= 2 ^ 3) by (apply Z.pow_le_mono_r; lia).
          change (2 ^ 3) with 8 in *. lia. }
        assert (q = 0) by (unfold q; apply Z.div_small; lia). lia. }
      assert (Hq2 : q < 2 ^ (d1 + w - 3)).
      { apply Z.div_lt_upper_bound; [lia |].
        assert (Zpos mx * 2 ^ w < 2 ^ d1 * 2 ^ w)
          by (apply Z.mul_lt_mono_pos_r;
              [apply Z.pow_pos_nonneg; lia | assumption]).
        rewrite <- Z.pow_add_r in H by lia.
        replace (d1 + w) with (3 + (d1 + w - 3)) in H by lia.
        rewrite Z.pow_add_r in H by lia. change (2 ^ 3) with 8 in H.
        pose proof (Z.pow_pos_nonneg 2 (d1 + w - 3) ltac:(lia) ltac:(lia)).
        fold N0 in H. lia. }
      assert (Zdigits2 q <= d1 + w - 3) by (apply Zdigits2_le; lia).
      unfold n1 in *. lia. }
    assert (Hw2 : w <= 2) by lia.
    assert (He'149 : e' = - 149) by (unfold w, e' in *; lia).
    assert (HN0small : N0 < 2 ^ 26).
    { unfold N0.
      assert (Zpos mx < 2 ^ 24).
      { assert (2 ^ d1 <= 2 ^ 24) by (apply Z.pow_le_mono_r; lia). lia. }
      assert (2 ^ w <= 2 ^ 2) by (apply Z.pow_le_mono_r; lia).
      change (2 ^ 2) with 4 in *. change (2 ^ 24) with 16777216 in *.
      change (2 ^ 26) with 67108864.
      pose proof (Z.pow_pos_nonneg 2 w ltac:(lia) ltac:(lia)). nia. }
    assert (He1149 : e1 = - 149) by (unfold e1; lia).
    rewrite He1149, He'149. change (- - 149) with 149.
    assert (Hmrsmall : mr < 2 ^ 149).
    { assert (N0 / (10 * 2 ^ n1) <= N0)
        by (apply Z.div_le_upper_bound; nia).
      assert (2 ^ 26 + 1 < 2 ^ 149) by reflexivity. lia. }
    assert (Hmr0 : 0 <= mr) by (apply rne_nonneg; lia).
    rewrite Z.div_small by lia.
    rewrite Z.div_small; [reflexivity |].
    assert (2 ^ 26 < 10 * 2 ^ 149) by reflexivity. lia.
Qed.

(** *** Results that need no rounding *)






Lemma cond_Zopp_mul s a b : cond_Zopp s a * b = cond_Zopp s (a * b).
Proof. destruct s; cbn; lia. Qed.


Lemma is_binary32_finite s m e :
  is_binary32 (S754_finite s m e) = bounded F32.prec F32.emax m e.
Proof. unfold is_binary32. cbn. apply andb_true_r. Qed.



Lemma is_binary32_cases f :
  is_binary32 f = true ->
  (exists s, f = S754_zero s)
  \/ (exists s m e, f = S754_finite s m e
                    /\ bounded F32.prec F32.emax m e = true).
Proof.
  destruct f as [s | s | | s m e]; intros H; try discriminate.
  - left. eauto.
  - right. exists s, m, e. rewrite is_binary32_finite in H. auto.
Qed.







(** *** The conversion to pixels, in units *)

Lemma mm_to_pixel_units x :
  is_binary32 x = true ->
  Z.abs (units x) < 41943040 * 2 ^ 149 ->
  GMAP_MM_TO_UNIT_PIXEL x = Some (units x ÷ (10 * 2 ^ 149)).
Proof.
  intros Hx Hlt. unfold GMAP_MM_TO_UNIT_PIXEL, F32.to_int32.
  set (P := 2 ^ 149) in *.
  assert (HP : 0 < P) by (apply Z.pow_pos_nonneg; lia).
  destruct (is_binary32_cases x Hx) as [[s ->] | (s & m & e & -> & Hb)].
  - rewrite ten_eq. cbn. reflexivity.
  - destruct (bounded_facts m e Hb) as (_ & He & _).
    pose proof (Z.pow_pos_nonneg 2 (e + 149) ltac:(lia) ltac:(lia)) as Hp.
    cbn [units] in Hlt |- *.
    assert (Hmag : Zpos m * 2 ^ (e + 149) < 41943040 * P)
      by (destruct s; cbn [cond_Zopp] in Hlt; lia).
    rewrite div_ten_truncate by assumption. fold P.
    cbn [mbind option_bind].
    set (X := Zpos m * 2 ^ (e + 149)) in *.
    assert (HX : 0 <= X) by (unfold X; nia).
    assert (Hq : 0 <= X / (10 * P) < 4194304).
    { split; [apply Z.div_pos; lia |].
      apply Z.div_lt_upper_bound; lia. }
    assert (Heq : cond_Zopp s X ÷ (10 * P) = cond_Zopp s (X / (10 * P))).
    { destruct s; cbn [cond_Zopp].
      - rewrite Z.quot_opp_l by lia. rewrite Z.quot_div_nonneg by lia. reflexivity.
      - apply Z.quot_div_nonneg; lia. }
    rewrite Heq.
    assert (Hr : - 2 ^ 31 <= cond_Zopp s (X / (10 * P)) < 2 ^ 31)
      by (change (2 ^ 31) with 2147483648; destruct s; cbn [cond_Zopp]; lia).
    destruct (Z.leb_spec (- 2 ^ 31) (cond_Zopp s (X / (10 * P)))); [| lia].
    destruct (Z.ltb_spec (cond_Zopp s (X / (10 * P))) (2 ^ 31)); [| lia].
    reflexivity.
Qed.

(** *** One tick without rounding *)




(** *** A run without rounding *)


(** *** Units and rationals *)

Lemma two_neq_0 : ~ (2 == 0)%Q.
Proof. discriminate. Qed.

Lemma step_pos : (0 < Qpower 2 (- 149))%Q.
Proof. apply Qpower_0_lt. reflexivity. Qed.

Lemma Qpower2_units e :
  - 149 <= e -> (Qpower 2 e == of_units (2 ^ (e + 149)))%Q.
Proof.
  intros He. unfold of_units. rewrite Zpower_Qpower by lia.
  change (inject_Z 2) with 2%Q.
  rewrite <- Qpower_plus by apply two_neq_0.
  replace (e + 149 + - 149) with e by lia. reflexivity.
Qed.

Lemma of_units_mul k z : (inject_Z k * of_units z == of_units (k * z))%Q.
Proof. unfold of_units. rewrite inject_Z_mult. ring. Qed.


Lemma of_units_opp a : (- of_units a == of_units (- a))%Q.
Proof. unfold of_units. rewrite inject_Z_opp. ring. Qed.


Lemma of_units_lt a b : (of_units a < of_units b)%Q <-> a < b.
Proof.
  unfold of_units. rewrite Qmult_lt_r by apply step_pos.
  rewrite <- Zlt_Qlt. reflexivity.
Qed.


Lemma of_units_abs a : (Qabs (of_units a) == of_units (Z.abs a))%Q.
Proof.
  unfold of_units. rewrite Qabs_Qmult.
  rewrite (Qabs_pos (Qpower 2 (- 149))) by (apply Qlt_le_weak, step_pos).
  apply Qmult_comp; [| reflexivity].
  unfold Qabs, inject_Z. reflexivity.
Qed.

Lemma of_units_whole z : (inject_Z z == of_units (z * 2 ^ 149))%Q.
Proof.
  unfold of_units. rewrite inject_Z_mult, Zpower_Qpower by lia.
  change (inject_Z 2) with 2%Q.
  rewrite <- Qmult_assoc, <- Qpower_plus by apply two_neq_0.
  change (Qpower 2 (149 + - 149)) with 1%Q. ring.
Qed.

Lemma to_Q_units f :
  is_binary32 f = true -> (F32.to_Q f == of_units (units f))%Q.
Proof.
  intros Hf.
  destruct (is_binary32_cases f Hf) as [[s ->] | (s & m & e & -> & Hb)].
  - cbn [F32.to_Q units]. unfold of_units. ring.
  - destruct (bounded_facts m e Hb) as (_ & He & _).
    cbn [F32.to_Q units]. rewrite Qpower2_units by lia.
    rewrite of_units_mul. rewrite cond_Zopp_mul. reflexivity.
Qed.


(** *** The integral part of a rational *)

Lemma Q_truncate_comp p q : (p == q)%Q -> Q_truncate p = Q_truncate q.
Proof.
  destruct p as [a b], q as [c d]. unfold Qeq, Q_truncate. cbn [Qnum Qden].
  intros H.
  rewrite <- (Z.quot_mul_cancel_r a (Zpos b) (Zpos d)) by lia.
  rewrite H. rewrite (Z.mul_comm (Zpos b)).
  apply Z.quot_mul_cancel_r; lia.
Qed.

Lemma Q_truncate_units z :
  Q_truncate (of_units z / 10) = z ÷ (10 * 2 ^ 149).
Proof.
  set (D := Z.to_pos (10 * 2 ^ 149)).
  assert (HD : Zpos D = 10 * 2 ^ 149) by reflexivity.
  assert (H : (of_units z / 10 == z # D)%Q).
  { rewrite (Qmake_Qdiv z D), HD.
    unfold of_units. set (P := 2 ^ 149). set (s := Qpower 2 (- 149)).
    assert (HP1 : ~ (inject_Z P == 0)%Q).
    { change 0%Q with (inject_Z 0). rewrite inject_Z_injective. discriminate. }
    assert (Hs : (s == / inject_Z P)%Q).
    { pose proof (of_units_whole 1) as H1. unfold of_units in H1.
      rewrite Z.mul_1_l in H1. fold P s in H1.
      apply (Qmult_inj_r _ _ (inject_Z P)); [assumption |].
      rewrite (Qmult_comm (/ inject_Z P)), Qmult_inv_r by assumption.
      rewrite Qmult_comm. symmetry. exact H1. }
    rewrite Hs, inject_Z_mult. change (inject_Z 10) with 10%Q.
    field. exact HP1. }
  rewrite (Q_truncate_comp _ _ H). unfold Q_truncate. cbn [Qnum Qden].
  rewrite HD. reflexivity.
Qed.

Lemma to_Q_abs_units f :
  is_binary32 f = true -> (Qabs (F32.to_Q f) == of_units (Z.abs (units f)))%Q.
Proof.
  intros Hf. rewrite to_Q_units by assumption. apply of_units_abs.
Qed.


(** The two binary32 numbers from 10 * 2^22 up to the first displacement
    whose quotient is rounded up to the next integer. *)
Lemma binary32_near_bound m e :
  bounded F32.prec F32.emax m e = true ->
  41943040 * 2 ^ 149 <= Zpos m * 2 ^ (e + 149) < 41943048 * 2 ^ 149 ->
  e = 2 /\ (m = 10485760%positive \/ m = 10485761%positive).
Proof.
  intros Hb [Hlo Hhi]. destruct (bounded_facts m e Hb) as (Hd & He & Hcan).
  pose proof (Zdigits2_bounds (Zpos m) ltac:(lia)) as [Hmlo Hmhi].
  set (P := 2 ^ 149) in *.
  assert (HP : 0 < P) by (apply Z.pow_pos_nonneg; lia).
  assert (Hm24 : Zpos m < 2 ^ 24).
  { assert (2 ^ Zdigits2 (Zpos m) <= 2 ^ 24) by (apply Z.pow_le_mono_r; lia). lia. }
  change (2 ^ 24) with 16777216 in Hm24.
  assert (He2 : e = 2).
  { destruct (Z.lt_trichotomy e 2) as [Hlt | [Heq | Hgt]]; [exfalso | assumption | exfalso].
    - assert (2 ^ (e + 149) <= 2 ^ 150) by (apply Z.pow_le_mono_r; lia).
      change (2 ^ 150) with (2 * P) in *.
      pose proof (Z.pow_pos_nonneg 2 (e + 149) ltac:(lia) ltac:(lia)). nia.
    - assert (Hn : Zdigits2 (Zpos m) = 24) by lia. rewrite Hn in Hmlo.
      change (2 ^ (24 - 1)) with 8388608 in Hmlo.
      assert (2 ^ 152 <= 2 ^ (e + 149)) by (apply Z.pow_le_mono_r; lia).
      change (2 ^ 152) with (8 * P) in *. nia. }
  split; [assumption |]. subst e. change (2 ^ (2 + 149)) with (4 * P) in *.
  assert (10485760 <= Zpos m < 10485762) by nia. lia.
Qed.

(** The conversion to pixels up to the sharp bound. *)
Lemma mm_to_pixel_units_sharp x :
  is_binary32 x = true ->
  Z.abs (units x) < 41943048 * 2 ^ 149 ->
  GMAP_MM_TO_UNIT_PIXEL x = Some (units x ÷ (10 * 2 ^ 149)).
Proof.
  intros Hx Hlt.
  destruct (Z.lt_ge_cases (Z.abs (units x)) (41943040 * 2 ^ 149)) as [Hin | Hout].
  - apply mm_to_pixel_units; assumption.
  - destruct (is_binary32_cases x Hx) as [[s ->] | (s & m & e & -> & Hb)].
    + cbn [units] in Hout. cbn in Hout. lia.
    + destruct (bounded_facts m e Hb) as (_ & He & _).
      pose proof (Z.pow_pos_nonneg 2 (e + 149) ltac:(lia) ltac:(lia)) as Hp.
      cbn [units] in Hlt, Hout.
      destruct (binary32_near_bound m e Hb) as [-> [-> | ->]].
      { destruct s; cbn [cond_Zopp] in Hlt, Hout; lia. }
      * destruct s; vm_compute; reflexivity.
      * destruct s; vm_compute; reflexivity.
Qed.

(** The conversion to pixels discards the fraction of the exact quotient,
    for every binary32 displacement below 41943048 mm. *)
Lemma mm_to_pixel_truncates_sharp x :
  is_binary32 x = true -> (Qabs (F32.to_Q x) < 41943048)%Q ->
  GMAP_MM_TO_UNIT_PIXEL x = Some (Q_truncate (F32.to_Q x / 10)).
Proof.
  intros Hx Hlt.
  rewrite to_Q_abs_units in Hlt by assumption.
  rewrite (of_units_whole 41943048) in Hlt.
  apply (proj1 (of_units_lt _ _)) in Hlt.
  rewrite mm_to_pixel_units_sharp by assumption.
  f_equal. rewrite <- Q_truncate_units. apply Q_truncate_comp.
  rewrite to_Q_units by assumption. reflexivity.
Qed.

(** *** Conservation *)



Lemma drift_quarters_case :
  drift_run [S754_finite false 8388608 (- 24); S754_finite false 8388608 (- 25);
             S754_finite false 9961472 (- 20); S754_finite false 9961472 (- 20)]
    (S754_finite false 8388608 (- 25))
  = Some ([0; 0; 1; 1], S754_zero false).
Proof. vm_compute. reflexivity. Qed.

(** On whole millimetres, through the evaluation of every tick:
    for requests that are whole millimetres of at most one map edge
    (1000 mm) and a first leftover that is a whole millimetre inside one
    step, every operation is exact, so on one axis the shifts times the
    step plus the last leftover equal the requests plus the first
    leftover, and the last leftover is again inside one step. *)
Lemma drift_conservation_whole_mm (requests : list Z) (l0 : Z) :
  Forall (fun r => - 1000 <= r <= 1000) requests -> - 10 < l0 < 10 ->
  exists shifts offset_end,
    drift_run (map F32.of_Z requests) (F32.of_Z l0) = Some (shifts, offset_end)
    /\ conserved (map F32.of_Z requests) (F32.of_Z l0) shifts offset_end
    /\ (- 10 < F32.to_Q offset_end < 10)%Q.
Proof.
  intros Hreq Hl0.
  destruct (drift_run_whole requests l0 Hreq Hl0) as (shifts & lN & Hrun & HlN & Hsum).
  exists shifts, (F32.of_Z lN). split; [assumption |]. split.
  - unfold conserved. change GMAP_UNIT_GRID_STEP_SIZE_MM with 10.
    rewrite sum_Q_of_Z, !to_Q_of_Z by (assumption || lia).
    rewrite <- !inject_Z_plus. now rewrite Hsum.
  - rewrite to_Q_of_Z by lia.
    split; [change (- 10)%Q with (inject_Z (- 10)) | change 10%Q with (inject_Z 10)];
      rewrite <- Zlt_Qlt; lia.
Qed.

(** The concrete case: requests [-10.0; -10.0] from a zero leftover give the
    shifts [-1; -1] and the leftover 0. *)
Lemma drift_conservation_whole_mm_witness :
  exists shifts offset_end,
    drift_run (map F32.of_Z [- 10; - 10]) (F32.of_Z 0) = Some (shifts, offset_end)
    /\ conserved (map F32.of_Z [- 10; - 10]) (F32.of_Z 0) shifts offset_end
    /\ (- 10 < F32.to_Q offset_end < 10)%Q.
Proof.
  apply (drift_conservation_whole_mm [- 10; - 10] 0).
  - repeat constructor; lia.
  - lia.
Defined.

Lemma drift_concrete_case :
  drift_run [mock_mm; mock_mm] (S754_zero false)
  = Some ([- 1; - 1], S754_zero false).
Proof. vm_compute. reflexivity. Qed.


(** The product of the shift and the step rounds as well. A request of
    67108888 mm on a zero leftover is added exactly; the quotient
    6710888.8 is rounded to 6710889 by the division, and ten times that,
    67108890, is not a binary32 number: the product is rounded to
    67108888, the leftover is 0, and 2 mm are gained. *)
Lemma drift_product_rounds :
  let r : float32 := F32.of_Z 67108888 in
  is_binary32 r = true
  /\ (F32.to_Q r == 67108888)%Q
  /\ F32.add r (S754_zero false) = r
  /\ GMAP_MM_TO_UNIT_PIXEL r = Some 6710889
  /\ GMAP_UNIT_PIXEL_TO_MM 6710889 = r
  /\ drift_run [r] (S754_zero false) = Some ([6710889], S754_zero false)
  /\ ~ conserved [r] (S754_zero false) [6710889] (S754_zero false).
Proof.
  cbv zeta. repeat split; try (vm_compute; reflexivity).
  unfold conserved. intros H. vm_compute in H. discriminate.
Qed.

(** ** Rounding policy *)

Lemma mm_to_pixel_whole_checked :
  all_in_range 2019 (- 1009)
    (fun c => match GMAP_MM_TO_UNIT_PIXEL (F32.of_Z c) with
              | Some d => d =? c ÷ 10
              | None => false
              end) = true.
Proof. vm_compute. reflexivity. Qed.

(** C5 (as the code has it). The conversion from millimetres to pixels
    truncates toward zero: for every binary32 displacement of magnitude
    below 41943048 mm, whole or fractional, the result is the integral part
    of the exact quotient by the step, toward zero. On whole millimetres it
    is the quotient [÷], which differs from the floor [/] on negative
    values. A combined displacement of -5.0 mm (the request -5.0 on a zero
    leftover, or the source's request -10.0 on a leftover of +5.0) gives
    the shift 0 and the leftover -5.0 mm, where the floor would give -1. *)
Theorem truncation_toward_zero :
  (forall d_mm : float32,
     is_binary32 d_mm = true -> (Qabs (F32.to_Q d_mm) < 41943048)%Q ->
     GMAP_MM_TO_UNIT_PIXEL d_mm = Some (Q_truncate (F32.to_Q d_mm / 10)))
  /\ (forall c, - 1009 <= c <= 1009 ->
     GMAP_MM_TO_UNIT_PIXEL (F32.of_Z c) = Some (c ÷ 10))
  /\ GMAP_MM_TO_UNIT_PIXEL (F32.of_Z (- 5)) = Some 0
  /\ drift_axis (F32.of_Z (- 5)) (F32.of_Z 0) = Some (0, F32.of_Z (- 5))
  /\ drift_axis mock_mm (F32.of_Z 5) = Some (0, F32.of_Z (- 5))
  /\ (F32.to_Q (F32.of_Z (- 5)) == - 5)%Q
  /\ (F32.to_Q mock_mm == - 10)%Q
  /\ (- 5) ÷ 10 = 0 /\ (- 5) / 10 = - 1.
Proof.
  split; [exact mm_to_pixel_truncates_sharp |].
  split.
  { intros c Hc.
    pose proof (all_in_range_spec _ _ _ mm_to_pixel_whole_checked c ltac:(lia)) as H.
    cbv beta in H.
    destruct (GMAP_MM_TO_UNIT_PIXEL (F32.of_Z c)) as [d |]; [| discriminate].
    apply Z.eqb_eq in H. congruence. }
  repeat split; vm_compute; reflexivity.
Qed.

(** A fractional displacement: -9.6 mm (the binary32 number nearest to it)
    gives the shift 0, where the floor of the quotient -0.96 is -1. *)
Lemma truncation_toward_zero_witness :
  let d_mm : float32 := S754_finite true 10066330 (- 20) in
  (- 10 < F32.to_Q d_mm < - 9)%Q
  /\ GMAP_MM_TO_UNIT_PIXEL d_mm = Some (Q_truncate (F32.to_Q d_mm / 10))
  /\ Q_truncate (F32.to_Q d_mm / 10) = 0
  /\ Qfloor (F32.to_Q d_mm / 10) = - 1.
Proof.
  cbv zeta. split; [vm_compute; split; reflexivity |].
  split; [| split; vm_compute; reflexivity].
  destruct truncation_toward_zero as [Hgeneral _].
  apply Hgeneral; vm_compute; reflexivity.
Defined.

(** C5 fails as stated: the division is carried out in binary32 and rounds
    its quotient to nearest before the cast discards the fraction. At
    41943048 mm the quotient 4194304.8 lies between the binary32 numbers
    4194304.5 and 4194305 and is rounded to the latter, so the conversion
    gives 4194305, away from zero. *)
Lemma truncation_beyond_bound :
  let d_mm : float32 := F32.of_Z 41943048 in
  is_binary32 d_mm = true
  /\ (F32.to_Q d_mm == 41943048)%Q
  /\ GMAP_MM_TO_UNIT_PIXEL d_mm = Some 4194305
  /\ Q_truncate (F32.to_Q d_mm / 10) = 4194304
  /\ GMAP_MM_TO_UNIT_PIXEL d_mm <> Some (Q_truncate (F32.to_Q d_mm / 10)).
Proof.
  cbv zeta. repeat split; try (vm_compute; reflexivity).
  vm_compute. discriminate.
Qed.

(** ** The map update as a whole *)

(** When both bands are within the reach of one wrap the map update
    completes: it is the translation by the shifts of [update_shift], the
    storing of the leftovers of [drift_axis], and the footprint clearing
    around the new centre. *)
Lemma globalMapUpdate_with_spec rx ry gMap dx dy :
  wf_map gMap -> center_ok (map_center_pixel gMap) ->
  update_shift rx ry gMap = Some (dx, dy) ->
  band_in_reach (x (map_center_pixel gMap)) dx ->
  band_in_reach (y (map_center_pixel gMap)) dy ->
  exists gMap1 gMap' lx ly,
    app_slam_private_translateGlobalMap dx dy gMap = Some gMap1
    /\ globalMapUpdate_with rx ry gMap = Some gMap'
    /\ wf_map gMap'
    /\ map_center_pixel gMap' = map_center_pixel gMap1
    /\ drift_axis rx (x (map_offset_mm gMap)) = Some (dx, lx)
    /\ drift_axis ry (y (map_offset_mm gMap)) = Some (dy, ly)
    /\ map_offset_mm gMap' = {| x := lx; y := ly |}
    /\ stores_to (fun k => In k (footprint_indices (map_center_pixel gMap1)))
         GRID_CELL_VISITED (data gMap1) (data gMap').
Proof.
  intros Hwf Hc Hsh Hrx Hry.
  destruct (translate_spec gMap dx dy Hwf Hc Hrx Hry)
    as (gMap1 & Htr & Hwf1 & Hc1 & _ & _).
  unfold update_shift in Hsh.
  destruct (GMAP_MM_TO_UNIT_PIXEL (F32.add rx _)) as [dx' |] eqn:Hdx;
    [| discriminate].
  destruct (GMAP_MM_TO_UNIT_PIXEL (F32.add ry _)) as [dy' |] eqn:Hdy;
    [| discriminate].
  cbn [mbind option_bind] in Hsh. injection Hsh as -> ->.
  set (lx := F32.sub (F32.add rx (x (map_offset_mm gMap))) (GMAP_UNIT_PIXEL_TO_MM dx)).
  set (ly := F32.sub (F32.add ry (y (map_offset_mm gMap))) (GMAP_UNIT_PIXEL_TO_MM dy)).
  destruct (clearVehicleRegion_spec_reach
              {| data := data gMap1;
                 map_center_pixel := map_center_pixel gMap1;
                 map_offset_mm := {| x := lx; y := ly |} |})
    as (gMap' & Hclr & Hwf' & Hc' & Hoff' & Hst).
  { exact Hwf1. }
  { cbn [map_center_pixel]. rewrite Hc1. unfold footprint_in_reach. cbn [x y].
    destruct Hc as [Hcx Hcy]. unfold band_in_reach in Hrx, Hry.
    change GMAP_GRID_EDGE_SIZE_PIXEL with 100 in *.
    change GMAP_WN_PIXEL with 101 in *. change GMAP_HN_PIXEL with 101 in *.
    change GMAP_DEFAULT_CENTRAL_X_INDEX_PIXEL with 50 in *.
    split; wrap_goal. }
  exists gMap1, gMap', lx, ly.
  split; [exact Htr |]. split.
  { unfold globalMapUpdate_with. cbv zeta. rewrite Hdx, Hdy.
    cbn [mbind option_bind]. rewrite Htr. cbn [mbind option_bind]. exact Hclr. }
  split; [exact Hwf' |]. split; [exact Hc' |].
  split; [unfold drift_axis; cbv zeta; rewrite Hdx; reflexivity |].
  split; [unfold drift_axis; cbv zeta; rewrite Hdy; reflexivity |].
  split; [exact Hoff' | exact Hst].
Qed.

(** ** The firmware's ticks

    With the source's constant displacement of -10 mm a tick never fails:
    from a state with a zero leftover it shifts the map by one pixel on
    each axis and leaves a zero leftover again. *)

Lemma tick_invariant_init : tick_invariant app_slam_init.
Proof.
  split; [vm_compute; reflexivity |].
  split; [vm_compute; repeat split; discriminate | reflexivity].
Qed.

(** ** The centre through the operations *)

(** A state reached through the operations: from the initial state the
    translation by (100, -50), whose column wraps past the right edge,
    then the footprint clearing, then the map update for a displacement of
    (-10.0, -10.0) mm. The centre goes from (50, 50) to (49, 0) and then,
    wrapping below row 0, to (48, 100). *)
Lemma center_index_invariant_witness :
  exists gMap1 gMap2 gMap3,
    app_slam_private_translateGlobalMap 100 (- 50) app_slam_init = Some gMap1
    /\ app_slam_private_clearVehicleRegion gMap1 = Some gMap2
    /\ globalMapUpdate_with mock_mm mock_mm gMap2 = Some gMap3
    /\ map_center_pixel gMap2 = {| x := 49; y := 0 |}
    /\ map_center_pixel gMap3 = {| x := 48; y := 100 |}
    /\ (0 <= x (map_center_pixel gMap2) <= GMAP_GRID_EDGE_SIZE_PIXEL
        /\ 0 <= y (map_center_pixel gMap2) <= GMAP_GRID_EDGE_SIZE_PIXEL)
    /\ (0 <= x (map_center_pixel gMap3) <= GMAP_GRID_EDGE_SIZE_PIXEL
        /\ 0 <= y (map_center_pixel gMap3) <= GMAP_GRID_EDGE_SIZE_PIXEL).
Proof.
  destruct tick_invariant_init as (Hwf0 & Hc0 & _).
  destruct (translate_spec app_slam_init 100 (- 50) Hwf0 Hc0)
    as (gMap1 & Htr & Hwf1 & Hc1 & Hoff1 & _);
    [vm_compute; split; discriminate | vm_compute; split; discriminate |].
  assert (Hc1' : map_center_pixel gMap1 = {| x := 49; y := 0 |})
    by (rewrite Hc1; vm_compute; reflexivity).
  assert (Hok1 : center_ok (map_center_pixel gMap1))
    by (rewrite Hc1'; vm_compute; repeat split; discriminate).
  destruct (clearVehicleRegion_spec gMap1 Hwf1 Hok1)
    as (gMap2 & Hcl & Hwf2 & Hc2 & Hoff2 & _).
  assert (Hok2 : center_ok (map_center_pixel gMap2)) by (rewrite Hc2; exact Hok1).
  assert (Hsh : update_shift mock_mm mock_mm gMap2 = Some (- 1, - 1)).
  { unfold update_shift. rewrite Hoff2, Hoff1. vm_compute. reflexivity. }
  destruct (globalMapUpdate_with_spec mock_mm mock_mm gMap2 (- 1) (- 1) Hwf2 Hok2 Hsh)
    as (gMap2' & gMap3 & lx & ly & Htr3 & Hup & _ & Hc3 & _).
  { rewrite Hc2, Hc1'. vm_compute. split; discriminate. }
  { rewrite Hc2, Hc1'. vm_compute. split; discriminate. }
  apply translate_Some in Htr3. destruct Htr3 as (_ & Hx3 & Hy3 & _).
  rewrite Hc2, Hc1' in Hx3, Hy3. cbn [x y] in Hx3, Hy3.
  assert (Hc3' : map_center_pixel gMap3 = {| x := 48; y := 100 |}).
  { rewrite Hc3. destruct (map_center_pixel gMap2') as [x3 y3].
    cbn [x y] in Hx3, Hy3. rewrite Hx3, Hy3. vm_compute. reflexivity. }
  assert (Hr2 : reachable within_edge gMap2).
  { apply (reachable_clear within_edge gMap1 gMap2); [| exact Hcl].
    apply (reachable_translate within_edge app_slam_init 100 (- 50) gMap1);
      [apply reachable_init | vm_compute; repeat split; discriminate | exact Htr]. }
  assert (Hr3 : reachable within_edge gMap3).
  { apply (reachable_update within_edge gMap2 mock_mm mock_mm (- 1) (- 1) gMap3);
      [exact Hr2 | exact Hsh | vm_compute; repeat split; discriminate | exact Hup]. }
  exists gMap1, gMap2, gMap3.
  split; [exact Htr |]. split; [exact Hcl |]. split; [exact Hup |].
  split; [rewrite Hc2; exact Hc1' |]. split; [exact Hc3' |].
  split; [exact (center_index_invariant gMap2 Hr2)
         | exact (center_index_invariant gMap3 Hr3)].
Defined.

(** X3. From a well-formed map with its centre within the map and a zero
    leftover, the map update of the firmware completes, moves each centre
    component by -1 with one wrap, and re-establishes the three
    conditions. *)
Lemma globalMapUpdate_completes gMap :
  tick_invariant gMap ->
  exists gMap',
    app_slam_private_globalMapUpdate gMap = Some gMap'
    /\ tick_invariant gMap'
    /\ x (map_center_pixel gMap') = wrap (x (map_center_pixel gMap) - 1) GMAP_WN_PIXEL
    /\ y (map_center_pixel gMap') = wrap (y (map_center_pixel gMap) - 1) GMAP_HN_PIXEL.
Proof.
  intros (Hwf & Hc & Hoff).
  assert (Hsh : update_shift mock_mm mock_mm gMap = Some (- 1, - 1)).
  { unfold update_shift. rewrite Hoff. vm_compute. reflexivity. }
  pose proof Hc as [Hcx Hcy]. change GMAP_GRID_EDGE_SIZE_PIXEL with 100 in Hcx, Hcy.
  destruct (globalMapUpdate_with_spec mock_mm mock_mm gMap (- 1) (- 1) Hwf Hc Hsh)
    as (gMap1 & gMap' & lx & ly & Htr & Hrun & Hwf' & Hc' & Hlx & Hly & Hoff' & _).
  { unfold band_in_reach. change GMAP_WN_PIXEL with 101.
    change GMAP_DEFAULT_CENTRAL_X_INDEX_PIXEL with 50. lia. }
  { unfold band_in_reach. change GMAP_WN_PIXEL with 101.
    change GMAP_DEFAULT_CENTRAL_X_INDEX_PIXEL with 50. lia. }
  rewrite Hoff in Hlx, Hly. cbn [x y] in Hlx, Hly.
  assert (Hd : drift_axis mock_mm (S754_zero false) = Some (- 1, S754_zero false))
    by (vm_compute; reflexivity).
  rewrite Hd in Hlx, Hly. injection Hlx as <-. injection Hly as <-.
  apply translate_Some in Htr. destruct Htr as (_ & Hx1 & Hy1 & _).
  rewrite to_int32_small in Hx1, Hy1 by lia.
  exists gMap'. split; [exact Hrun |].
  rewrite Hc'. split; [| split; assumption].
  split; [exact Hwf' |]. split; [| exact Hoff'].
  rewrite Hc'. split; [rewrite Hx1 | rewrite Hy1];
    change GMAP_GRID_EDGE_SIZE_PIXEL with 100;
    change GMAP_WN_PIXEL with 101; change GMAP_HN_PIXEL with 101;
    apply wrap_range; lia.
Qed.

Lemma globalMapUpdate_completes_witness :
  exists gMap',
    app_slam_private_globalMapUpdate app_slam_init = Some gMap'
    /\ tick_invariant gMap'
    /\ x (map_center_pixel gMap')
       = wrap (x (map_center_pixel app_slam_init) - 1) GMAP_WN_PIXEL
    /\ y (map_center_pixel gMap')
       = wrap (y (map_center_pixel app_slam_init) - 1) GMAP_HN_PIXEL.
Proof. apply (globalMapUpdate_completes app_slam_init), tick_invariant_init. Defined.

(** ** A shift beyond the bound, on the initial map *)

(** C6 fails as stated: a request of 1520 mm, beyond the map edge of
    1000 mm, gives a shift of 152 pixels, beyond [EDGE = 100]; nothing
    rejects it. The translation and the whole map update complete, the
    translation clears the cell the footprint had marked under the robot,
    and the centre column becomes 101, outside [[0, EDGE]]. *)
Lemma over_bound_not_rejected :
  exists gMap gMap' gMap'',
    app_slam_private_clearVehicleRegion app_slam_init = Some gMap
    /\ cell gMap 50 50 = Some GRID_CELL_VISITED
    /\ update_shift (F32.of_Z 1520) (F32.of_Z 0) gMap = Some (152, 0)
    /\ GMAP_GRID_EDGE_SIZE_PIXEL < 152
    /\ app_slam_private_translateGlobalMap 152 0 gMap = Some gMap'
    /\ cell gMap' 50 50 = Some GRID_CELL_NEUTRAL
    /\ x (map_center_pixel gMap') = 101
    /\ globalMapUpdate_with (F32.of_Z 1520) (F32.of_Z 0) gMap = Some gMap''
    /\ x (map_center_pixel gMap'') = 101
    /\ ~ center_ok (map_center_pixel gMap'').
Proof.
  destruct tick_invariant_init as (Hwf0 & Hc0 & Hoff0).
  destruct (clearVehicleRegion_spec app_slam_init Hwf0 Hc0)
    as (gMap & Hclr & Hwf & Hc & Hoff & Hst).
  assert (Hcok : center_ok (map_center_pixel gMap)) by (rewrite Hc; exact Hc0).
  assert (Hrx : band_in_reach (x (map_center_pixel gMap)) 152)
    by (rewrite Hc; vm_compute; split; discriminate).
  assert (Hry : band_in_reach (y (map_center_pixel gMap)) 0)
    by (rewrite Hc; vm_compute; split; discriminate).
  assert (Hsh : update_shift (F32.of_Z 1520) (F32.of_Z 0) gMap = Some (152, 0)).
  { unfold update_shift. rewrite Hoff, Hoff0. vm_compute. reflexivity. }
  destruct (translate_spec gMap 152 0 Hwf Hcok Hrx Hry)
    as (gMap' & Htr & _ & Hc' & _ & Hcells).
  assert (Hx101 : x (map_center_pixel gMap') = 101)
    by (rewrite Hc', Hc; vm_compute; reflexivity).
  destruct (globalMapUpdate_with_spec _ _ gMap 152 0 Hwf Hcok Hsh Hrx Hry)
    as (gMap1 & gMap'' & lx & ly & Htr1 & Hrun & _ & Hc'' & _).
  assert (gMap1 = gMap') by congruence. subst gMap1.
  exists gMap, gMap', gMap''.
  split; [exact Hclr |]. split.
  { eapply (stores_to_written _ _ _ _ (50 * GMAP_WN_PIXEL + 50)); [exact Hst |].
    apply (footprint_mask_iff (map_center_pixel app_slam_init) 0 0 Hc0); try lia.
    vm_compute. repeat split; discriminate. }
  split; [exact Hsh |]. split; [vm_compute; reflexivity |].
  split; [exact Htr |]. split.
  { apply (Hcells 50 50); [lia | lia |]. left. rewrite Hc.
    apply cleared_all; vm_compute; (split; discriminate) || reflexivity. }
  split; [exact Hx101 |].
  split; [exact Hrun |]. rewrite Hc''. split; [exact Hx101 |].
  intros [[_ Hle] _]. rewrite Hx101 in Hle.
  change GMAP_GRID_EDGE_SIZE_PIXEL with 100 in Hle. lia.
Qed.

(** ** More on the range classifier and the wraparound *)

(** X4. For [int32_t] arguments with [min <= max] the classifier returns 0
    below [min], 1 from [min] up to but not including [max], and 2 from
    [max] on (the bound [max] itself is class 2, where the source's comment
    writes the middle class as closed); the result is always an index of
    the three-entry offset table. *)
Lemma ARG_RANGE_INCLUSIVE_classifies (x_val min max : Z) :
  - 2 ^ 31 <= x_val < 2 ^ 31 -> - 2 ^ 31 <= min < 2 ^ 31 ->
  - 2 ^ 31 <= max < 2 ^ 31 -> min <= max ->
  (x_val < min -> ARG_RANGE_INCLUSIVE x_val min max = 0)
  /\ (min <= x_val < max -> ARG_RANGE_INCLUSIVE x_val min max = 1)
  /\ (max <= x_val -> ARG_RANGE_INCLUSIVE x_val min max = 2)
  /\ (Z.to_nat (ARG_RANGE_INCLUSIVE x_val min max) < length MAP_OFFSET)%nat.
Proof.
  intros Hx Hmin Hmax Hle. unfold ARG_RANGE_INCLUSIVE.
  rewrite !to_int32_small, !Z.geb_leb by assumption.
  destruct (Z.leb_spec min x_val), (Z.leb_spec max x_val);
    match goal with
    | |- context [to_uint8 ?e] =>
        let v := eval vm_compute in (to_uint8 e) in change (to_uint8 e) with v
    end;
    repeat split; intros; try lia; cbn; lia.
Qed.

Lemma ARG_RANGE_INCLUSIVE_classifies_witness :
  ARG_RANGE_INCLUSIVE 101 0 101 = 2 /\ ARG_RANGE_INCLUSIVE 100 0 101 = 1.
Proof.
  split.
  - apply (ARG_RANGE_INCLUSIVE_classifies 101 0 101); lia.
  - apply (ARG_RANGE_INCLUSIVE_classifies 100 0 101); lia.
Defined.

(** X5. The exact reach of the wrap idiom on the map axis: the result is
    a coordinate of the map exactly for the inputs from [-(EDGE + 1)] to
    [2 * EDGE + 1]; below, the result stays negative, above, it stays
    beyond [EDGE]. Within reach a second wrap changes nothing. *)
Lemma wrap_reach_exact (c : Z) :
  - 2 ^ 30 <= c < 2 ^ 30 ->
  (0 <= wrap c GMAP_WN_PIXEL <= GMAP_GRID_EDGE_SIZE_PIXEL
   <-> - GMAP_WN_PIXEL <= c <= 2 * GMAP_GRID_EDGE_SIZE_PIXEL + 1)
  /\ (c < - GMAP_WN_PIXEL -> wrap c GMAP_WN_PIXEL < 0)
  /\ (2 * GMAP_GRID_EDGE_SIZE_PIXEL + 1 < c ->
      GMAP_GRID_EDGE_SIZE_PIXEL < wrap c GMAP_WN_PIXEL)
  /\ (- GMAP_WN_PIXEL <= c <= 2 * GMAP_GRID_EDGE_SIZE_PIXEL + 1 ->
      wrap (wrap c GMAP_WN_PIXEL) GMAP_WN_PIXEL = wrap c GMAP_WN_PIXEL).
Proof.
  change GMAP_WN_PIXEL with 101. change GMAP_GRID_EDGE_SIZE_PIXEL with 100.
  intros Hc. rewrite (wrap_cases c) by lia.
  destruct (Z.ltb_spec c 0), (Z.ltb_spec 100 c); try lia;
    repeat split; intros; try lia; wrap_goal.
Qed.

Lemma wrap_reach_exact_witness :
  - 101 - 1 < - GMAP_WN_PIXEL /\ wrap (- 101 - 1) GMAP_WN_PIXEL < 0.
Proof.
  split; [vm_compute; reflexivity |].
  apply (wrap_reach_exact (- 101 - 1)).
  - vm_compute. split; [discriminate | reflexivity].
  - vm_compute. reflexivity.
Defined.

(** ** Where the translation is defined *)

Lemma translate_clear_columns_undefined start end_ m :
  - 2 ^ 30 <= start < - 101 -> start < end_ ->
  translate_clear_columns start end_ m = None.
Proof.
  intros Hs Hlt. unfold translate_clear_columns.
  rewrite for_range_first_undefined; [reflexivity | reflexivity |].
  cbv beta iota.
  rewrite for_range_first_undefined; [reflexivity | assumption |].
  cbv zeta.
  change (to_int32 (start + map_offset_of start GMAP_WN_PIXEL)) with (wrap start 101).
  rewrite wrap_cases by lia.
  destruct (Z.ltb_spec start 0); [| lia].
  rewrite to_int32_small by lia.
  apply store_None. lia.
Qed.

Lemma translate_clear_rows_undefined start end_ m :
  - 2 ^ 20 <= start < - 101 -> start < end_ ->
  translate_clear_rows start end_ m = None.
Proof.
  intros Hs Hlt. unfold translate_clear_rows.
  apply for_range_first_undefined; [assumption |].
  cbv zeta.
  change (to_int32 (start + map_offset_of start GMAP_HN_PIXEL)) with (wrap start 101).
  rewrite wrap_cases by lia.
  destruct (Z.ltb_spec start 0); [| lia].
  change (to_uint32 (start + 101) * GMAP_WN_PIXEL)
    with (to_uint32 (start + 101) * to_uint32 101).
  rewrite to_int32_uint32_mul, (to_int32_small ((start + 101) * 101)) by lia.
  apply for_range_first_undefined; [reflexivity |].
  rewrite to_int32_small by lia.
  apply store_None. lia.
Qed.

(** X6. For a well-formed map with its centre within the map and shifts
    in [[-EDGE, EDGE]], the translation is defined exactly when neither
    shift takes the centre below [-(EDGE/2 + 1)]; otherwise a store falls
    before the array. In particular every shift with both components at
    least [-(EDGE/2 + 1)] is safe from every centre. *)
Lemma translate_defined_iff (gMap : dynamic_map_S) (dx dy : Z) :
  wf_map gMap -> center_ok (map_center_pixel gMap) -> within_edge dx dy ->
  (exists gMap', app_slam_private_translateGlobalMap dx dy gMap = Some gMap')
  <-> - (GMAP_DEFAULT_CENTRAL_X_INDEX_PIXEL + 1) <= x (map_center_pixel gMap) + dx
      /\ - (GMAP_DEFAULT_CENTRAL_Y_INDEX_PIXEL + 1) <= y (map_center_pixel gMap) + dy.
Proof.
  intros Hwf Hc [Hdx Hdy]. pose proof Hc as [Hcx Hcy].
  change GMAP_GRID_EDGE_SIZE_PIXEL with 100 in *.
  change GMAP_DEFAULT_CENTRAL_X_INDEX_PIXEL with 50.
  change GMAP_DEFAULT_CENTRAL_Y_INDEX_PIXEL with 50.
  split.
  - intros [gMap' Hrun].
    destruct gMap as [m [cx cy] off]. cbn [map_center_pixel x y] in *.
    unfold wf_map in Hwf. cbn [data] in Hwf. change GMAP_CELLS with 10201 in Hwf.
    unfold app_slam_private_translateGlobalMap in Hrun.
    cbn [data map_center_pixel map_offset_mm x y] in Hrun.
    change GMAP_DEFAULT_CENTRAL_X_INDEX_PIXEL with (to_uint32 50) in Hrun.
    change GMAP_DEFAULT_CENTRAL_Y_INDEX_PIXEL with (to_uint32 50) in Hrun.
    rewrite !to_int32_uint32_sub, (to_int32_small (cx - 50)),
      (to_int32_small (cy - 50)) in Hrun by lia.
    cbv zeta in Hrun.
    destruct (Z_lt_le_dec (cx + dx) (- 51)) as [Hlow | Hxok].
    { exfalso. destruct (Z.eqb_spec dx 0) as [-> | _]; [lia |].
      unfold band_start, band_end in Hrun.
      destruct (Z.leb_spec 0 dx) as [| _]; [lia |].
      rewrite (to_int32_small (cx - 50 + dx)) in Hrun by lia.
      rewrite translate_clear_columns_undefined in Hrun by lia.
      discriminate. }
    split; [assumption |].
    destruct (Z_lt_le_dec (cy + dy) (- 51)) as [Hlow | Hyok]; [| assumption].
    exfalso.
    destruct (clear_columns_pass (cx - 50) dx m) as (m1 & Hm1 & _);
      [assumption | lia | lia |].
    rewrite Hm1 in Hrun. cbn [mbind option_bind] in Hrun.
    destruct (Z.eqb_spec dy 0) as [-> | _]; [lia |].
    unfold band_start, band_end in Hrun.
    destruct (Z.leb_spec 0 dy) as [| _]; [lia |].
    rewrite (to_int32_small (cy - 50 + dy)) in Hrun by lia.
    rewrite translate_clear_rows_undefined in Hrun by lia.
    discriminate.
  - intros [Hx Hy].
    destruct (translate_spec gMap dx dy) as (gMap' & Hrun & _); try assumption.
    + unfold band_in_reach. change GMAP_WN_PIXEL with 101.
      change GMAP_DEFAULT_CENTRAL_X_INDEX_PIXEL with 50. lia.
    + unfold band_in_reach. change GMAP_WN_PIXEL with 101.
      change GMAP_DEFAULT_CENTRAL_X_INDEX_PIXEL with 50. lia.
    + exists gMap'. exact Hrun.
Qed.

Lemma translate_defined_iff_witness :
  (exists gMap', app_slam_private_translateGlobalMap (- 51) 100 app_slam_init = Some gMap')
  <-> - (GMAP_DEFAULT_CENTRAL_X_INDEX_PIXEL + 1)
        <= x (map_center_pixel app_slam_init) + - 51
      /\ - (GMAP_DEFAULT_CENTRAL_Y_INDEX_PIXEL + 1)
        <= y (map_center_pixel app_slam_init) + 100.
Proof.
  apply (translate_defined_iff app_slam_init (- 51) 100).
  - vm_compute. reflexivity.
  - vm_compute. repeat split; discriminate.
  - vm_compute. repeat split; discriminate.
Defined.

(** ** Equal arrays *)

Lemma load_ext (m1 m2 : list Z) :
  length m1 = length m2 ->
  (forall k, 0 <= k < Z.of_nat (length m1) -> load m1 k = load m2 k) ->
  m1 = m2.
Proof.
  intros Hlen Hload. apply list_eq. intros i.
  destruct (Nat.lt_ge_cases i (length m1)) as [Hlt | Hge].
  - specialize (Hload (Z.of_nat i) ltac:(lia)). unfold load in Hload.
    destruct (Z.leb_spec 0 (Z.of_nat i)); [| lia].
    now rewrite Nat2Z.id in Hload.
  - rewrite !lookup_ge_None_2 by lia. reflexivity.
Qed.

(** Storing the same value at the same indices a second time changes
    nothing. *)
Lemma stores_to_again (W : Z -> Prop) v m m1 m2 :
  stores_to W v m m1 -> stores_to W v m1 m2 -> m2 = m1.
Proof.
  intros [Hlen1 Hk1] [Hlen2 Hk2]. apply load_ext; [assumption |].
  intros k _. destruct (Hk2 k) as [[HW Hl2] | [_ Hl2]]; [| assumption].
  rewrite Hl2. destruct (Hk1 k) as [[_ Hl1] | [HnW _]]; [now rewrite Hl1 | tauto].
Qed.

(** ** The footprint clearing, again *)

(** X7. Footprint clearing is idempotent: for a well-formed map with its
    centre within the map it completes, and clearing the result once more
    returns that same result. *)
Lemma clearVehicleRegion_idempotent (gMap : dynamic_map_S) :
  wf_map gMap -> center_ok (map_center_pixel gMap) ->
  exists gMap',
    app_slam_private_clearVehicleRegion gMap = Some gMap'
    /\ app_slam_private_clearVehicleRegion gMap' = Some gMap'.
Proof.
  intros Hwf Hc.
  destruct (clearVehicleRegion_spec gMap Hwf Hc) as (g1 & Hrun1 & Hwf1 & Hc1 & Hoff1 & Hst1).
  assert (Hcok1 : center_ok (map_center_pixel g1)) by (rewrite Hc1; exact Hc).
  destruct (clearVehicleRegion_spec g1 Hwf1 Hcok1) as (g2 & Hrun2 & _ & Hc2 & Hoff2 & Hst2).
  exists g1. split; [exact Hrun1 |]. rewrite Hrun2. f_equal.
  rewrite Hc1 in Hst2.
  pose proof (stores_to_again _ _ _ _ _ Hst1 Hst2) as Hdata.
  destruct g1, g2. cbn [data map_center_pixel map_offset_mm] in *. congruence.
Qed.

Lemma clearVehicleRegion_idempotent_witness :
  exists gMap',
    app_slam_private_clearVehicleRegion app_slam_init = Some gMap'
    /\ app_slam_private_clearVehicleRegion gMap' = Some gMap'.
Proof.
  apply (clearVehicleRegion_idempotent app_slam_init).
  - vm_compute. reflexivity.
  - vm_compute. repeat split; discriminate.
Defined.

(** X8. In the window centred on the robot the footprint is always the
    same mask around the window centre (50, 50), wherever the centre lies
    in the array, also across its edges: after the clearing a window cell
    is visited when its offset from (50, 50) is in the mask, and is as
    before otherwise. *)
Lemma clearVehicleRegion_window (gMap : dynamic_map_S) :
  wf_map gMap -> center_ok (map_center_pixel gMap) ->
  exists gMap',
    app_slam_private_clearVehicleRegion gMap = Some gMap'
    /\ forall u v, 0 <= u <= GMAP_GRID_EDGE_SIZE_PIXEL ->
                   0 <= v <= GMAP_GRID_EDGE_SIZE_PIXEL ->
         (footprint_mask (u - GMAP_DEFAULT_CENTRAL_X_INDEX_PIXEL)
                         (v - GMAP_DEFAULT_CENTRAL_Y_INDEX_PIXEL) ->
          window_cell gMap' u v = Some GRID_CELL_VISITED)
         /\ (~ footprint_mask (u - GMAP_DEFAULT_CENTRAL_X_INDEX_PIXEL)
                              (v - GMAP_DEFAULT_CENTRAL_Y_INDEX_PIXEL) ->
             window_cell gMap' u v = window_cell gMap u v).
Proof.
  intros Hwf Hc.
  destruct (clearVehicleRegion_spec gMap Hwf Hc) as (g1 & Hrun1 & Hwf1 & Hc1 & _ & Hst1).
  exists g1. split; [exact Hrun1 |].
  change GMAP_GRID_EDGE_SIZE_PIXEL with 100.
  change GMAP_DEFAULT_CENTRAL_X_INDEX_PIXEL with 50.
  change GMAP_DEFAULT_CENTRAL_Y_INDEX_PIXEL with 50.
  intros u v Hu Hv.
  assert (Hcok1 : center_ok (map_center_pixel g1)) by (rewrite Hc1; exact Hc).
  rewrite (window_cell_cell g1 u v Hcok1 Hu Hv), (window_cell_cell gMap u v Hc Hu Hv).
  rewrite Hc1. unfold cell.
  pose proof (footprint_mask_iff (map_center_pixel gMap) (u - 50) (v - 50) Hc
                ltac:(lia) ltac:(lia)) as Hmask.
  unfold index_from_center in Hmask.
  replace (y (map_center_pixel gMap) + (v - 50))
    with (y (map_center_pixel gMap) - 50 + v) in Hmask by lia.
  replace (x (map_center_pixel gMap) + (u - 50))
    with (x (map_center_pixel gMap) - 50 + u) in Hmask by lia.
  change GMAP_WN_PIXEL with 101 in *. change GMAP_HN_PIXEL with 101 in *.
  split; intros Hm.
  - eapply stores_to_written; [exact Hst1 |]. cbn beta. tauto.
  - eapply stores_to_kept; [exact Hst1 |]. cbn beta. tauto.
Qed.

Lemma clearVehicleRegion_window_witness :
  exists gMap',
    app_slam_private_clearVehicleRegion app_slam_init = Some gMap'
    /\ window_cell gMap' 45 50 = Some GRID_CELL_VISITED
    /\ window_cell gMap' 46 45 = window_cell app_slam_init 46 45.
Proof.
  destruct (clearVehicleRegion_window app_slam_init) as (gMap' & Hrun & Hwin).
  - vm_compute. reflexivity.
  - vm_compute. repeat split; discriminate.
  - exists gMap'. split; [exact Hrun |].
    destruct (Hwin 45 50) as [Hin _]; [vm_compute; split; discriminate .. |].
    destruct (Hwin 46 45) as [_ Hout]; [vm_compute; split; discriminate .. |].
    split.
    + apply Hin. vm_compute. repeat split; discriminate.
    + apply Hout. vm_compute. intros [_ [Hlo _]]. apply Hlo. reflexivity.
Defined.

(** ** Translations in sequence *)

(** The translation in the window view, with the new centre. *)
Lemma translate_window gMap dx dy :
  wf_map gMap -> center_ok (map_center_pixel gMap) ->
  - 100 <= dx <= 100 -> - 100 <= dy <= 100 ->
  - 51 <= x (map_center_pixel gMap) + dx ->
  - 51 <= y (map_center_pixel gMap) + dy ->
  exists gMap',
    app_slam_private_translateGlobalMap dx dy gMap = Some gMap'
    /\ wf_map gMap'
    /\ map_center_pixel gMap' =
         {| x := wrap (x (map_center_pixel gMap) + dx) 101;
            y := wrap (y (map_center_pixel gMap) + dy) 101 |}
    /\ map_offset_mm gMap' = map_offset_mm gMap
    /\ forall u v, 0 <= u <= 100 -> 0 <= v <= 100 ->
         (~ (0 <= u + dx <= 100) \/ ~ (0 <= v + dy <= 100) ->
            window_cell gMap' u v = Some GRID_CELL_NEUTRAL)
         /\ (0 <= u + dx <= 100 -> 0 <= v + dy <= 100 ->
            window_cell gMap' u v = window_cell gMap (u + dx) (v + dy)).
Proof.
  intros Hwf Hc Hdx Hdy Hrx Hry.
  pose proof Hc as [Hcx Hcy]. change GMAP_GRID_EDGE_SIZE_PIXEL with 100 in Hcx, Hcy.
  destruct (translate_spec gMap dx dy) as (gMap' & Hrun & Hwf' & Hc' & Hoff' & Hcells);
    try assumption.
  { unfold band_in_reach. change GMAP_WN_PIXEL with 101.
    change GMAP_DEFAULT_CENTRAL_X_INDEX_PIXEL with 50. lia. }
  { unfold band_in_reach. change GMAP_WN_PIXEL with 101.
    change GMAP_DEFAULT_CENTRAL_X_INDEX_PIXEL with 50. lia. }
  change GMAP_WN_PIXEL with 101 in Hc'. change GMAP_HN_PIXEL with 101 in Hc'.
  pose proof (wrap_range (x (map_center_pixel gMap) + dx) ltac:(lia)) as Hwx.
  pose proof (wrap_range (y (map_center_pixel gMap) + dy) ltac:(lia)) as Hwy.
  assert (Hok' : center_ok (map_center_pixel gMap')).
  { rewrite Hc'. split; cbn [x y]; change GMAP_GRID_EDGE_SIZE_PIXEL with 100; lia. }
  exists gMap'. repeat (split; [assumption |]).
  intros u v Hu Hv.
  rewrite (window_cell_cell gMap' u v) by assumption.
  rewrite Hc'. cbn [x y].
  set (col := wrap (wrap (x (map_center_pixel gMap) + dx) 101 - 50 + u) 101).
  set (row := wrap (wrap (y (map_center_pixel gMap) + dy) 101 - 50 + v) 101).
  assert (Hcol : 0 <= col <= 100) by (apply wrap_range; lia).
  assert (Hrow : 0 <= row <= 100) by (apply wrap_range; lia).
  destruct (Hcells col row Hcol Hrow) as [Hclr Hkeep].
  pose proof (cleared_iff_exposed (x (map_center_pixel gMap)) dx u
                ltac:(lia) ltac:(lia) ltac:(lia) ltac:(lia)) as Hix.
  pose proof (cleared_iff_exposed (y (map_center_pixel gMap)) dy v
                ltac:(lia) ltac:(lia) ltac:(lia) ltac:(lia)) as Hiy.
  fold col in Hix. fold row in Hiy. split.
  - intros Hexp. apply Hclr. tauto.
  - intros Hinx Hiny.
    rewrite (window_cell_cell gMap (u + dx) (v + dy)) by (assumption || lia).
    rewrite Hkeep by tauto.
    unfold col, row. rewrite !kept_coordinate by lia. reflexivity.
Qed.

(** X9. There and back: a shift of at most [EDGE/2 + 1] pixels on each
    axis followed by the opposite shift always completes and restores
    the centre and the leftover; a window cell holds what it held at the
    start when it stayed inside the window in between, and is neutral
    otherwise: what left the window is forgotten. *)
Lemma translate_there_and_back (gMap : dynamic_map_S) (dx dy : Z) :
  wf_map gMap -> center_ok (map_center_pixel gMap) ->
  - 51 <= dx <= 51 -> - 51 <= dy <= 51 ->
  exists gMap1 gMap2,
    app_slam_private_translateGlobalMap dx dy gMap = Some gMap1
    /\ app_slam_private_translateGlobalMap (- dx) (- dy) gMap1 = Some gMap2
    /\ map_center_pixel gMap2 = map_center_pixel gMap
    /\ map_offset_mm gMap2 = map_offset_mm gMap
    /\ forall u v, 0 <= u <= 100 -> 0 <= v <= 100 ->
         (0 <= u - dx <= 100 -> 0 <= v - dy <= 100 ->
            window_cell gMap2 u v = window_cell gMap u v)
         /\ (~ (0 <= u - dx <= 100) \/ ~ (0 <= v - dy <= 100) ->
            window_cell gMap2 u v = Some GRID_CELL_NEUTRAL).
Proof.
  intros Hwf Hc Hdx Hdy.
  pose proof Hc as [Hcx Hcy]. change GMAP_GRID_EDGE_SIZE_PIXEL with 100 in Hcx, Hcy.
  destruct (translate_window gMap dx dy Hwf Hc)
    as (g1 & Hrun1 & Hwf1 & Hc1 & Hoff1 & Hwin1); try lia.
  pose proof (wrap_range (x (map_center_pixel gMap) + dx) ltac:(lia)) as Hwx.
  pose proof (wrap_range (y (map_center_pixel gMap) + dy) ltac:(lia)) as Hwy.
  assert (Hok1 : center_ok (map_center_pixel g1)).
  { rewrite Hc1. split; cbn [x y]; change GMAP_GRID_EDGE_SIZE_PIXEL with 100; lia. }
  destruct (translate_window g1 (- dx) (- dy) Hwf1 Hok1)
    as (g2 & Hrun2 & _ & Hc2 & Hoff2 & Hwin2); try lia.
  { rewrite Hc1. cbn [x y]. lia. }
  { rewrite Hc1. cbn [x y]. lia. }
  exists g1, g2. split; [exact Hrun1 |]. split; [exact Hrun2 |]. split.
  { rewrite Hc2, Hc1. cbn [x y].
    destruct (map_center_pixel gMap) as [cx cy]. cbn [x y] in *.
    f_equal; wrap_goal. }
  split; [congruence |].
  intros u v Hu Hv. destruct (Hwin2 u v Hu Hv) as [Hexp2 Hkeep2].
  replace (u + - dx) with (u - dx) in * by lia.
  replace (v + - dy) with (v - dy) in * by lia.
  split.
  - intros Hx Hy. rewrite Hkeep2 by assumption.
    destruct (Hwin1 (u - dx) (v - dy) Hx Hy) as [_ Hkeep1].
    rewrite Hkeep1 by lia.
    replace (u - dx + dx) with u by lia. replace (v - dy + dy) with v by lia.
    reflexivity.
  - intros Hout. apply Hexp2. exact Hout.
Qed.

Lemma translate_there_and_back_witness :
  exists gMap1 gMap2,
    app_slam_private_translateGlobalMap 3 (- 51) app_slam_init = Some gMap1
    /\ app_slam_private_translateGlobalMap (- 3) (- - 51) gMap1 = Some gMap2
    /\ map_center_pixel gMap2 = map_center_pixel app_slam_init.
Proof.
  destruct (translate_there_and_back app_slam_init 3 (- 51))
    as (g1 & g2 & H1 & H2 & Hc & _).
  - vm_compute. reflexivity.
  - vm_compute. repeat split; discriminate.
  - lia.
  - lia.
  - exists g1, g2. split; [exact H1 |]. split; [exact H2 | exact Hc].
Defined.

Lemma in_band_dec start end_ c : in_band start end_ c \/ ~ in_band start end_ c.
Proof.
  unfold in_band.
  assert (Hgen : forall n lo,
             (exists i, lo <= i < lo + Z.of_nat n /\ wrap i GMAP_WN_PIXEL = c)
             \/ ~ (exists i, lo <= i < lo + Z.of_nat n /\ wrap i GMAP_WN_PIXEL = c)).
  { induction n as [| n IH]; intros lo.
    - right. intros (i & Hi & _). lia.
    - destruct (Z.eq_dec (wrap lo GMAP_WN_PIXEL) c) as [Heq | Hne].
      + left. exists lo. split; [lia | assumption].
      + destruct (IH (lo + 1)) as [(i & Hi & Hw) | Hno].
        * left. exists i. split; [lia | assumption].
        * right. intros (i & Hi & Hw). destruct (Z.eq_dec i lo) as [-> | Hd].
          -- contradiction.
          -- apply Hno. exists i. split; [lia | assumption]. }
  destruct (Z_le_gt_dec end_ start) as [Hle | Hgt].
  - right. intros (i & Hi & _). lia.
  - destruct (Hgen (Z.to_nat (end_ - start)) start) as [(i & Hi & Hw) | Hno].
    + left. exists i. split; [lia | assumption].
    + right. intros (i & Hi & Hw). apply Hno. exists i. split; [lia | assumption].
Qed.

(** Along one axis, the band of two shifts in the same direction made one
    after the other is the band of their sum. *)
Lemma cleared_split c d1 d2 col :
  0 <= c <= 100 -> same_direction d1 d2 -> - 100 <= d1 + d2 <= 100 ->
  - 51 <= c + (d1 + d2) ->
  cleared (c - 50) (d1 + d2) col
  <-> cleared (c - 50) d1 col \/ cleared (wrap (c + d1) 101 - 50) d2 col.
Proof.
  intros Hc Hdir Hsum Hreach. unfold cleared, in_band.
  change GMAP_WN_PIXEL with 101.
  destruct Hdir as [[H1 H2] | [H1 H2]].
  - destruct (Z.leb_spec 0 (d1 + d2)); [| lia].
    destruct (Z.leb_spec 0 d1); [| lia]. destruct (Z.leb_spec 0 d2); [| lia].
    rewrite (wrap_cases (c + d1)) by lia.
    destruct (Z.ltb_spec (c + d1) 0); [lia |].
    destruct (Z.ltb_spec 100 (c + d1)).
    + split.
      * intros (i & Hi & <-). destruct (Z_lt_le_dec i (c - 50 + d1)).
        -- left. exists i. split; [lia | reflexivity].
        -- right. exists (i - 101). split; [lia |]. wrap_goal.
      * intros [(i & Hi & <-) | (i & Hi & <-)].
        -- exists i. split; [lia | reflexivity].
        -- exists (i + 101). split; [lia |]. wrap_goal.
    + split.
      * intros (i & Hi & <-). destruct (Z_lt_le_dec i (c - 50 + d1)).
        -- left. exists i. split; [lia | reflexivity].
        -- right. exists i. split; [lia | reflexivity].
      * intros [(i & Hi & <-) | (i & Hi & <-)];
          exists i; (split; [lia | reflexivity]).
  - destruct (Z.eq_dec d1 0) as [-> | Hd1].
    { replace (0 + d2) with d2 by lia. replace (c + 0) with c by lia.
      rewrite (wrap_cases c) by lia.
      destruct (Z.ltb_spec c 0); [lia |]. destruct (Z.ltb_spec 100 c); [lia |].
      split; [intros Hb; right; exact Hb |].
      intros [(i & Hi & _) | Hb]; [cbn in Hi; lia | exact Hb]. }
    destruct (Z.eq_dec d2 0) as [-> | Hd2].
    { replace (d1 + 0) with d1 by lia.
      split; [intros Hb; left; exact Hb |].
      intros [Hb | (i & Hi & _)]; [exact Hb | cbn in Hi; lia]. }
    destruct (Z.leb_spec 0 (d1 + d2)); [lia |].
    destruct (Z.leb_spec 0 d1); [lia |]. destruct (Z.leb_spec 0 d2); [lia |].
    rewrite (wrap_cases (c + d1)) by lia.
    destruct (Z.ltb_spec 100 (c + d1)); [destruct (Z.ltb_spec (c + d1) 0); lia |].
    destruct (Z.ltb_spec (c + d1) 0).
    + split.
      * intros (i & Hi & <-). destruct (Z_lt_le_dec i (c - 50 + d1)).
        -- right. exists (i + 101). split; [lia |]. wrap_goal.
        -- left. exists i. split; [lia | reflexivity].
      * intros [(i & Hi & <-) | (i & Hi & <-)].
        -- exists i. split; [lia | reflexivity].
        -- exists (i - 101). split; [lia |]. wrap_goal.
    + split.
      * intros (i & Hi & <-). destruct (Z_lt_le_dec i (c - 50 + d1)).
        -- right. exists i. split; [lia | reflexivity].
        -- left. exists i. split; [lia | reflexivity].
      * intros [(i & Hi & <-) | (i & Hi & <-)];
          exists i; (split; [lia | reflexivity]).
Qed.

(** X10. Shifts in the same direction compose: when on each axis the two
    shifts have the same sign, their sum is within [[-EDGE, EDGE]] and
    does not take the centre below [-(EDGE/2 + 1)], translating by the
    first and then by the second completes and gives exactly the state
    (array, centre and leftover) of the single translation by the sum. *)
Lemma translate_compose (gMap : dynamic_map_S) (dx1 dy1 dx2 dy2 : Z) :
  wf_map gMap -> center_ok (map_center_pixel gMap) ->
  same_direction dx1 dx2 -> same_direction dy1 dy2 ->
  within_edge (dx1 + dx2) (dy1 + dy2) ->
  - 51 <= x (map_center_pixel gMap) + (dx1 + dx2) ->
  - 51 <= y (map_center_pixel gMap) + (dy1 + dy2) ->
  exists gMap1 gMap2,
    app_slam_private_translateGlobalMap dx1 dy1 gMap = Some gMap1
    /\ app_slam_private_translateGlobalMap dx2 dy2 gMap1 = Some gMap2
    /\ app_slam_private_translateGlobalMap (dx1 + dx2) (dy1 + dy2) gMap = Some gMap2.
Proof.
  intros Hwf Hc Hsx Hsy [Hex Hey] Hrx Hry.
  pose proof Hc as [Hcx Hcy]. change GMAP_GRID_EDGE_SIZE_PIXEL with 100 in *.
  assert (Hreach : forall c d, 0 <= c <= 100 -> - 100 <= d <= 100 -> - 51 <= c + d ->
                               band_in_reach c d).
  { intros c d Hc0 Hd Hl. unfold band_in_reach. change GMAP_WN_PIXEL with 101.
    change GMAP_DEFAULT_CENTRAL_X_INDEX_PIXEL with 50. lia. }
  assert (Hdx1 : - 100 <= dx1 <= 100 /\ - 51 <= x (map_center_pixel gMap) + dx1)
    by (destruct Hsx; lia).
  assert (Hdy1 : - 100 <= dy1 <= 100 /\ - 51 <= y (map_center_pixel gMap) + dy1)
    by (destruct Hsy; lia).
  destruct (translate_spec gMap dx1 dy1 Hwf Hc)
    as (g1 & Hrun1 & Hwf1 & Hc1 & Hoff1 & Hcells1); [apply Hreach; lia .. |].
  change GMAP_WN_PIXEL with 101 in Hc1. change GMAP_HN_PIXEL with 101 in Hc1.
  pose proof (wrap_cases (x (map_center_pixel gMap) + dx1) ltac:(lia)) as Hwx1.
  pose proof (wrap_cases (y (map_center_pixel gMap) + dy1) ltac:(lia)) as Hwy1.
  pose proof (wrap_range (x (map_center_pixel gMap) + dx1) ltac:(lia)) as Hrx1.
  pose proof (wrap_range (y (map_center_pixel gMap) + dy1) ltac:(lia)) as Hry1.
  assert (Hok1 : center_ok (map_center_pixel g1)).
  { rewrite Hc1. split; cbn [x y]; change GMAP_GRID_EDGE_SIZE_PIXEL with 100; lia. }
  assert (Hdx2 : - 100 <= dx2 <= 100
                 /\ - 51 <= wrap (x (map_center_pixel gMap) + dx1) 101 + dx2).
  { rewrite Hwx1.
    destruct (Z.ltb_spec (x (map_center_pixel gMap) + dx1) 0),
      (Z.ltb_spec 100 (x (map_center_pixel gMap) + dx1)); destruct Hsx; lia. }
  assert (Hdy2 : - 100 <= dy2 <= 100
                 /\ - 51 <= wrap (y (map_center_pixel gMap) + dy1) 101 + dy2).
  { rewrite Hwy1.
    destruct (Z.ltb_spec (y (map_center_pixel gMap) + dy1) 0),
      (Z.ltb_spec 100 (y (map_center_pixel gMap) + dy1)); destruct Hsy; lia. }
  destruct (translate_spec g1 dx2 dy2 Hwf1 Hok1)
    as (g2 & Hrun2 & Hwf2 & Hc2 & Hoff2 & Hcells2);
    [rewrite Hc1; cbn [x y]; apply Hreach; lia .. |].
  destruct (translate_spec gMap (dx1 + dx2) (dy1 + dy2) Hwf Hc)
    as (g & Hrun & Hwf' & Hc' & Hoff' & Hcells); [apply Hreach; lia .. |].
  exists g1, g2. split; [exact Hrun1 |]. split; [exact Hrun2 |].
  rewrite Hrun. f_equal.
  assert (Hcenter : map_center_pixel g = map_center_pixel g2).
  { rewrite Hc', Hc2, Hc1. cbn [x y].
    change GMAP_WN_PIXEL with 101. change GMAP_HN_PIXEL with 101.
    clear Hwx1 Hwy1 Hrx1 Hry1 Hdx2 Hdy2.
    f_equal; destruct Hsx, Hsy; wrap_goal. }
  assert (Hdata : data g = data g2).
  { apply load_ext.
    { unfold wf_map in Hwf', Hwf2. lia. }
    intros k Hk. unfold wf_map in Hwf'. change GMAP_CELLS with 10201 in Hwf'.
    assert (Hrc : k = (k / 101) * 101 + k mod 101)
      by (rewrite Z.mul_comm; apply Z.div_mod; lia).
    pose proof (Z.mod_pos_bound k 101 ltac:(lia)) as Hcol.
    assert (Hrow : 0 <= k / 101 <= 100).
    { split; [apply Z.div_pos; lia |].
      apply Z.lt_succ_r. apply Z.div_lt_upper_bound; lia. }
    set (col := k mod 101) in *. set (row := k / 101) in *.
    specialize (Hcells col row ltac:(lia) Hrow).
    specialize (Hcells1 col row ltac:(lia) Hrow).
    specialize (Hcells2 col row ltac:(lia) Hrow).
    cbv zeta in Hcells, Hcells1, Hcells2. unfold cell in *.
    change GMAP_WN_PIXEL with 101 in *.
    rewrite <- Hrc in Hcells, Hcells1, Hcells2.
    rewrite Hc1 in Hcells2. cbn [x y] in Hcells2.
    pose proof (cleared_split (x (map_center_pixel gMap)) dx1 dx2 col
                  Hcx Hsx Hex Hrx) as Hsplitx.
    pose proof (cleared_split (y (map_center_pixel gMap)) dy1 dy2 row
                  Hcy Hsy Hey Hry) as Hsplity.
    unfold cleared in *.
    destruct (in_band_dec
                (if 0 <=? dx1 then x (map_center_pixel gMap) - 50
                 else x (map_center_pixel gMap) - 50 + dx1)
                (if 0 <=? dx1 then x (map_center_pixel gMap) - 50 + dx1
                 else x (map_center_pixel gMap) - 50) col) as [Hx1 | Hx1];
    destruct (in_band_dec
                (if 0 <=? dx2 then wrap (x (map_center_pixel gMap) + dx1) 101 - 50
                 else wrap (x (map_center_pixel gMap) + dx1) 101 - 50 + dx2)
                (if 0 <=? dx2 then wrap (x (map_center_pixel gMap) + dx1) 101 - 50 + dx2
                 else wrap (x (map_center_pixel gMap) + dx1) 101 - 50) col) as [Hx2 | Hx2];
    destruct (in_band_dec
                (if 0 <=? dy1 then y (map_center_pixel gMap) - 50
                 else y (map_center_pixel gMap) - 50 + dy1)
                (if 0 <=? dy1 then y (map_center_pixel gMap) - 50 + dy1
                 else y (map_center_pixel gMap) - 50) row) as [Hy1 | Hy1];
    destruct (in_band_dec
                (if 0 <=? dy2 then wrap (y (map_center_pixel gMap) + dy1) 101 - 50
                 else wrap (y (map_center_pixel gMap) + dy1) 101 - 50 + dy2)
                (if 0 <=? dy2 then wrap (y (map_center_pixel gMap) + dy1) 101 - 50 + dy2
                 else wrap (y (map_center_pixel gMap) + dy1) 101 - 50) row) as [Hy2 | Hy2];
    destruct Hcells as [Hclr Hkeep], Hcells1 as [Hclr1 Hkeep1],
      Hcells2 as [Hclr2 Hkeep2];
    first
      [ rewrite Hclr2 by tauto; rewrite Hclr by tauto; reflexivity
      | rewrite Hkeep2 by tauto; rewrite Hclr1 by tauto;
        rewrite Hclr by tauto; reflexivity
      | rewrite Hkeep2 by tauto; rewrite Hkeep1 by tauto;
        rewrite Hkeep by tauto; reflexivity ]. }
  destruct g, g2. cbn [data map_center_pixel map_offset_mm] in *. congruence.
Qed.

Lemma translate_compose_witness :
  exists gMap1 gMap2,
    app_slam_private_translateGlobalMap 2 (- 1) app_slam_init = Some gMap1
    /\ app_slam_private_translateGlobalMap 3 (- 4) gMap1 = Some gMap2
    /\ app_slam_private_translateGlobalMap (2 + 3) (- 1 + - 4) app_slam_init
       = Some gMap2.
Proof.
  apply (translate_compose app_slam_init 2 (- 1) 3 (- 4)).
  - vm_compute. reflexivity.
  - vm_compute. repeat split; discriminate.
  - left. lia.
  - right. lia.
  - vm_compute. repeat split; discriminate.
  - vm_compute. discriminate.
  - vm_compute. discriminate.
Defined.

(** ** The map print-out *)

Lemma load_is_Some m k :
  0 <= k < Z.of_nat (length m) -> load m k = Some (default 0 (load m k)).
Proof.
  intros Hk. unfold load. destruct (Z.leb_spec 0 k); [| lia].
  destruct (lookup_lt_is_Some_2 m (Z.to_nat k)) as [v ->]; [lia | reflexivity].
Qed.

Lemma print_range_map {A : Type} lo hi (value : Z -> option A) (g : Z -> A) :
  (forall i, lo <= i < hi -> value i = Some (g i)) ->
  print_range lo hi value
  = Some (map g (counter_values (Z.to_nat (hi - lo)) lo)).
Proof.
  intros Hval. unfold print_range, for_range.
  assert (Hgen : forall n lo' acc,
             lo <= lo' -> lo' + Z.of_nat n <= Z.max lo hi ->
             for_loop n lo' (fun i printed => v ← value i; Some (printed ++ [v])) acc
             = Some (acc ++ map g (counter_values n lo'))).
  { induction n as [| n IH]; intros lo' acc Hlo Hhi.
    - cbn. now rewrite app_nil_r.
    - cbn [for_loop counter_values map]. rewrite Hval by lia.
      cbn [mbind option_bind]. rewrite IH by lia.
      now rewrite <- app_assoc. }
  rewrite Hgen by lia. reflexivity.
Qed.

Lemma Some_pair_inj {A B : Type} (a a' : A) (b b' : B) :
  Some (a, b) = Some (a', b') -> a = a' /\ b = b'.
Proof. intros Heq. injection Heq as -> ->. split; reflexivity. Qed.

Lemma In_map_counter_values {A : Type} (f g : Z -> A) n lo :
  map f (counter_values n lo) = map g (counter_values n lo) ->
  forall i, lo <= i < lo + Z.of_nat n -> f i = g i.
Proof.
  intros Heq i Hi. pose proof (proj1 map_ext_in_iff Heq) as Hall.
  apply Hall. apply In_counter_values. exact Hi.
Qed.

(** The lines of the raw print-out: line [j] holds the cells
    [101 * j .. 101 * j + 100] of the array, then the closing 0. *)
Lemma debugPrintMap_raw_lines count0 gMap :
  wf_map gMap ->
  app_slam_private_debugPrintMap false count0 gMap
  = Some (count0,
          map (fun j =>
                 map (fun i => default 0 (load (data gMap) (j * 101 + i)))
                     (counter_values 101 0) ++ [0])
              (counter_values 101 0)).
Proof.
  intros Hwf. unfold wf_map in Hwf. change GMAP_CELLS with 10201 in Hwf.
  unfold app_slam_private_debugPrintMap. cbv zeta.
  rewrite (print_range_map 0 GMAP_WN_PIXEL _
             (fun j => map (fun i => default 0 (load (data gMap) (j * 101 + i)))
                           (counter_values 101 0) ++ [0])).
  - reflexivity.
  - intros j Hj. change GMAP_WN_PIXEL with 101 in Hj.
    rewrite (to_int32_small j) by lia.
    change (to_uint32 j * GMAP_WN_PIXEL) with (to_uint32 j * to_uint32 101).
    rewrite to_int32_uint32_mul, (to_int32_small (j * 101)) by lia.
    rewrite (print_range_map 0 GMAP_HN_PIXEL _
               (fun i => default 0 (load (data gMap) (j * 101 + i)))).
    + reflexivity.
    + intros i Hi. change GMAP_HN_PIXEL with 101 in Hi.
      rewrite (to_int32_small i), to_int32_small by lia.
      apply load_is_Some. lia.
Qed.

(** The lines of the centred print-out: line [j] holds the window cells
    [(0, j) .. (100, j)], then the closing 0. *)
Lemma debugPrintMap_centred_lines count0 gMap :
  wf_map gMap -> center_ok (map_center_pixel gMap) ->
  app_slam_private_debugPrintMap true count0 gMap
  = Some (count0,
          map (fun j =>
                 map (fun i => default 0 (window_cell gMap i j))
                     (counter_values 101 0) ++ [0])
              (counter_values 101 0)).
Proof.
  intros Hwf Hc. pose proof Hc as [Hcx Hcy].
  change GMAP_GRID_EDGE_SIZE_PIXEL with 100 in Hcx, Hcy.
  unfold app_slam_private_debugPrintMap. cbv zeta.
  rewrite (print_range_map 0 GMAP_WN_PIXEL _
             (fun j => map (fun i => default 0 (window_cell gMap i j))
                           (counter_values 101 0) ++ [0])).
  - reflexivity.
  - intros j Hj. change GMAP_WN_PIXEL with 101 in Hj.
    rewrite (print_range_map 0 GMAP_HN_PIXEL _
               (fun i => default 0 (window_cell gMap i j))).
    + reflexivity.
    + intros i Hi. change GMAP_HN_PIXEL with 101 in Hi.
      transitivity (window_cell gMap i j);
        [unfold window_cell; cbv zeta; reflexivity |].
      rewrite (window_cell_cell gMap i j Hc) by lia. unfold cell.
      pose proof (wrap_range (x (map_center_pixel gMap) - 50 + i) ltac:(lia)).
      pose proof (wrap_range (y (map_center_pixel gMap) - 50 + j) ltac:(lia)).
      apply load_is_Some. unfold wf_map in Hwf.
      change GMAP_CELLS with 10201 in Hwf. change GMAP_WN_PIXEL with 101. lia.
Qed.

(** X11. The raw print-out is defined for every well-formed map, has 101
    lines, and loses nothing: two well-formed maps with the same raw
    print-out have the same cells. *)
Lemma debugPrintMap_raw_faithful (count1 count2 : Z) (gMap1 gMap2 : dynamic_map_S) :
  wf_map gMap1 -> wf_map gMap2 ->
  (exists lines,
     app_slam_private_debugPrintMap false count1 gMap1 = Some (count1, lines)
     /\ length lines = 101%nat)
  /\ (app_slam_private_debugPrintMap false count1 gMap1
      = app_slam_private_debugPrintMap false count2 gMap2 ->
      count1 = count2 /\ data gMap1 = data gMap2).
Proof.
  intros Hwf1 Hwf2.
  rewrite (debugPrintMap_raw_lines count1 gMap1 Hwf1),
    (debugPrintMap_raw_lines count2 gMap2 Hwf2).
  split.
  - eexists. split; [reflexivity |]. rewrite length_map. reflexivity.
  - intros Heq. destruct (Some_pair_inj _ _ _ _ Heq) as [Hcount Hlines].
    clear Heq. split; [exact Hcount |].
    unfold wf_map in Hwf1, Hwf2. change GMAP_CELLS with 10201 in Hwf1, Hwf2.
    apply load_ext; [lia |]. intros k Hk.
    assert (Hrc : k = (k / 101) * 101 + k mod 101)
      by (rewrite Z.mul_comm; apply Z.div_mod; lia).
    pose proof (Z.mod_pos_bound k 101 ltac:(lia)) as Hcol.
    assert (Hrow : 0 <= k / 101 <= 100).
    { split; [apply Z.div_pos; lia |].
      apply Z.lt_succ_r. apply Z.div_lt_upper_bound; lia. }
    pose proof (In_map_counter_values _ _ _ _ Hlines (k / 101) ltac:(lia)) as Hline.
    cbv beta in Hline. apply app_inv_tail in Hline.
    pose proof (In_map_counter_values _ _ _ _ Hline (k mod 101) ltac:(lia)) as Hcell.
    cbv beta in Hcell. rewrite <- Hrc in Hcell.
    rewrite (load_is_Some (data gMap1) k), (load_is_Some (data gMap2) k) by lia.
    now rewrite Hcell.
Qed.

Lemma debugPrintMap_raw_faithful_witness :
  exists lines,
    app_slam_private_debugPrintMap false 10 app_slam_init = Some (10, lines)
    /\ length lines = 101%nat.
Proof.
  apply (debugPrintMap_raw_faithful 10 10 app_slam_init app_slam_init);
    vm_compute; reflexivity.
Defined.

(** X12. The centred print-out is defined for every well-formed map whose
    centre is within the map, has 101 lines, and loses nothing either: two
    such maps with the same centre and the same centred print-out have the
    same cells, because the window shows every cell of the array. *)
Lemma debugPrintMap_centred_faithful (count1 count2 : Z)
    (gMap1 gMap2 : dynamic_map_S) :
  wf_map gMap1 -> wf_map gMap2 ->
  center_ok (map_center_pixel gMap1) ->
  map_center_pixel gMap2 = map_center_pixel gMap1 ->
  (exists lines,
     app_slam_private_debugPrintMap true count1 gMap1 = Some (count1, lines)
     /\ length lines = 101%nat)
  /\ (app_slam_private_debugPrintMap true count1 gMap1
      = app_slam_private_debugPrintMap true count2 gMap2 ->
      count1 = count2 /\ data gMap1 = data gMap2).
Proof.
  intros Hwf1 Hwf2 Hc1 Hceq.
  assert (Hc2 : center_ok (map_center_pixel gMap2)) by (rewrite Hceq; exact Hc1).
  rewrite (debugPrintMap_centred_lines count1 gMap1 Hwf1 Hc1),
    (debugPrintMap_centred_lines count2 gMap2 Hwf2 Hc2).
  split.
  - eexists. split; [reflexivity |]. rewrite length_map. reflexivity.
  - intros Heq. destruct (Some_pair_inj _ _ _ _ Heq) as [Hcount Hlines].
    clear Heq. split; [exact Hcount |].
    pose proof Hc1 as [Hcx Hcy]. change GMAP_GRID_EDGE_SIZE_PIXEL with 100 in Hcx, Hcy.
    unfold wf_map in Hwf1, Hwf2. change GMAP_CELLS with 10201 in Hwf1, Hwf2.
    apply load_ext; [lia |]. intros k Hk.
    assert (Hrc : k = (k / 101) * 101 + k mod 101)
      by (rewrite Z.mul_comm; apply Z.div_mod; lia).
    pose proof (Z.mod_pos_bound k 101 ltac:(lia)) as Hcol.
    assert (Hrow : 0 <= k / 101 <= 100).
    { split; [apply Z.div_pos; lia |].
      apply Z.lt_succ_r. apply Z.div_lt_upper_bound; lia. }
    set (col := k mod 101) in *. set (row := k / 101) in *.
    set (i := wrap (col - x (map_center_pixel gMap1) + 50) 101).
    set (j := wrap (row - y (map_center_pixel gMap1) + 50) 101).
    assert (Hi : 0 <= i <= 100) by (apply wrap_range; lia).
    assert (Hj : 0 <= j <= 100) by (apply wrap_range; lia).
    assert (Hwi : wrap (x (map_center_pixel gMap1) - 50 + i) 101 = col)
      by (unfold i; wrap_goal).
    assert (Hwj : wrap (y (map_center_pixel gMap1) - 50 + j) 101 = row)
      by (unfold j; wrap_goal).
    pose proof (In_map_counter_values _ _ _ _ Hlines j ltac:(lia)) as Hline.
    cbv beta in Hline. apply app_inv_tail in Hline.
    pose proof (In_map_counter_values _ _ _ _ Hline i ltac:(lia)) as Hcell.
    cbv beta in Hcell.
    rewrite (window_cell_cell gMap1 i j Hc1), (window_cell_cell gMap2 i j Hc2)
      in Hcell by lia.
    rewrite Hceq, Hwi, Hwj in Hcell. unfold cell in Hcell.
    change GMAP_WN_PIXEL with 101 in Hcell. rewrite <- Hrc in Hcell.
    rewrite (load_is_Some (data gMap1) k), (load_is_Some (data gMap2) k) by lia.
    now rewrite Hcell.
Qed.

Lemma debugPrintMap_centred_faithful_witness :
  exists lines,
    app_slam_private_debugPrintMap true 10 app_slam_init = Some (10, lines)
    /\ length lines = 101%nat.
Proof.
  apply (debugPrintMap_centred_faithful 10 10 app_slam_init app_slam_init).
  - vm_compute. reflexivity.
  - vm_compute. reflexivity.
  - vm_compute. repeat split; discriminate.
  - reflexivity.
Defined.

(** ** The periodic task *)

(** One map update under the conditions the ticks maintain, with the cells
    under the vehicle marked. *)
Lemma tick_step gMap :
  tick_invariant gMap ->
  exists gMap',
    app_slam_private_globalMapUpdate gMap = Some gMap'
    /\ tick_invariant gMap'
    /\ x (map_center_pixel gMap') = wrap (x (map_center_pixel gMap) - 1) 101
    /\ y (map_center_pixel gMap') = wrap (y (map_center_pixel gMap) - 1) 101
    /\ forall k, In k (footprint_indices (map_center_pixel gMap')) ->
                 load (data gMap') k = Some GRID_CELL_VISITED.
Proof.
  intros (Hwf & Hc & Hoff).
  assert (Hsh : update_shift mock_mm mock_mm gMap = Some (- 1, - 1)).
  { unfold update_shift. rewrite Hoff. vm_compute. reflexivity. }
  pose proof Hc as [Hcx Hcy]. change GMAP_GRID_EDGE_SIZE_PIXEL with 100 in Hcx, Hcy.
  destruct (globalMapUpdate_with_spec mock_mm mock_mm gMap (- 1) (- 1) Hwf Hc Hsh)
    as (gMap1 & gMap' & lx & ly & Htr & Hrun & Hwf' & Hc' & Hlx & Hly & Hoff' & Hst).
  { unfold band_in_reach. change GMAP_WN_PIXEL with 101.
    change GMAP_DEFAULT_CENTRAL_X_INDEX_PIXEL with 50. lia. }
  { unfold band_in_reach. change GMAP_WN_PIXEL with 101.
    change GMAP_DEFAULT_CENTRAL_X_INDEX_PIXEL with 50. lia. }
  rewrite Hoff in Hlx, Hly. cbn [x y] in Hlx, Hly.
  assert (Hd : drift_axis mock_mm (S754_zero false) = Some (- 1, S754_zero false))
    by (vm_compute; reflexivity).
  rewrite Hd in Hlx, Hly. injection Hlx as <-. injection Hly as <-.
  apply translate_Some in Htr. destruct Htr as (_ & Hx1 & Hy1 & _).
  rewrite to_int32_small in Hx1, Hy1 by lia.
  change GMAP_WN_PIXEL with 101 in Hx1. change GMAP_HN_PIXEL with 101 in Hy1.
  exists gMap'. split; [exact Hrun |].
  rewrite Hc'. split; [| split; [exact Hx1 | split; [exact Hy1 |]]].
  - split; [exact Hwf' |]. split; [| exact Hoff'].
    rewrite Hc'. split; [rewrite Hx1 | rewrite Hy1];
      change GMAP_GRID_EDGE_SIZE_PIXEL with 100; apply wrap_range; lia.
  - intros k Hk. exact (stores_to_written _ _ _ _ k Hst Hk).
Qed.

(** One call of the periodic task under the same conditions. *)
Lemma run100ms_step {L : Type} (damp : L -> L) (dbg centred : bool)
    (st : app_slam_state L) :
  tick_invariant (gMap (slam_data st)) ->
  0 <= count st < 2 ^ 31 - 1 ->
  exists g' p,
    app_slam_run100ms damp dbg centred st
    = Some ({| slam_data := {| lidar_data := damp (lidar_data (slam_data st));
                               gMap := g' |};
               count := if dbg then count st + 1 else count st |}, p)
    /\ tick_invariant g'
    /\ x (map_center_pixel g') = wrap (x (map_center_pixel (gMap (slam_data st))) - 1) 101
    /\ y (map_center_pixel g') = wrap (y (map_center_pixel (gMap (slam_data st))) - 1) 101
    /\ (forall k, In k (footprint_indices (map_center_pixel g')) ->
                  load (data g') k = Some GRID_CELL_VISITED)
    /\ (if dbg && (Z.rem (count st + 1) 10 =? 0)
        then exists lines, p = Some (count st + 1, lines) /\ length lines = 101%nat
        else p = None).
Proof.
  intros Hinv Hcount.
  destruct (tick_step _ Hinv) as (g' & Hrun & Hinv' & Hx & Hy & Hfoot).
  pose proof Hinv' as (Hwf' & Hc' & _).
  unfold app_slam_run100ms, app_slam_private_localMapUpdate. cbv zeta.
  cbn [gMap lidar_data]. rewrite Hrun. cbn [mbind option_bind].
  rewrite (to_int32_small (count st + 1)) by lia.
  destruct dbg; cbn [andb].
  - destruct (Z.rem (count st + 1) 10 =? 0).
    + destruct centred.
      * rewrite (debugPrintMap_centred_lines _ g' Hwf' Hc').
        cbn [mbind option_bind]. eexists g', _. split; [reflexivity |].
        repeat (split; [assumption |]).
        eexists. split; [reflexivity |]. rewrite length_map. reflexivity.
      * rewrite (debugPrintMap_raw_lines _ g' Hwf').
        cbn [mbind option_bind]. eexists g', _. split; [reflexivity |].
        repeat (split; [assumption |]).
        eexists. split; [reflexivity |]. rewrite length_map. reflexivity.
    + exists g', None. split; [reflexivity |].
      repeat (split; [assumption |]). reflexivity.
  - exists g', None. split; [reflexivity |].
    repeat (split; [assumption |]). reflexivity.
Qed.

(** X13. From the state [app_slam_init] leaves, any number of calls of the
    periodic task (below 2^31, where the call counter would overflow)
    completes. Afterwards the map is well formed with a zero leftover, each
    centre component is [(50 - n) mod 101], so that the map is back on its
    initial centre every 101 calls, the lidar data has gone through the
    driver [n] times, the cells under the vehicle are marked visited, and a
    debug build has counted [n] calls and printed [n / 10] maps of 101
    lines each, where a build without the print-out has printed nothing. *)
Theorem run_ticks_spec {L : Type} (damp : L -> L) (dbg centred : bool)
    (lidar_zero : L) (n : nat) :
  Z.of_nat n < 2 ^ 31 ->
  exists st printed,
    run_ticks damp dbg centred n (app_slam_init_state lidar_zero) = Some (st, printed)
    /\ tick_invariant (gMap (slam_data st))
    /\ x (map_center_pixel (gMap (slam_data st))) = (50 - Z.of_nat n) mod 101
    /\ y (map_center_pixel (gMap (slam_data st))) = (50 - Z.of_nat n) mod 101
    /\ lidar_data (slam_data st) = Nat.iter n damp lidar_zero
    /\ ((0 < n)%nat ->
        forall k, In k (footprint_indices (map_center_pixel (gMap (slam_data st)))) ->
                  load (data (gMap (slam_data st))) k = Some GRID_CELL_VISITED)
    /\ count st = (if dbg then Z.of_nat n else 0)
    /\ Z.of_nat (length printed) = (if dbg then Z.of_nat n / 10 else 0)
    /\ Forall (fun p => Z.rem (fst p) 10 = 0 /\ length (snd p) = 101%nat) printed.
Proof.
  induction n as [| n IH]; intros Hn.
  - exists (app_slam_init_state lidar_zero), []. split; [reflexivity |].
    split; [exact tick_invariant_init |].
    split; [reflexivity |]. split; [reflexivity |]. split; [reflexivity |].
    split; [intros H0; inversion H0 |].
    split; [destruct dbg; reflexivity |].
    split; [destruct dbg; reflexivity | constructor].
  - destruct IH as (st & printed & Hrun & Hinv & Hx & Hy & Hlidar & _ & Hcount
                    & Hlen & Hall); [lia |].
    assert (Hc : 0 <= count st < 2 ^ 31 - 1) by (rewrite Hcount; destruct dbg; lia).
    destruct (run100ms_step damp dbg centred st Hinv Hc)
      as (g' & p & Hstep & Hinv' & Hx' & Hy' & Hfoot & Hp).
    cbn [run_ticks]. rewrite Hrun. cbn [mbind option_bind]. rewrite Hstep.
    cbn [mbind option_bind].
    eexists _, _. split; [reflexivity |]. cbn [slam_data gMap lidar_data count].
    split; [exact Hinv' |].
    assert (Hmod : forall a, a = (50 - Z.of_nat n) mod 101 ->
                             wrap (a - 1) 101 = (50 - Z.of_nat (Datatypes.S n)) mod 101).
    { intros a Ha.
      pose proof (Z.mod_pos_bound (50 - Z.of_nat n) 101 ltac:(lia)) as Hb.
      rewrite wrap_cases by lia.
      destruct (Z.ltb_spec (a - 1) 0), (Z.ltb_spec 100 (a - 1)); try lia;
        [apply (Z.mod_unique_pos _ _ ((50 - Z.of_nat n) / 101 - 1))
                  | apply (Z.mod_unique_pos _ _ ((50 - Z.of_nat n) / 101))];
        try lia;
        pose proof (Z.div_mod (50 - Z.of_nat n) 101 ltac:(lia)); lia. }
    split; [rewrite Hx'; apply Hmod, Hx |].
    split; [rewrite Hy'; apply Hmod, Hy |].
    split; [rewrite Hlidar; reflexivity |].
    split; [intros _; exact Hfoot |].
    split; [rewrite Hcount; destruct dbg; lia |].
    rewrite Hcount in Hp. destruct dbg; cbn [andb] in Hp.
    + assert (Hrem : Z.rem (Z.of_nat n + 1) 10 = (Z.of_nat n + 1) mod 10)
        by (apply Z.rem_mod_nonneg; lia).
      replace (Z.of_nat (Datatypes.S n)) with (Z.of_nat n + 1) by lia.
      destruct (Z.eqb_spec (Z.rem (Z.of_nat n + 1) 10) 0) as [Hz | Hnz].
      * destruct Hp as (lines & -> & Hlines). split.
        -- cbn [length]. rewrite Nat2Z.inj_succ, Hlen.
           rewrite Hrem in Hz.
           pose proof (Z.div_mod (Z.of_nat n + 1) 10 ltac:(lia)).
           pose proof (Z.div_mod (Z.of_nat n) 10 ltac:(lia)).
           pose proof (Z.mod_pos_bound (Z.of_nat n) 10 ltac:(lia)). lia.
        -- constructor; [| exact Hall]. cbn [fst snd]. split; assumption.
      * subst p. split; [| exact Hall]. rewrite Hlen. rewrite Hrem in Hnz.
        pose proof (Z.div_mod (Z.of_nat n + 1) 10 ltac:(lia)).
        pose proof (Z.div_mod (Z.of_nat n) 10 ltac:(lia)).
        pose proof (Z.mod_pos_bound (Z.of_nat n) 10 ltac:(lia)).
        pose proof (Z.mod_pos_bound (Z.of_nat n + 1) 10 ltac:(lia)). lia.
    + subst p. split; [exact Hlen | exact Hall].
Qed.

Lemma run_ticks_spec_witness :
  exists st printed,
    run_ticks Datatypes.S true true 20 (app_slam_init_state 0%nat) = Some (st, printed)
    /\ tick_invariant (gMap (slam_data st))
    /\ x (map_center_pixel (gMap (slam_data st))) = (50 - Z.of_nat 20) mod 101
    /\ y (map_center_pixel (gMap (slam_data st))) = (50 - Z.of_nat 20) mod 101
    /\ lidar_data (slam_data st) = Nat.iter 20 Datatypes.S 0%nat
    /\ ((0 < 20)%nat ->
        forall k, In k (footprint_indices (map_center_pixel (gMap (slam_data st)))) ->
                  load (data (gMap (slam_data st))) k = Some GRID_CELL_VISITED)
    /\ count st = Z.of_nat 20
    /\ Z.of_nat (length printed) = Z.of_nat 20 / 10
    /\ Forall (fun p => Z.rem (fst p) 10 = 0 /\ length (snd p) = 101%nat) printed.
Proof.
  apply (run_ticks_spec Datatypes.S true true 0%nat 20). reflexivity.
Defined.

(** ** The map update on whole millimetres *)

Lemma quot_rem_step_bounds s :
  - 1009 <= s <= 1009 -> - 100 <= s ÷ 10 <= 100 /\ - 10 < Z.rem s 10 < 10.
Proof.
  intros Hs. pose proof (Z.quot_rem' s 10) as Hqr.
  destruct (Z.le_gt_cases 0 s) as [Hpos | Hneg].
  - pose proof (Z.rem_bound_pos_pos s 10 ltac:(lia) Hpos). lia.
  - pose proof (Z.rem_bound_pos_neg s 10 ltac:(lia) ltac:(lia)). lia.
Qed.

(** X14. The body of the map update for any displacement of the tick in
    whole millimetres, of at most one map edge on each axis, on a
    well-formed map with its centre within the map and whole-millimetre
    leftovers below one step: when the shift stays within the reach of the
    single wrap, the update completes; each centre component moves by the
    quotient of displacement plus leftover by the step, truncated toward
    zero, with one wrap, and stays within the map; the new leftover is the
    remainder, with the sign of the dividend; and the cells under the
    vehicle at the new centre are marked visited. *)
Theorem globalMapUpdate_whole_mm (rx ry lx ly : Z) (gMap : dynamic_map_S) :
  wf_map gMap -> center_ok (map_center_pixel gMap) ->
  map_offset_mm gMap = {| x := F32.of_Z lx; y := F32.of_Z ly |} ->
  - 1000 <= rx <= 1000 -> - 1000 <= ry <= 1000 ->
  - 10 < lx < 10 -> - 10 < ly < 10 ->
  - 51 <= x (map_center_pixel gMap) + (rx + lx) ÷ 10 ->
  - 51 <= y (map_center_pixel gMap) + (ry + ly) ÷ 10 ->
  exists gMap',
    globalMapUpdate_with (F32.of_Z rx) (F32.of_Z ry) gMap = Some gMap'
    /\ wf_map gMap'
    /\ center_ok (map_center_pixel gMap')
    /\ x (map_center_pixel gMap')
       = wrap (x (map_center_pixel gMap) + (rx + lx) ÷ 10) 101
    /\ y (map_center_pixel gMap')
       = wrap (y (map_center_pixel gMap) + (ry + ly) ÷ 10) 101
    /\ map_offset_mm gMap' = {| x := F32.of_Z (Z.rem (rx + lx) 10);
                                y := F32.of_Z (Z.rem (ry + ly) 10) |}
    /\ - 10 < Z.rem (rx + lx) 10 < 10 /\ - 10 < Z.rem (ry + ly) 10 < 10
    /\ forall k, In k (footprint_indices (map_center_pixel gMap')) ->
                 load (data gMap') k = Some GRID_CELL_VISITED.
Proof.
  intros Hwf Hc Hoff Hrx Hry Hlx Hly Hbx Hby.
  pose proof Hc as [Hcx Hcy]. change GMAP_GRID_EDGE_SIZE_PIXEL with 100 in Hcx, Hcy.
  pose proof (drift_axis_whole rx lx Hrx Hlx) as Hdx.
  pose proof (drift_axis_whole ry ly Hry Hly) as Hdy.
  destruct (quot_rem_step_bounds (rx + lx) ltac:(lia)) as [Hqx Hremx].
  destruct (quot_rem_step_bounds (ry + ly) ltac:(lia)) as [Hqy Hremy].
  assert (Hsh : update_shift (F32.of_Z rx) (F32.of_Z ry) gMap
                = Some ((rx + lx) ÷ 10, (ry + ly) ÷ 10)).
  { unfold update_shift. rewrite Hoff. cbn [x y].
    unfold drift_axis in Hdx, Hdy. cbv zeta in Hdx, Hdy.
    destruct (GMAP_MM_TO_UNIT_PIXEL (F32.add (F32.of_Z rx) (F32.of_Z lx)))
      as [dx |]; [| discriminate].
    destruct (GMAP_MM_TO_UNIT_PIXEL (F32.add (F32.of_Z ry) (F32.of_Z ly)))
      as [dy |]; [| discriminate].
    cbn [mbind option_bind] in *. congruence. }
  destruct (globalMapUpdate_with_spec (F32.of_Z rx) (F32.of_Z ry) gMap _ _ Hwf Hc Hsh)
    as (gMap1 & gMap' & ox & oy & Htr & Hrun & Hwf' & Hc' & Hox & Hoy & Hoff' & Hst).
  { unfold band_in_reach. change GMAP_WN_PIXEL with 101.
    change GMAP_DEFAULT_CENTRAL_X_INDEX_PIXEL with 50. lia. }
  { unfold band_in_reach. change GMAP_WN_PIXEL with 101.
    change GMAP_DEFAULT_CENTRAL_X_INDEX_PIXEL with 50. lia. }
  rewrite Hoff in Hox, Hoy. cbn [x y] in Hox, Hoy.
  rewrite Hdx in Hox. rewrite Hdy in Hoy.
  injection Hox as <-. injection Hoy as <-.
  apply translate_Some in Htr. destruct Htr as (_ & Hx1 & Hy1 & _).
  rewrite to_int32_small in Hx1, Hy1 by lia.
  change GMAP_WN_PIXEL with 101 in Hx1. change GMAP_HN_PIXEL with 101 in Hy1.
  exists gMap'. split; [exact Hrun |]. split; [exact Hwf' |].
  rewrite Hc'. split; [| split; [exact Hx1 | split; [exact Hy1 |]]].
  - split; [rewrite Hx1 | rewrite Hy1];
      change GMAP_GRID_EDGE_SIZE_PIXEL with 100; apply wrap_range; lia.
  - split; [exact Hoff' |]. split; [exact Hremx |]. split; [exact Hremy |].
    intros k Hk. exact (stores_to_written _ _ _ _ k Hst Hk).
Qed.

Lemma globalMapUpdate_whole_mm_witness :
  exists gMap',
    globalMapUpdate_with (F32.of_Z 25) (F32.of_Z (- 37)) app_slam_init = Some gMap'
    /\ wf_map gMap'
    /\ center_ok (map_center_pixel gMap')
    /\ x (map_center_pixel gMap')
       = wrap (x (map_center_pixel app_slam_init) + (25 + 0) ÷ 10) 101
    /\ y (map_center_pixel gMap')
       = wrap (y (map_center_pixel app_slam_init) + (- 37 + 0) ÷ 10) 101
    /\ map_offset_mm gMap' = {| x := F32.of_Z (Z.rem (25 + 0) 10);
                                y := F32.of_Z (Z.rem (- 37 + 0) 10) |}
    /\ - 10 < Z.rem (25 + 0) 10 < 10 /\ - 10 < Z.rem (- 37 + 0) 10 < 10
    /\ forall k, In k (footprint_indices (map_center_pixel gMap')) ->
                 load (data gMap') k = Some GRID_CELL_VISITED.
Proof.
  apply (globalMapUpdate_whole_mm 25 (- 37) 0 0 app_slam_init).
  - vm_compute. reflexivity.
  - vm_compute. repeat split; discriminate.
  - reflexivity.
  - lia.
  - lia.
  - lia.
  - lia.
  - vm_compute. discriminate.
  - vm_compute. discriminate.
Defined.

(** ** The pixel and millimetre macros *)

Lemma pixel_mm_round_trip_checked :
  all_in_range 2021 (- 1010)
    (fun p => sf_eqb (GMAP_UNIT_PIXEL_TO_MM p) (F32.of_Z (10 * p))
              && match GMAP_MM_TO_UNIT_PIXEL (GMAP_UNIT_PIXEL_TO_MM p) with
                 | Some q => q =? p
                 | None => false
                 end) = true.
Proof. vm_compute. reflexivity. Qed.

(** X15. Pixels to millimetres and back: for every pixel count of at most
    ten map edges, [GMAP_UNIT_PIXEL_TO_MM] is exact (the [float] of ten
    times the count) and [GMAP_MM_TO_UNIT_PIXEL] brings it back to the count
    it started from, so that the leftover of a tick is the displacement less
    exactly the shift applied. *)
Theorem pixel_mm_round_trip (p : Z) :
  - 1010 <= p <= 1010 ->
  GMAP_UNIT_PIXEL_TO_MM p = F32.of_Z (10 * p)
  /\ GMAP_MM_TO_UNIT_PIXEL (GMAP_UNIT_PIXEL_TO_MM p) = Some p.
Proof.
  intros Hp.
  pose proof (all_in_range_spec _ _ _ pixel_mm_round_trip_checked p ltac:(lia)) as H.
  cbv beta in H. apply andb_prop in H. destruct H as [Hmm Hback].
  apply sf_eqb_eq in Hmm. split; [exact Hmm |].
  destruct (GMAP_MM_TO_UNIT_PIXEL (GMAP_UNIT_PIXEL_TO_MM p)) as [q |];
    [| discriminate].
  apply Z.eqb_eq in Hback. congruence.
Qed.

Lemma pixel_mm_round_trip_witness :
  GMAP_UNIT_PIXEL_TO_MM (- 7) = F32.of_Z (10 * - 7)
  /\ GMAP_MM_TO_UNIT_PIXEL (GMAP_UNIT_PIXEL_TO_MM (- 7)) = Some (- 7).
Proof. apply (pixel_mm_round_trip (- 7)). lia. Defined.

(** ** The collision switch *)

(** X16. [collision_private_gpio_config] on the 8-bit register [DDRB],
    for a pin number of the port: the result is again an 8-bit value, its
    bit [PINB4] is 0 (the pin is an input), every other bit is the bit
    [DDRB] had, and a second call changes nothing. *)
Theorem collision_gpio_config_bits (PINB4 DDRB : Z) :
  0 <= PINB4 <= 7 -> 0 <= DDRB < 256 ->
  0 <= collision_private_gpio_config PINB4 DDRB < 256
  /\ Z.testbit (collision_private_gpio_config PINB4 DDRB) PINB4 = false
  /\ (forall b, b <> PINB4 ->
        Z.testbit (collision_private_gpio_config PINB4 DDRB) b = Z.testbit DDRB b)
  /\ collision_private_gpio_config PINB4 (collision_private_gpio_config PINB4 DDRB)
     = collision_private_gpio_config PINB4 DDRB.
Proof.
  intros Hp Hd.
  assert (Hbits : forall D b, 0 <= D < 256 ->
            Z.testbit (collision_private_gpio_config PINB4 D) b
            = Z.testbit D b && negb (b =? PINB4)).
  { intros D b HD. unfold collision_private_gpio_config, to_uint8.
    destruct (Z.ltb_spec b 0) as [Hneg | Hnn].
    { rewrite !Z.testbit_neg_r by lia. reflexivity. }
    change (2 ^ 8) with (2 ^ 8). rewrite Z.testbit_mod_pow2 by lia.
    rewrite Z.land_spec, Z.lnot_spec by lia.
    rewrite Z.shiftl_1_l, Z.pow2_bits_eqb by lia.
    destruct (Z.ltb_spec b 8) as [Hlt | Hge].
    - cbn [andb]. rewrite (Z.eqb_sym PINB4 b). reflexivity.
    - cbn [andb].
      assert (HD' : Z.testbit D b = false).
      { destruct (Z.eq_dec D 0) as [-> | Hne]; [apply Z.bits_0 |].
        apply Z.bits_above_log2; [lia |].
        apply Z.log2_lt_pow2; [lia |].
        apply Z.lt_le_trans with (2 ^ 8); [change (2 ^ 8) with 256; lia |].
        apply Z.pow_le_mono_r; lia. }
      rewrite HD'. reflexivity. }
  assert (Hrange : forall D, 0 <= collision_private_gpio_config PINB4 D < 256).
  { intros D. unfold collision_private_gpio_config, to_uint8.
    change (2 ^ 8) with 256. apply Z.mod_pos_bound. lia. }
  split; [apply Hrange |]. split.
  - rewrite Hbits by lia. rewrite Z.eqb_refl. apply andb_false_r.
  - split.
    + intros b Hb. rewrite Hbits by lia.
      destruct (Z.eqb_spec b PINB4); [contradiction |]. apply andb_true_r.
    + apply Z.bits_inj'. intros b _.
      rewrite (Hbits _ b (Hrange DDRB)), (Hbits DDRB b Hd).
      destruct (Z.testbit DDRB b), (negb (b =? PINB4)); reflexivity.
Qed.

Lemma collision_gpio_config_bits_witness :
  0 <= collision_private_gpio_config 4 255 < 256
  /\ Z.testbit (collision_private_gpio_config 4 255) 4 = false
  /\ (forall b, b <> 4 ->
        Z.testbit (collision_private_gpio_config 4 255) b = Z.testbit 255 b)
  /\ collision_private_gpio_config 4 (collision_private_gpio_config 4 255)
     = collision_private_gpio_config 4 255.
Proof. apply (collision_gpio_config_bits 4 255); lia. Defined.
